(** * diffHunk.ts: unified-diff hunk parser and content reconstructor

    A shallow embedding of [src/common/diffHunk.ts].

    Conventions of the embedding.
    - A JavaScript string is a [string]; indices and lengths are [nat].
      Characters are the 8-bit ones of [ascii]; every character the code
      tests for (space, plus, minus, at, comma, digits, CR, LF) is one.
    - A JavaScript number that holds a line number is a [number]: [NaN], an
      infinity, or an integer [Num z] that an IEEE-754 double holds.  The
      numbers built from the input are the decimal captures of the header
      pattern: [Number] reads them as the nearest double, which is the
      integer itself up to 2^53 and a rounded one, or [Infinity], beyond; and
      [+] on them rounds the same way.
    - A string is a list of characters and an array a list of elements, of
      any length.  Their lengths and the counters that run along them
      ([positionInHunk], the number of carriage returns, the [j] of the copy
      loops) are exact integers, as they are in an engine while they stay
      below 2^53.
    - The generators [LineReader] and [parseDiffHunk] are materialised as the
      list of the values they yield.  Both are pure, and a yielded hunk is
      never touched again after its [yield] (the local is reset to [null]).
    - [while] loops whose trip count is not syntactically bounded carry a
      fuel argument and return [Diverge] when it runs out; a property access
      on [null] or [undefined] returns [Throw TypeError]. *)

From Stdlib Require Import ZArith List Bool Lia String Ascii Sorted SpecFloat.
Import ListNotations.
Local Open Scope list_scope.
Local Open Scope string_scope.
Local Open Scope nat_scope.

Set Implicit Arguments.

(** ** Outcomes of running JavaScript code *)

Inductive error := TypeError.

Inductive outcome (A : Type) : Type :=
| Return (a : A)
| Throw (e : error)
| Diverge.

Arguments Return {A} a.
Arguments Throw {A} e.
Arguments Diverge {A}.

Definition bind {A B : Type} (m : outcome A) (k : A -> outcome B) : outcome B :=
  match m with
  | Return a => k a
  | Throw e => Throw e
  | Diverge => Diverge
  end.

Notation "x <- m ;; k" := (bind m (fun x => k))
  (at level 61, m at next level, right associativity).

(** ** String primitives *)

Definition LF : ascii := "010"%char.
Definition CR : ascii := "013"%char.

(** [text[i]] *)
Definition charAt (text : string) (i : nat) : option ascii := String.get i text.

(** [text.substr(start, length)] *)
Definition substr (text : string) (start len : nat) : string :=
  String.substring start len text.

(** [text.indexOf(c, from)] for a one-character needle; [None] is [-1]. *)
Fixpoint indexOf (c : ascii) (text : string) (from : nat) : option nat :=
  match text with
  | EmptyString => None
  | String a text' =>
      match from with
      | O => if Ascii.eqb a c then Some O else option_map S (indexOf c text' O)
      | S from' => option_map S (indexOf c text' from')
      end
  end.

Definition is_char (o : option ascii) (c : ascii) : bool :=
  match o with
  | Some a => Ascii.eqb a c
  | None => false
  end.

(** ** LineReader (lines 76-95)

    [index] is the loop variable; the case [index = -1] is the [None] branch
    of [indexOf], after which the loop condition fails.  [length--] is
    truncated subtraction: [substr] treats a negative length as zero. *)
Fixpoint LineReader_loop (fuel : nat) (text : string) (index : nat)
  : outcome (list string) :=
  if index <? String.length text then
    match fuel with
    | O => Diverge
    | S fuel' =>
        let startIndex := index in
        match indexOf LF text index with
        | Some index =>
            let length := index - startIndex in
            let length :=
              if (0 <? index) && is_char (charAt text (index - 1)) CR
              then length - 1 else length in
            let index := S index in
            rest <- LineReader_loop fuel' text index ;;
            Return (substr text startIndex length :: rest)
        | None =>
            let endIndex := String.length text in
            let length := endIndex - startIndex in
            Return [substr text startIndex length]
        end
    end
  else Return [].

Definition LineReader (text : string) : outcome (list string) :=
  LineReader_loop (String.length text) text 0.

(** *** The scanner as the specification words it

    A terminator is LF or CR LF.  [scan_lines cur s] walks [s] with the
    current partial line [cur]. *)
Fixpoint has_char (c : ascii) (s : string) : bool :=
  match s with
  | EmptyString => false
  | String a s' => Ascii.eqb a c || has_char c s'
  end.

Fixpoint ends_with_char (c : ascii) (s : string) : bool :=
  match s with
  | EmptyString => false
  | String a EmptyString => Ascii.eqb a c
  | String _ s' => ends_with_char c s'
  end.

Fixpoint strip_last (s : string) : string :=
  match s with
  | EmptyString => EmptyString
  | String _ EmptyString => EmptyString
  | String a s' => String a (strip_last s')
  end.

Definition strip_cr (s : string) : string :=
  if ends_with_char CR s then strip_last s else s.

Fixpoint scan_lines (cur s : string) : list string :=
  match s with
  | EmptyString => match cur with EmptyString => [] | _ => [cur] end
  | String c s' =>
      if Ascii.eqb c LF then strip_cr cur :: scan_lines "" s'
      else scan_lines (cur ++ String c "") s'
  end.

Definition nl : string := String LF "".
Definition crlf : string := String CR (String LF "").

(** ** DiffChangeType, DiffLine, DiffHunk (lines 15-61) *)

Inductive DiffChangeType := Context | Add | Delete | Control.

Definition DiffChangeType_eqb (a b : DiffChangeType) : bool :=
  match a, b with
  | Context, Context | Add, Add | Delete, Delete | Control, Control => true
  | _, _ => false
  end.

(** A JavaScript number holding a line number: [Num z] is the double whose
    value is the integer [z]. *)
Inductive number := NaN | Num (z : Z) | PlusInfinity | MinusInfinity.

(** The double nearest to an integer, a tie going to the even significand.
    Every integer of magnitude up to 2^53 is a double.  Beyond, a double is
    [q * 2^e] with [2^52 <= q < 2^53]: [e] is fixed by the magnitude, [q] is
    the quotient by [2^e] rounded on the remainder, and a magnitude that
    rounds to 2^1024 or more gives an infinity. *)
Definition nearest_double (z : Z) : number :=
  let m := Z.abs z in
  if (m <=? 2 ^ 53)%Z then Num z
  else
    let e := (Z.log2 m - 52)%Z in
    let q := (m / 2 ^ e)%Z in
    let r := (m mod 2 ^ e)%Z in
    let q :=
      if (2 * r <? 2 ^ e)%Z then q
      else if (2 ^ e <? 2 * r)%Z then (q + 1)%Z
      else if Z.even q then q else (q + 1)%Z in
    let v := (q * 2 ^ e)%Z in
    if (2 ^ 1024 <=? v)%Z
    then (if (z <? 0)%Z then MinusInfinity else PlusInfinity)
    else Num (Z.sgn z * v).

(** The same rounding as the Standard Library specifies it for IEEE-754
    binary64 (a significand of 53 bits, exponents below 1024), to compare
    [nearest_double] with. *)
Definition number_of_spec_float (x : spec_float) : number :=
  match x with
  | S754_zero _ => Num 0
  | S754_infinity s => if s then MinusInfinity else PlusInfinity
  | S754_nan => NaN
  | S754_finite s m e =>
      let v := if (0 <=? e)%Z then (Z.pos m * 2 ^ e)%Z else (Z.pos m / 2 ^ (- e))%Z in
      Num (if s then (- v)%Z else v)
  end.

Definition binary64_of_Z (z : Z) : number :=
  number_of_spec_float (binary_normalize 53 1024 z 0 false).

Definition number_eqb (a b : number) : bool :=
  match a, b with
  | NaN, NaN | PlusInfinity, PlusInfinity | MinusInfinity, MinusInfinity => true
  | Num x, Num y => (x =? y)%Z
  | _, _ => false
  end.

(** Integers around the places where the rounding changes: zero, 2^53, the
    powers of two up to the largest double, and powers of ten. *)
Definition rounding_samples : list Z :=
  let around (c : Z) (n : nat) :=
    map (fun i => (c - Z.of_nat n + Z.of_nat i)%Z) (seq 0 (2 * n + 1)) in
  (around 0%Z 20 ++ around (2 ^ 53)%Z 64 ++ around (- 2 ^ 53)%Z 64
   ++ flat_map (fun k => around (2 ^ Z.of_nat k)%Z 8) (seq 54 12)
   ++ flat_map (fun k => around (2 ^ Z.of_nat (66 + 48 * k))%Z 2) (seq 0 20)
   ++ around (2 ^ 1024 - 2 ^ 970)%Z 2 ++ around (- (2 ^ 1024 - 2 ^ 970))%Z 2
   ++ flat_map (fun k => around (10 ^ Z.of_nat (15 + 14 * k))%Z 1) (seq 0 22))%list.

(** [a + b]: the exact sum, rounded; [NaN] is absorbing, an infinity absorbs
    what is finite, and the two infinities add to [NaN]. *)
Definition number_add (a b : number) : number :=
  match a, b with
  | Num x, Num y => nearest_double (x + y)
  | NaN, _ | _, NaN => NaN
  | PlusInfinity, MinusInfinity | MinusInfinity, PlusInfinity => NaN
  | PlusInfinity, _ | _, PlusInfinity => PlusInfinity
  | MinusInfinity, _ | _, MinusInfinity => MinusInfinity
  end.

(** [a < b]: [NaN] compares false. *)
Definition number_ltb (a b : number) : bool :=
  match a, b with
  | Num x, Num y => (x <? y)%Z
  | MinusInfinity, Num _ | MinusInfinity, PlusInfinity | Num _, PlusInfinity => true
  | _, _ => false
  end.

(** [text.substr(start)] *)
Definition substr_from (text : string) (start : nat) : string :=
  substr text start (String.length text - start).

Module DiffLine.
Record t := mk {
  type : DiffChangeType;
  oldLineNumber : number;   (* 1 based *)
  newLineNumber : number;   (* 1 based *)
  positionInHunk : Z;
  raw : string;
  endwithLineBreak : bool
}.

Definition text (l : t) : string := substr_from (raw l) 1.

Definition set_endwithLineBreak (b : bool) (l : t) : t :=
  mk (type l) (oldLineNumber l) (newLineNumber l) (positionInHunk l) (raw l) b.
End DiffLine.

Definition getDiffChangeType (text : string) : DiffChangeType :=
  match charAt text 0 with
  | Some " "%char => Context
  | Some "+"%char => Add
  | Some "-"%char => Delete
  | _ => Control
  end.

Module DiffHunk.
Record t := mk {
  oldLineNumber : number;
  oldLength : Z;
  newLineNumber : number;
  newLength : Z;
  positionInHunk : Z;
  diffLines : list DiffLine.t
}.

Definition set_diffLines (ls : list DiffLine.t) (h : t) : t :=
  mk (oldLineNumber h) (oldLength h) (newLineNumber h) (newLength h)
     (positionInHunk h) ls.
End DiffHunk.

(** ** The header pattern (line 63)

    A backtracking matcher in continuation-passing style, after the
    semantics of ECMAScript patterns, for the constructs the pattern uses.
    A matcher state is the unread suffix of the line with the captures so
    far; a capture that did not take part in the match is [None]
    ([undefined]). *)

Inductive regex :=
| Chars (s : string)            (* a run of literal characters *)
| DigitPlus                     (* \d+ , greedy *)
| Seq (r1 r2 : regex)           (* r1 r2 *)
| Opt (r : regex)               (* r? , greedy *)
| Group (n : nat) (r : regex).  (* the n-th capturing parentheses *)

Notation "r1 >> r2" := (Seq r1 r2) (at level 61, right associativity).

Definition captures := list (option string).

Record mstate := MState { unread : string; caps : captures }.

Definition is_digit (c : ascii) : bool :=
  (48 <=? nat_of_ascii c) && (nat_of_ascii c <=? 57).

Fixpoint strip_prefix (p s : string) : option string :=
  match p with
  | EmptyString => Some s
  | String a p' =>
      match s with
      | String b s' => if Ascii.eqb a b then strip_prefix p' s' else None
      | EmptyString => None
      end
  end.

(** One or more characters of a class, the longest run first. *)
Fixpoint class_plus {A : Type} (cls : ascii -> bool) (s : string)
    (k : string -> option A) : option A :=
  match s with
  | String c s' =>
      if cls c then
        match class_plus cls s' k with
        | Some z => Some z
        | None => k s'
        end
      else None
  | EmptyString => None
  end.

Fixpoint set_nth {A : Type} (n : nat) (a : A) (l : list A) : list A :=
  match l, n with
  | [], _ => []
  | _ :: l', O => a :: l'
  | b :: l', S n' => b :: set_nth n' a l'
  end.

Fixpoint matcher (r : regex) (x : mstate) (k : mstate -> option mstate)
  : option mstate :=
  match r with
  | Chars s =>
      match strip_prefix s (unread x) with
      | Some rest => k (MState rest (caps x))
      | None => None
      end
  | DigitPlus => class_plus is_digit (unread x) (fun rest => k (MState rest (caps x)))
  | Seq r1 r2 => matcher r1 x (fun y => matcher r2 y k)
  | Opt r' =>
      match matcher r' x k with
      | Some z => Some z
      | None => k x
      end
  | Group n r' =>
      matcher r' x (fun y =>
        let taken := String.length (unread x) - String.length (unread y) in
        k (MState (unread y) (set_nth n (Some (substr (unread x) 0 taken)) (caps y))))
  end.

(** [re.exec(line)] for a pattern with [groups] capturing parentheses and no
    flags: the leftmost start at which the pattern matches; [None] is
    [null].  Capture 0 is the whole match. *)
Fixpoint exec_at (re : regex) (groups : nat) (line : string) : option captures :=
  match matcher (Group 0 re) (MState line (repeat None (S groups))) Some with
  | Some y => Some (caps y)
  | None =>
      match line with
      | EmptyString => None
      | String _ line' => exec_at re groups line'
      end
  end.

(** [/@@ \-(\d+)(,(\d+))?( \+(\d+)(,(\d+)?)?)? @@/] *)
Definition DIFF_HUNK_HEADER : regex :=
  Chars "@@ -" >> Group 1 DigitPlus >>
  Opt (Group 2 (Chars "," >> Group 3 DigitPlus)) >>
  Opt (Group 4 (Chars " +" >> Group 5 DigitPlus >>
                Opt (Group 6 (Chars "," >> Opt (Group 7 DigitPlus))))) >>
  Chars " @@".

Definition DIFF_HUNK_HEADER_exec (line : string) : option captures :=
  exec_at DIFF_HUNK_HEADER 7 line.

Definition DIFF_HUNK_HEADER_test (line : string) : bool :=
  match DIFF_HUNK_HEADER_exec line with
  | Some _ => true
  | None => false
  end.

(** [matches[i]] *)
Definition capture (matches : captures) (i : nat) : option string :=
  nth i matches None.

(** [Number(s)] for a capture: [undefined] gives [NaN], a run of decimal
    digits the double nearest to its value, as engines compute it.  The
    captures of [DIFF_HUNK_HEADER] are runs of digits; on a string that is
    not one, [NaN] stands for whatever [Number] gives. *)
Definition digit_value (c : ascii) : Z := Z.of_nat (nat_of_ascii c) - 48.

Fixpoint decimal (acc : Z) (s : string) : Z :=
  match s with
  | EmptyString => acc
  | String c s' => decimal (10 * acc + digit_value c) s'
  end.

Fixpoint all_digits (s : string) : bool :=
  match s with
  | EmptyString => true
  | String c s' => is_digit c && all_digits s'
  end.

Definition Number (s : option string) : number :=
  match s with
  | None => NaN
  | Some s => if all_digits s then nearest_double (decimal 0 s) else NaN
  end.

(** [x | 0]: ToInt32, [NaN] and the infinities give 0, an integer wraps to
    32 signed bits. *)
Definition bitor0 (x : number) : Z :=
  match x with
  | Num z => ((z + 2 ^ 31) mod 2 ^ 32 - 2 ^ 31)%Z
  | _ => 0
  end.

(** ** countCarriageReturns (lines 65-74) *)
Fixpoint countCarriageReturns_loop (fuel : nat) (text : string)
    (index count : nat) : outcome nat :=
  match indexOf CR text index with
  | Some index =>
      match fuel with
      | O => Diverge
      | S fuel' =>
          let index := S index in
          let count := S count in
          countCarriageReturns_loop fuel' text index count
      end
  | None => Return count
  end.

Definition countCarriageReturns (text : string) : outcome nat :=
  countCarriageReturns_loop (String.length text) text 0 0.

(** ** parseDiffHunk (lines 97-167)

    The locals of the generator, with the hunks yielded so far. *)
Record locals := Locals {
  diffHunk : option DiffHunk.t;
  positionInHunk : Z;
  oldLine : number;
  newLine : number;
  yielded : list DiffHunk.t
}.

Definition locals_init : locals := Locals None (-1) (Num (-1)) (Num (-1)) [].

(** [diffLines[diffLines.length - 1].endwithLineBreak = false] *)
Definition clear_last_endwithLineBreak (ls : list DiffLine.t)
  : outcome (list DiffLine.t) :=
  match nth_error ls (List.length ls - 1) with
  | Some l =>
      Return (set_nth (List.length ls - 1) (DiffLine.set_endwithLineBreak false l) ls)
  | None => Throw TypeError
  end.

(** Lines 108-126: the line is a header. *)
Definition header_branch (st : locals) (line : string) : outcome locals :=
  let yielded :=
    match diffHunk st with
    | Some h => (yielded st ++ [h])%list
    | None => yielded st
    end in
  let positionInHunk :=
    if (positionInHunk st =? -1)%Z then 0%Z else positionInHunk st in
  match DIFF_HUNK_HEADER_exec line with
  | None => Throw TypeError
  | Some matches =>
      let oriStartLine := Number (capture matches 1) in
      let oriLen := bitor0 (Number (capture matches 3)) in
      let newStartLine := Number (capture matches 5) in
      let newLen := bitor0 (Number (capture matches 7)) in
      let hunk :=
        DiffHunk.mk oriStartLine oriLen newStartLine newLen positionInHunk
          [DiffLine.mk Control (Num (-1)) (Num (-1)) positionInHunk line true] in
      Return (Locals (Some hunk) positionInHunk oriStartLine newStartLine yielded)
  end.

(** Lines 127-156: the line is not a header and a hunk is open. *)
Definition content_branch (st : locals) (hunk : DiffHunk.t) (line : string)
  : outcome locals :=
  let type := getDiffChangeType line in
  if DiffChangeType_eqb type Control then
    if 0 <? List.length (DiffHunk.diffLines hunk) then
      ls <- clear_last_endwithLineBreak (DiffHunk.diffLines hunk) ;;
      Return (Locals (Some (DiffHunk.set_diffLines ls hunk))
                     (positionInHunk st) (oldLine st) (newLine st) (yielded st))
    else Return st
  else
    let l :=
      DiffLine.mk type
        (if negb (DiffChangeType_eqb type Add) then oldLine st else Num (-1))
        (if negb (DiffChangeType_eqb type Delete) then newLine st else Num (-1))
        (positionInHunk st) line true in
    let hunk := DiffHunk.set_diffLines (DiffHunk.diffLines hunk ++ [l])%list hunk in
    n <- countCarriageReturns line ;;
    let lineCount := Num (Z.of_nat (1 + n)) in
    let '(oldLine', newLine') :=
      match type with
      | Context => (number_add (oldLine st) lineCount, number_add (newLine st) lineCount)
      | Delete => (number_add (oldLine st) lineCount, newLine st)
      | Add => (oldLine st, number_add (newLine st) lineCount)
      | Control => (oldLine st, newLine st)
      end in
    Return (Locals (Some hunk) (positionInHunk st) oldLine' newLine' (yielded st)).

(** Lines 158-160. *)
Definition bump_position (st : locals) : locals :=
  if negb (positionInHunk st =? -1)%Z
  then Locals (diffHunk st) (positionInHunk st + 1) (oldLine st) (newLine st)
              (yielded st)
  else st.

(** One turn of the [while] loop, on the line [itr.value]. *)
Definition parseDiffHunk_step (st : locals) (line : string) : outcome locals :=
  st' <- (if DIFF_HUNK_HEADER_test line then header_branch st line
          else match diffHunk st with
               | Some hunk => content_branch st hunk line
               | None => Return st
               end) ;;
  Return (bump_position st').

Fixpoint parseDiffHunk_loop (st : locals) (lines : list string) : outcome locals :=
  match lines with
  | [] => Return st
  | line :: lines' =>
      st' <- parseDiffHunk_step st line ;;
      parseDiffHunk_loop st' lines'
  end.

(** Lines 164-166. *)
Definition parseDiffHunk_finish (st : locals) : list DiffHunk.t :=
  match diffHunk st with
  | Some h => (yielded st ++ [h])%list
  | None => yielded st
  end.

Definition parseDiffHunk (diffHunkPatch : string) : outcome (list DiffHunk.t) :=
  lines <- LineReader diffHunkPatch ;;
  st <- parseDiffHunk_loop locals_init lines ;;
  Return (parseDiffHunk_finish st).

(** ** parsePatch (lines 169-194)

    [right] is filled and dropped; the hunks are returned as they come. *)
Definition kept_text (l : DiffLine.t) : list string :=
  match DiffLine.type l with
  | Delete | Control => []
  | Add => [DiffLine.text l]
  | Context => [DiffLine.text l]
  end.

Definition parsePatch (patch : string) : outcome (list DiffHunk.t) :=
  diffHunks <- parseDiffHunk patch ;;
  let right := flat_map (fun h => flat_map kept_text (DiffHunk.diffLines h)) diffHunks in
  Return diffHunks.

(** ** getModifiedContentFromDiffHunk (lines 196-237) *)

(** [originalContent.split(/\r?\n/)]: the separator is matched leftmost, CR LF
    before a lone LF; the last piece is kept even when empty. *)
Fixpoint split_lines (cur s : string) : list string :=
  match s with
  | EmptyString => [cur]
  | String c s' =>
      if Ascii.eqb c LF then cur :: split_lines "" s'
      else
        match s' with
        | String c' s'' =>
            if Ascii.eqb c CR && Ascii.eqb c' LF then cur :: split_lines "" s''
            else split_lines (cur ++ String c "") s'
        | EmptyString => split_lines (cur ++ String c "") s'
        end
  end.

(** [left[i]]; [None] is [undefined]. *)
Definition array_get {A : Type} (a : list A) (i : Z) : option A :=
  if (0 <=? i)%Z then nth_error a (Z.to_nat i) else None.

(** [n] integers from [a] on. *)
Definition count_from (a : Z) (n : nat) : list Z :=
  map (fun i => (a + Z.of_nat i)%Z) (seq 0 n).

(** The values [j] takes in [for (let j = a; j < b; j++)], the counter
    being exact.  The test fails at once when [a] or [b] is [NaN], when [a]
    is [Infinity] and when [b] is [-Infinity]; it never fails when [b] is
    [Infinity] and [a] is not, nor when [a] is [-Infinity], which [j++] leaves
    as it is. *)
Definition for_range (a b : number) : outcome (list Z) :=
  match a, b with
  | Num a, Num b => Return (count_from a (Z.to_nat (b - a)))
  | Num _, PlusInfinity | MinusInfinity, Num _ | MinusInfinity, PlusInfinity =>
      Diverge
  | _, _ => Return []
  end.

(** The values [j] takes in [for (let j = a; j <= n; j++)], for the length
    [n] of an array. *)
Definition for_range_through (a : number) (n : nat) : outcome (list Z) :=
  match a with
  | Num a => Return (count_from a (Z.to_nat (Z.of_nat n + 1 - a)))
  | MinusInfinity => Diverge
  | _ => Return []
  end.

(** [right.push(left[j - 1])] for each [j], as the pushes. *)
Definition pushes (left : list string) (js : list Z) : list (option string) :=
  map (fun j => array_get left (j - 1)) js.

(** [for (let j = a; j < b; j++) right.push(left[j - 1])] *)
Definition copy_lines (left : list string) (a b : number)
  : outcome (list (option string)) :=
  js <- for_range a b ;;
  Return (pushes left js).

(** The body of the [while] loop over the hunks: [right] and
    [lastCommonLine] before and after. *)
Definition splice_hunk (left : list string)
    (acc : list (option string) * number) (diffHunk : DiffHunk.t)
  : outcome (list (option string) * number) :=
  let right := fst acc in
  let lastCommonLine := snd acc in
  let oriStartLine := DiffHunk.oldLineNumber diffHunk in
  copied <- copy_lines left (number_add lastCommonLine (Num 1)) oriStartLine ;;
  let right := (right ++ copied)%list in
  let lastCommonLine :=
    number_add (number_add oriStartLine (Num (DiffHunk.oldLength diffHunk))) (Num (-1)) in
  let right :=
    (right ++ map Some (flat_map kept_text (DiffHunk.diffLines diffHunk)))%list in
  Return (right, lastCommonLine).

(** Lines 204-228: the [while] loop over the hunks. *)
Fixpoint splice_hunks (left : list string) (diffHunks : list DiffHunk.t)
    (acc : list (option string) * number)
  : outcome (list (option string) * number) :=
  match diffHunks with
  | [] => Return acc
  | diffHunk :: diffHunks' =>
      acc' <- splice_hunk left acc diffHunk ;;
      splice_hunks left diffHunks' acc'
  end.

(** Lines 230-234. *)
Definition copy_tail (left : list string) (lastCommonLine : number)
  : outcome (list (option string)) :=
  if number_ltb lastCommonLine (Num (Z.of_nat (List.length left)))
  then
    js <- for_range_through (number_add lastCommonLine (Num 1)) (List.length left) ;;
    Return (pushes left js)
  else Return [].

(** [right] as it stands before [join]. *)
Definition modified_lines (left : list string) (diffHunks : list DiffHunk.t)
  : outcome (list (option string)) :=
  acc <- splice_hunks left diffHunks ([], Num 0) ;;
  let right := fst acc in
  let lastCommonLine := snd acc in
  tail <- copy_tail left lastCommonLine ;;
  Return (right ++ tail)%list.

(** [right.join(sep)]: an [undefined] element is joined as the empty string. *)
Definition element_string (e : option string) : string :=
  match e with
  | Some s => s
  | None => ""
  end.

Fixpoint join (sep : string) (a : list (option string)) : string :=
  match a with
  | [] => ""
  | [e] => element_string e
  | e :: a' => element_string e ++ sep ++ join sep a'
  end.

Definition getModifiedContentFromDiffHunk (originalContent patch : string)
  : outcome string :=
  let left := split_lines "" originalContent in
  diffHunks <- parseDiffHunk patch ;;
  right <- modified_lines left diffHunks ;;
  Return (join nl right).

(** ** getGitChangeType (lines 239-252) *)

(** Modelled from the spec: the enumeration [GitChangeType] of [./file],
    which is imported and not part of this file; the five members are the
    ones [getGitChangeType] returns. *)
Inductive GitChangeType := ADD | DELETE | RENAME | MODIFY | UNKNOWN.

Definition getGitChangeType (status : string) : GitChangeType :=
  if String.eqb status "removed" then DELETE
  else if String.eqb status "added" then ADD
  else if String.eqb status "renamed" then RENAME
  else if String.eqb status "modified" then MODIFY
  else UNKNOWN.

(** The patch of a small example, one line per element. *)
Definition example_patch_lines : list string :=
  ["@@ -1,3 +1,3 @@"; " a"; "-b"; "+B"; " c"].

(** The number of occurrences of a character in a string. *)
Fixpoint count_char (c : ascii) (s : string) : nat :=
  match s with
  | EmptyString => 0
  | String a s' => (if Ascii.eqb a c then 1 else 0) + count_char c s'
  end.

(** While a hunk is open the position counter has been started. *)
Definition position_started (st : locals) : Prop :=
  (-1 <= positionInHunk st)%Z /\
  (diffHunk st <> None -> (0 <= positionInHunk st)%Z).

(** The line a content line adds to the open hunk (lines 135-139). *)
Definition content_DiffLine (st : locals) (line : string) : DiffLine.t :=
  let type := getDiffChangeType line in
  DiffLine.mk type
    (match type with Add => Num (-1) | _ => oldLine st end)
    (match type with Delete => Num (-1) | _ => newLine st end)
    (positionInHunk st) line true.

(** The cursor [after] is the cursor [before] moved by [n]: the sum
    [before + n] as JavaScript computes it, which for an integer [z] is
    [z + n] itself as long as that is of magnitude at most 2^53. *)
Definition moved_by (n : Z) (before after : number) : Prop :=
  after = number_add before (Num n) /\
  forall z, before = Num z -> (Z.abs (z + n) <= 2 ^ 53)%Z -> after = Num (z + n).

(** The first character of the line is none of [' '], ['+'], ['-']; the
    empty line has no first character. *)
Definition no_content_prefix (line : string) : Prop :=
  forall c, charAt line 0 = Some c ->
            c <> " "%char /\ c <> "+"%char /\ c <> "-"%char.

(** What the reconstruction asks of a hunk for its reads of [left] to stay
    in range: the declared start is at least 1 and the declared end at most
    the number of lines. *)
Definition hunk_within (left : list string) (h : DiffHunk.t) : Prop :=
  exists start,
    DiffHunk.oldLineNumber h = Num start /\
    (1 <= start)%Z /\
    (start + DiffHunk.oldLength h - 1 <= Z.of_nat (List.length left))%Z.

(** ** The header pattern, read three ways *)

(** What lines 118-122 decode from a line: [None] when [exec] gives
    [null]. *)
Definition header_fields (line : string) : option (number * Z * number * Z) :=
  match DIFF_HUNK_HEADER_exec line with
  | None => None
  | Some matches =>
      Some (Number (capture matches 1), bitor0 (Number (capture matches 3)),
            Number (capture matches 5), bitor0 (Number (capture matches 7)))
  end.

(** The longest run of digits in front of a string, and what follows it. *)
Fixpoint span_digits (s : string) : string * string :=
  match s with
  | String c s' =>
      if is_digit c then let (d, r) := span_digits s' in (String c d, r)
      else ("", s)
  | EmptyString => ("", "")
  end.

Definition is_empty (s : string) : bool :=
  match s with
  | EmptyString => true
  | _ => false
  end.

(** *** The pattern of the code, without backtracking

    Captures 1, 3, 5 and 7 of a match that starts at the first character. *)
Definition groups : Type :=
  option string * option string * option string * option string.

(** [(,(\d+))?] *)
Definition opt_comma_digits (s : string) : option string * string :=
  match strip_prefix "," s with
  | Some t =>
      let (d, r) := span_digits t in
      if is_empty d then (None, s) else (Some d, r)
  | None => (None, s)
  end.

(** [( \+(\d+)(,(\d+)?)?)?] *)
Definition opt_new_side (s : string) : option string * option string * string :=
  match strip_prefix " +" s with
  | Some t =>
      let (d, r) := span_digits t in
      if is_empty d then (None, None, s)
      else
        match strip_prefix "," r with
        | Some u =>
            let (d', r') := span_digits u in
            (Some d, if is_empty d' then None else Some d', r')
        | None => (Some d, None, r)
        end
  | None => (None, None, s)
  end.

Definition header_at (s : string) : option groups :=
  match strip_prefix "@@ -" s with
  | None => None
  | Some s1 =>
      let (d1, s2) := span_digits s1 in
      if is_empty d1 then None
      else
        let (g3, s3) := opt_comma_digits s2 in
        let '(g5, g7, s4) := opt_new_side s3 in
        match strip_prefix " @@" s4 with
        | Some _ => Some (Some d1, g3, g5, g7)
        | None => None
        end
  end.

(** The leftmost place of the line where [header_at] matches. *)
Fixpoint find_header (line : string) : option groups :=
  match header_at line with
  | Some g => Some g
  | None =>
      match line with
      | EmptyString => None
      | String _ line' => find_header line'
      end
  end.

Definition decode_groups (g : groups) : number * Z * number * Z :=
  let '(g1, g3, g5, g7) := g in
  (Number g1, bitor0 (Number g3), Number g5, bitor0 (Number g7)).

(** *** The pattern as the specification words it (4.2)

    From the first character of the line: ["@@ -"], an integer, optionally a
    comma and an integer (0 when absent), [" +"], an integer, optionally a
    comma and an integer (0 when absent), [" @@"]; what follows is ignored. *)
Definition spec_integer (s : string) : option (Z * string) :=
  let (d, r) := span_digits s in
  if is_empty d then None else Some (decimal 0 d, r).

Definition spec_optional_length (s : string) : Z * string :=
  match strip_prefix "," s with
  | Some t =>
      match spec_integer t with
      | Some (v, r) => (v, r)
      | None => (0%Z, s)
      end
  | None => (0%Z, s)
  end.

Definition spec_header (line : string) : option (Z * Z * Z * Z) :=
  match strip_prefix "@@ -" line with
  | None => None
  | Some s1 =>
      match spec_integer s1 with
      | None => None
      | Some (originalStart, s2) =>
          let (originalLength, s3) := spec_optional_length s2 in
          match strip_prefix " +" s3 with
          | None => None
          | Some s4 =>
              match spec_integer s4 with
              | None => None
              | Some (newStart, s5) =>
                  let (newLength, s6) := spec_optional_length s5 in
                  match strip_prefix " @@" s6 with
                  | None => None
                  | Some _ =>
                      Some (originalStart, originalLength, newStart, newLength)
                  end
              end
          end
      end
  end.

(** *** The texts the pattern of the code matches

    The new side may be missing; when it is there, its comma may come with
    or without a length. *)
Inductive new_length_text :=
| NoComma
| CommaOnly
| CommaLength (d : string).

Inductive new_side_text :=
| NoNewSide
| NewSide (start : string) (len : new_length_text).

(** A non-empty run of decimal digits. *)
Definition is_integer (d : string) : Prop :=
  is_empty d = false /\ all_digits d = true.

Definition optional_integer (g : option string) : Prop :=
  match g with
  | Some d => is_integer d
  | None => True
  end.

Definition new_side_integers (ns : new_side_text) : Prop :=
  match ns with
  | NoNewSide => True
  | NewSide start len =>
      is_integer start /\
      match len with
      | CommaLength d => is_integer d
      | _ => True
      end
  end.

Definition old_length_text (g : option string) : string :=
  match g with
  | Some d => "," ++ d
  | None => ""
  end.

Definition new_side_string (ns : new_side_text) : string :=
  match ns with
  | NoNewSide => ""
  | NewSide start len =>
      " +" ++ start ++
      match len with
      | NoComma => ""
      | CommaOnly => ","
      | CommaLength d => "," ++ d
      end
  end.

Definition header_text (start : string) (len : option string) (ns : new_side_text)
  : string :=
  "@@ -" ++ start ++ old_length_text len ++ new_side_string ns ++ " @@".

Definition groups_of (start : string) (len : option string) (ns : new_side_text)
  : groups :=
  (Some start, len,
   match ns with NewSide d _ => Some d | NoNewSide => None end,
   match ns with NewSide _ (CommaLength d) => Some d | _ => None end).

(** A continuation that fails wherever a digit comes next. *)
Definition digit_blind (k : mstate -> option mstate) : Prop :=
  forall c rest cs, is_digit c = true -> k (MState (String c rest) cs) = None.

(** Captures 1, 3, 5 and 7 of a matcher state. *)
Definition odd_captures (y : mstate) : groups :=
  (capture (caps y) 1, capture (caps y) 3, capture (caps y) 5, capture (caps y) 7).

(** *** The pieces of the pattern, for the proofs *)

(** The continuation of the whole pattern, a match that began on [s0]:
    capture 0 is set and the match is reported. *)
Definition whole (s0 : string) : mstate -> option mstate :=
  fun y =>
    Some (MState (unread y)
            (set_nth 0 (Some (substr s0 0 (String.length s0 - String.length (unread y))))
               (caps y))).

Definition closing : regex := Chars " @@".
Definition new_length_group : regex := Group 6 (Chars "," >> Opt (Group 7 DigitPlus)).
Definition new_side_group : regex := Group 4 (Chars " +" >> Group 5 DigitPlus >> Opt new_length_group).
Definition from_new_side : regex := Opt new_side_group >> closing.
Definition old_length_group : regex := Group 2 (Chars "," >> Group 3 DigitPlus).
Definition from_old_length : regex := Opt old_length_group >> from_new_side.

(** Rewrites [span_digits (d ++ r)] into [(d, r)] with the lemma [run], for a
    run of digits [d] and an [r] seen not to start with a digit. *)
Ltac take_run_with run :=
  match goal with
  | D : all_digits ?d = true |- context [span_digits (?d ++ ?r)] =>
      rewrite (run d r D eq_refl)
  end.

(** Closes a goal [digit_blind k] by running [k] on a string that starts with
    a digit; [sep] says that a digit is neither a comma nor a space. *)
Ltac blind_with sep :=
  let c := fresh "c" in
  let H := fresh "H" in
  intros c ? ? H; destruct (sep c H) as [? ?];
  cbn -[Ascii.eqb];
  repeat match goal with
         | E : Ascii.eqb _ c = false |- _ => rewrite E
         end;
  reflexivity.

(** ** The position counter along a patch *)

(** All the lines of a list of hunks, in order. *)
Definition all_diffLines (hunks : list DiffHunk.t) : list DiffLine.t :=
  flat_map DiffHunk.diffLines hunks.

(** What the builder stamps on a line and never changes afterwards. *)
Definition stamp (l : DiffLine.t) : DiffChangeType * Z * string :=
  (DiffLine.type l, DiffLine.positionInHunk l, DiffLine.raw l).

(** The position of a line is the index, in [seen], of the scanned line it
    was made from. *)
Definition stamped_from (seen : list string) (l : DiffLine.t) : Prop :=
  (0 <= DiffLine.positionInHunk l)%Z /\
  nth_error seen (Z.to_nat (DiffLine.positionInHunk l)) = Some (DiffLine.raw l).

(** The first line of a hunk is its header, at the hunk's start position. *)
Definition starts_with_header (h : DiffHunk.t) : Prop :=
  exists l ls,
    DiffHunk.diffLines h = l :: ls /\
    DiffLine.type l = Control /\
    DiffLine.positionInHunk l = DiffHunk.positionInHunk h /\
    DIFF_HUNK_HEADER_test (DiffLine.raw l) = true.

(** A line of a hunk's body: not a header, and a space, a plus or a minus in
    front. *)
Definition is_content_line (line : string) : Prop :=
  DIFF_HUNK_HEADER_test line = false /\ getDiffChangeType line <> Control.

(** The state of the loop after the lines [seen], the first of which is the
    first header of the patch. *)
Definition position_invariant (seen : list string) (st : locals) : Prop :=
  positionInHunk st = Z.of_nat (List.length seen) /\
  diffHunk st <> None /\
  Forall (stamped_from seen) (all_diffLines (parseDiffHunk_finish st)) /\
  StronglySorted Z.lt
    (map DiffLine.positionInHunk (all_diffLines (parseDiffHunk_finish st))) /\
  Forall starts_with_header (parseDiffHunk_finish st) /\
  (exists h hs, parseDiffHunk_finish st = h :: hs /\ DiffHunk.positionInHunk h = 0%Z).

(** The same, while the first hunk is still the only one and every line
    since its header was a content line. *)
Definition single_hunk_invariant (seen : list string) (st : locals) : Prop :=
  positionInHunk st = Z.of_nat (List.length seen) /\
  yielded st = [] /\
  exists h,
    diffHunk st = Some h /\
    map DiffLine.positionInHunk (DiffHunk.diffLines h)
    = map Z.of_nat (seq 0 (List.length seen)).

(** ** Lines, split and joined *)

(** Every line followed by a line feed. *)
Fixpoint unlines (ls : list string) : string :=
  match ls with
  | [] => ""
  | l :: ls' => l ++ nl ++ unlines ls'
  end.

(** The text is empty or its last character is a line feed. *)
Definition ends_line (text : string) : bool :=
  is_empty text || ends_with_char LF text.

(** Every CR LF replaced by LF. *)
Fixpoint normalize_newlines (s : string) : string :=
  match s with
  | EmptyString => ""
  | String c s' =>
      match s' with
      | String c' s'' =>
          if Ascii.eqb c CR && Ascii.eqb c' LF then String LF (normalize_newlines s'')
          else String c (normalize_newlines s')
      | EmptyString => String c ""
      end
  end.

(** ** What the lines of a patch become *)

(** The lines from the first header line on. *)
Fixpoint drop_until_header (lines : list string) : list string :=
  match lines with
  | [] => []
  | line :: lines' =>
      if DIFF_HUNK_HEADER_test line then line :: lines'
      else drop_until_header lines'
  end.

(** With a hunk open, the line gets a [DiffLine]: it is a header, or it
    starts with a space, a plus or a minus. *)
Definition makes_DiffLine (line : string) : bool :=
  DIFF_HUNK_HEADER_test line
  || negb (DiffChangeType_eqb (getDiffChangeType line) Control).

(** The type its [DiffLine] gets. *)
Definition line_kind (line : string) : DiffChangeType :=
  if DIFF_HUNK_HEADER_test line then Control else getDiffChangeType line.

Definition kind_and_raw (l : DiffLine.t) : DiffChangeType * string :=
  (DiffLine.type l, DiffLine.raw l).

(** The four numbers of a hunk, and the hunk whose numbers are those decoded
    from its own first line. *)
Definition hunk_fields (h : DiffHunk.t) : number * Z * number * Z :=
  (DiffHunk.oldLineNumber h, DiffHunk.oldLength h,
   DiffHunk.newLineNumber h, DiffHunk.newLength h).

Definition decoded_from_header (h : DiffHunk.t) : Prop :=
  exists l ls,
    DiffHunk.diffLines h = l :: ls /\
    header_fields (DiffLine.raw l) = Some (hunk_fields h).

(** A number that is [Infinity] or an integer from [k] up. *)
Definition at_least (k : Z) (x : number) : Prop :=
  x = PlusInfinity \/ exists z, x = Num z /\ (k <= z)%Z.

(** A line number read from a header: never negative. *)
Definition natural_number (x : number) : Prop := at_least 0 x.

Definition int32 (z : Z) : Prop := (- 2 ^ 31 <= z < 2 ^ 31)%Z.

Definition fields_invariant (st : locals) : Prop :=
  position_started st /\ Forall decoded_from_header (parseDiffHunk_finish st).

(** ** The line numbers along a hunk *)

(** [1 + countCarriageReturns(line)], as a number. *)
Definition lineCount (raw : string) : number :=
  Num (Z.of_nat (1 + count_char CR raw)).

(** The cursors (original side, new side) after a line of a given type. *)
Definition advance (type : DiffChangeType) (c : number) (cursors : number * number)
  : number * number :=
  match type with
  | Context => (number_add (fst cursors) c, number_add (snd cursors) c)
  | Delete => (number_add (fst cursors) c, snd cursors)
  | Add => (fst cursors, number_add (snd cursors) c)
  | Control => cursors
  end.

(** The line numbers a body line carries when the cursors stand at
    [cursors]: the cursor of each side the line is on, -1 for the other. *)
Definition numbers_at (cursors : number * number) (l : DiffLine.t) : Prop :=
  match DiffLine.type l with
  | Context => DiffLine.oldLineNumber l = fst cursors /\
               DiffLine.newLineNumber l = snd cursors
  | Add => DiffLine.oldLineNumber l = Num (-1) /\
           DiffLine.newLineNumber l = snd cursors
  | Delete => DiffLine.oldLineNumber l = fst cursors /\
              DiffLine.newLineNumber l = Num (-1)
  | Control => False
  end.

Fixpoint numbered (cursors : number * number) (ls : list DiffLine.t) : Prop :=
  match ls with
  | [] => True
  | l :: ls' =>
      numbers_at cursors l /\
      numbered (advance (DiffLine.type l) (lineCount (DiffLine.raw l)) cursors) ls'
  end.

Fixpoint cursors_after (cursors : number * number) (ls : list DiffLine.t)
  : number * number :=
  match ls with
  | [] => cursors
  | l :: ls' =>
      cursors_after (advance (DiffLine.type l) (lineCount (DiffLine.raw l)) cursors) ls'
  end.

(** A hunk is its header line, without line numbers, and a body numbered
    from the two starts of the hunk. *)
Definition numbered_hunk (h : DiffHunk.t) : Prop :=
  exists hd body,
    DiffHunk.diffLines h = hd :: body /\
    DiffLine.type hd = Control /\
    DiffLine.oldLineNumber hd = Num (-1) /\
    DiffLine.newLineNumber hd = Num (-1) /\
    numbered (DiffHunk.oldLineNumber h, DiffHunk.newLineNumber h) body.

Definition numbering (l : DiffLine.t) : DiffChangeType * number * number * string :=
  (DiffLine.type l, DiffLine.oldLineNumber l, DiffLine.newLineNumber l, DiffLine.raw l).

Definition numbering_invariant (st : locals) : Prop :=
  Forall numbered_hunk (parseDiffHunk_finish st) /\
  forall h,
    diffHunk st = Some h ->
    exists hd body,
      DiffHunk.diffLines h = hd :: body /\
      cursors_after (DiffHunk.oldLineNumber h, DiffHunk.newLineNumber h) body
      = (oldLine st, newLine st).

(** ** Hunks in their place *)

(** The lines a hunk puts into the new content. *)
Definition new_side (h : DiffHunk.t) : list string :=
  flat_map kept_text (DiffHunk.diffLines h).

(** A hunk with the lines of the original content in front of it that no
    hunk covers, and the lines it covers. *)
Definition segment : Type := list string * list string * DiffHunk.t.

Definition segment_hunk (s : segment) : DiffHunk.t := snd s.

(** With [covered] lines before them, the hunks start right after their
    uncovered lines and declare as many lines as they cover. *)
Fixpoint placed (covered : Z) (segs : list segment) : Prop :=
  match segs with
  | [] => True
  | (pre, mid, h) :: segs' =>
      DiffHunk.oldLineNumber h = Num (covered + Z.of_nat (List.length pre) + 1) /\
      DiffHunk.oldLength h = Z.of_nat (List.length mid) /\
      placed (covered + Z.of_nat (List.length pre) + Z.of_nat (List.length mid)) segs'
  end.

Fixpoint original_lines (segs : list segment) (post : list string) : list string :=
  match segs with
  | [] => post
  | (pre, mid, _) :: segs' => (pre ++ mid ++ original_lines segs' post)%list
  end.

Fixpoint spliced_lines (segs : list segment) (post : list string) : list string :=
  match segs with
  | [] => post
  | (pre, _, h) :: segs' => (pre ++ new_side h ++ spliced_lines segs' post)%list
  end.

(** The texts a hunk body puts into the new content: its context and added
    lines without their first character. *)
Definition new_texts (body : list string) : list string :=
  map (fun l => substr_from l 1)
      (filter (fun l => negb (DiffChangeType_eqb (getDiffChangeType l) Delete)) body).

(** ** parseDiff (lines 254-275) *)

(** How an [async] function ends: its promise is fulfilled, is rejected
    with the reason a promise it awaited was rejected with, is rejected with
    an error the function itself threw, or never settles. *)
Inductive promise (E A : Type) : Type :=
| Fulfilled (a : A)
| Rejected (reason : E)
| Failed (e : error)
| Pending.

Arguments Fulfilled {E A} a.
Arguments Rejected {E A} reason.
Arguments Failed {E A} e.
Arguments Pending {E A}.

(** [await], and a synchronous call inside an [async] function. *)
Definition await {E A B : Type} (m : promise E A) (k : A -> promise E B)
  : promise E B :=
  match m with
  | Fulfilled a => k a
  | Rejected r => Rejected r
  | Failed e => Failed e
  | Pending => Pending
  end.

Definition call {E A : Type} (m : outcome A) : promise E A :=
  match m with
  | Return a => Fulfilled a
  | Throw e => Failed e
  | Diverge => Pending
  end.

(** An element of [reviews], with the properties [parseDiff] reads;
    [patch] is [None] when the property is missing. *)
Module Review.
Record t := mk {
  patch : option string;
  status : string;
  blob_url : string;
  filename : string
}.
End Review.

(** Modelled from the spec: the classes [SlimFileChange] and
    [InMemFileChange] of [./file], which are imported and not part of this
    file; a tagged variant with the arguments the two [new] expressions of
    [parseDiff] pass, in their order. *)
Inductive FileChange :=
| SlimFileChange (blobUrl : string) (status : GitChangeType) (fileName : string)
| InMemFileChange (parentCommit : string) (status : GitChangeType)
    (fileName : string) (patch : string) (diffHunks : list DiffHunk.t)
    (isPartial : bool) (blobUrl : string).

Definition GitChangeType_eqb (a b : GitChangeType) : bool :=
  match a, b with
  | ADD, ADD | DELETE, DELETE | RENAME, RENAME | MODIFY, MODIFY
  | UNKNOWN, UNKNOWN => true
  | _, _ => false
  end.

(** The patch of a review when [!review.patch] is false: a string that is
    not empty. *)
Definition truthy_patch (review : Review.t) : option string :=
  match Review.patch review with
  | Some EmptyString => None
  | Some p => Some p
  | None => None
  end.

(** The [for] loop, from the review [reviews[i]] on; [checkFileExistence] is
    the method of the repository, taken as a parameter. *)
Fixpoint parseDiff_loop {E : Type}
    (checkFileExistence : string -> string -> promise E bool)
    (parentCommit : string) (reviews : list Review.t)
    (fileChanges : list FileChange) : promise E (list FileChange) :=
  match reviews with
  | [] => Fulfilled fileChanges
  | review :: reviews' =>
      match truthy_patch review with
      | None =>
          let gitChangeType := getGitChangeType (Review.status review) in
          parseDiff_loop checkFileExistence parentCommit reviews'
            (fileChanges
               ++ [SlimFileChange (Review.blob_url review) gitChangeType
                     (Review.filename review)])%list
      | Some patch =>
          let gitChangeType := getGitChangeType (Review.status review) in
          await (checkFileExistence parentCommit (Review.filename review))
            (fun originalFileExist =>
          await (call (parsePatch patch)) (fun diffHunks =>
          let isPartial :=
            negb originalFileExist && negb (GitChangeType_eqb gitChangeType ADD) in
          parseDiff_loop checkFileExistence parentCommit reviews'
            (fileChanges
               ++ [InMemFileChange parentCommit gitChangeType (Review.filename review)
                     patch diffHunks isPartial (Review.blob_url review)])%list))
      end
  end.

Definition parseDiff {E : Type}
    (reviews : list Review.t)
    (checkFileExistence : string -> string -> promise E bool)
    (parentCommit : string) : promise E (list FileChange) :=
  parseDiff_loop checkFileExistence parentCommit reviews [].

(** What a file change says of the review it was made from, for the
    repository [checkFileExistence] and the commit [parentCommit]. *)
Definition change_of_review {E : Type}
    (checkFileExistence : string -> string -> promise E bool)
    (parentCommit : string) (review : Review.t) (change : FileChange) : Prop :=
  match change with
  | SlimFileChange blobUrl status fileName =>
      truthy_patch review = None /\
      blobUrl = Review.blob_url review /\
      status = getGitChangeType (Review.status review) /\
      fileName = Review.filename review
  | InMemFileChange commit status fileName patch diffHunks isPartial blobUrl =>
      Review.patch review = Some patch /\ patch <> "" /\
      commit = parentCommit /\
      blobUrl = Review.blob_url review /\
      status = getGitChangeType (Review.status review) /\
      fileName = Review.filename review /\
      parseDiffHunk patch = Return diffHunks /\
      (isPartial = true <->
       checkFileExistence parentCommit fileName = Fulfilled false /\
       Review.status review <> "added")
  end.

(** ** parserCommentDiffHunk (lines 277-293) *)

(** An element of [comments]: its [diff_hunk], its [diff_hunks], [None]
    while the property is not set, and whatever else it holds, which the
    function does not touch. *)
Module Comment.
Record t (A : Type) := mk {
  others : A;
  diff_hunk : string;
  diff_hunks : option (list DiffHunk.t)
}.
Arguments mk {A} others diff_hunk diff_hunks.
Arguments others {A} _.
Arguments diff_hunk {A} _.
Arguments diff_hunks {A} _.
End Comment.

(** The array is updated in place and returned; this is the array after the
    call. *)
Fixpoint parserCommentDiffHunk {A : Type} (comments : list (Comment.t A))
  : outcome (list (Comment.t A)) :=
  match comments with
  | [] => Return []
  | comment :: comments' =>
      diffHunks <- parseDiffHunk (Comment.diff_hunk comment) ;;
      rest <- parserCommentDiffHunk comments' ;;
      Return (Comment.mk (Comment.others comment) (Comment.diff_hunk comment)
                (Some diffHunks) :: rest)
  end.

(** What a comment is after the call. *)
Definition comment_parsed {A : Type} (before after : Comment.t A) : Prop :=
  Comment.others after = Comment.others before /\
  Comment.diff_hunk after = Comment.diff_hunk before /\
  exists hunks,
    Comment.diff_hunks after = Some hunks /\
    parseDiffHunk (Comment.diff_hunk before) = Return hunks /\
    match hunks with
    | h :: _ => DiffHunk.positionInHunk h = 0%Z
    | [] => True
    end.

(** The first hunk, when there is one, starts at position 0; with no hunk
    yet the counter is off. *)
Definition first_hunk_invariant (st : locals) : Prop :=
  match parseDiffHunk_finish st with
  | h :: _ => DiffHunk.positionInHunk h = 0%Z
  | [] => positionInHunk st = (-1)%Z
  end.

(** ** The flag endwithLineBreak along a patch *)

(** A line that is not a header and starts with none of space, plus and
    minus: the marker of a missing final newline, or an empty line. *)
Definition is_marker (line : string) : bool :=
  negb (DIFF_HUNK_HEADER_test line)
  && DiffChangeType_eqb (getDiffChangeType line) Control.

(** The scanned line after the one at position [p] is there and is a
    marker. *)
Definition next_is_marker (seen : list string) (p : Z) : bool :=
  match nth_error seen (S (Z.to_nat p)) with
  | Some line => is_marker line
  | None => false
  end.

Definition flag_follows (seen : list string) (l : DiffLine.t) : Prop :=
  DiffLine.endwithLineBreak l
  = negb (next_is_marker seen (DiffLine.positionInHunk l)).

(** Every line seen after position [p] is a marker. *)
Definition markers_after (seen : list string) (p : Z) : Prop :=
  forall k, Z.to_nat p < k < List.length seen ->
            exists line, nth_error seen k = Some line /\ is_marker line = true.

Definition flag_invariant (seen : list string) (st : locals) : Prop :=
  position_invariant seen st /\
  Forall (flag_follows seen) (all_diffLines (parseDiffHunk_finish st)) /\
  forall h front l,
    diffHunk st = Some h ->
    DiffHunk.diffLines h = (front ++ [l])%list ->
    markers_after seen (DiffLine.positionInHunk l).

(** * Properties *)

(** ** Strings *)

Section StringFacts.

Lemma length_app (a b : string) :
  String.length (a ++ b) = String.length a + String.length b.
Proof. induction a as [|c a IH]; simpl; [reflexivity | now rewrite IH]. Qed.

Lemma app_empty_r (a : string) : a ++ "" = a.
Proof. induction a as [|c a IH]; simpl; [reflexivity | now rewrite IH]. Qed.

Lemma app_assoc_s (a b c : string) : (a ++ b) ++ c = a ++ (b ++ c).
Proof. induction a as [|x a IH]; simpl; [reflexivity | now rewrite IH]. Qed.

Lemma indexOf_shift (c : ascii) (pre s : string) (i : nat) :
  indexOf c (pre ++ s) (String.length pre + i)
  = option_map (Nat.add (String.length pre)) (indexOf c s i).
Proof.
  induction pre as [|a pre IH]; simpl.
  - destruct (indexOf c s i); reflexivity.
  - rewrite IH. destruct (indexOf c s i); reflexivity.
Qed.

Lemma substring_shift (pre s : string) (i n : nat) :
  substring (String.length pre + i) n (pre ++ s) = substring i n s.
Proof. induction pre as [|a pre IH]; simpl; auto. Qed.

Lemma get_shift (pre s : string) (i : nat) :
  String.get (String.length pre + i) (pre ++ s) = String.get i s.
Proof. induction pre as [|a pre IH]; simpl; auto. Qed.

Lemma substring_shift0 (pre s : string) (n : nat) :
  substring (String.length pre) n (pre ++ s) = substring 0 n s.
Proof. rewrite <- (substring_shift pre s 0 n). now rewrite Nat.add_0_r. Qed.

Lemma indexOf_shift0 (c : ascii) (pre s : string) :
  indexOf c (pre ++ s) (String.length pre)
  = option_map (Nat.add (String.length pre)) (indexOf c s 0).
Proof. rewrite <- (indexOf_shift c pre s 0). now rewrite Nat.add_0_r. Qed.

Lemma get_prefix (pre s : string) (i : nat) :
  i < String.length pre -> String.get i (pre ++ s) = String.get i pre.
Proof.
  revert i. induction pre as [|a pre IH]; simpl; intros i H; [lia|].
  destruct i; [reflexivity|]. apply IH. lia.
Qed.

Lemma substring_0_prefix (l r : string) (n : nat) :
  n <= String.length l -> substring 0 n (l ++ r) = substring 0 n l.
Proof.
  revert n. induction l as [|a l IH]; simpl; intros n H.
  - assert (n = 0) by lia. subst. destruct r; reflexivity.
  - destruct n; [reflexivity|]. f_equal. apply IH. lia.
Qed.

Lemma substring_0_app (l r : string) :
  substring 0 (String.length l) (l ++ r) = l.
Proof.
  induction l as [|a l IH]; simpl.
  - destruct r; reflexivity.
  - now rewrite IH.
Qed.

Lemma substring_0_all (s : string) : substring 0 (String.length s) s = s.
Proof.
  rewrite <- (app_empty_r s) at 2. apply substring_0_app.
Qed.

(** What [indexOf] finds from the start of a string. *)
Lemma indexOf_None (c : ascii) (s : string) :
  indexOf c s 0 = None -> has_char c s = false.
Proof.
  induction s as [|a s IH]; simpl; [reflexivity|].
  destruct (Ascii.eqb a c); [discriminate|].
  destruct (indexOf c s 0); [discriminate|]. auto.
Qed.

Lemma indexOf_Some (c : ascii) (s : string) (i : nat) :
  indexOf c s 0 = Some i ->
  exists l rest, s = l ++ String c rest /\ String.length l = i /\ has_char c l = false.
Proof.
  revert i. induction s as [|a s IH]; simpl; intros i H; [discriminate|].
  destruct (Ascii.eqb a c) eqn:E.
  - injection H as <-. apply Ascii.eqb_eq in E. subst a.
    exists "", s. auto.
  - destruct (indexOf c s 0) as [j|]; [|discriminate].
    injection H as <-. destruct (IH j eq_refl) as (l & rest & -> & <- & Hl).
    exists (String a l), rest. simpl. rewrite E. auto.
Qed.

(** The last character of a non-empty string. *)
Lemma get_last (l : string) (c : ascii) :
  l <> "" ->
  is_char (String.get (String.length l - 1) l) c = ends_with_char c l.
Proof.
  induction l as [|a l IH]; [congruence|]. intros _.
  destruct l as [|b l]; [reflexivity|].
  assert (H : String b l <> "") by discriminate.
  specialize (IH H).
  replace (String.length (String a (String b l)) - 1)
    with (S (String.length (String b l) - 1)) by (simpl; lia).
  exact IH.
Qed.

Lemma strip_last_substring (l : string) :
  substring 0 (String.length l - 1) l = strip_last l.
Proof.
  induction l as [|a l IH]; [reflexivity|].
  destruct l as [|b l]; [reflexivity|].
  simpl in *. rewrite Nat.sub_0_r in IH. now rewrite IH.
Qed.

Lemma ends_with_app_char (l : string) (c d : ascii) :
  ends_with_char d (l ++ String c "") = Ascii.eqb c d.
Proof.
  induction l as [|a l IH]; [reflexivity|].
  simpl. destruct (l ++ String c "") eqn:E; [destruct l; discriminate|]. exact IH.
Qed.

End StringFacts.

(** ** Numbers *)

Section Numbers.

Lemma nearest_double_small (z : Z) :
  (Z.abs z <= 2 ^ 53)%Z -> nearest_double z = Num z.
Proof.
  intros H. unfold nearest_double.
  now replace (Z.abs z <=? 2 ^ 53)%Z with true by (symmetry; apply Z.leb_le; exact H).
Qed.

(** Rounding does not take an integer below a small one it is not below. *)
Lemma nearest_double_at_least (k z : Z) :
  (k <= 2 ^ 53)%Z -> (0 <= z)%Z -> (k <= z)%Z -> at_least k (nearest_double z).
Proof.
  intros Hk H0 Hz. unfold nearest_double.
  destruct (Z.abs z <=? 2 ^ 53)%Z eqn:Es; [right; eauto|].
  apply Z.leb_gt in Es. rewrite Z.abs_eq in * by exact H0.
  cbv zeta.
  replace (z <? 0)%Z with false by (symmetry; apply Z.ltb_ge; lia).
  match goal with |- at_least _ (if ?c then _ else _) => destruct c end;
    [now left | right].
  eexists. split; [reflexivity|].
  assert (Hpos : (0 < z)%Z) by lia.
  assert (Hlog : (53 <= Z.log2 z)%Z).
  { apply Z.log2_le_pow2; [exact Hpos | lia]. }
  destruct (Z.log2_spec z Hpos) as [Hlo _].
  set (e := (Z.log2 z - 52)%Z) in *.
  assert (He : (0 < e)%Z) by (unfold e; lia).
  assert (Hpe : (0 < 2 ^ e)%Z) by (apply Z.pow_pos_nonneg; lia).
  assert (Hq : (2 ^ 52 <= z / 2 ^ e)%Z).
  { apply Z.div_le_lower_bound; [exact Hpe|].
    rewrite Z.mul_comm, <- Z.pow_add_r by lia.
    replace (52 + e)%Z with (Z.log2 z) by (unfold e; lia). exact Hlo. }
  assert (Hpe2 : (2 <= 2 ^ e)%Z).
  { change 2%Z with (2 ^ 1)%Z at 1. apply Z.pow_le_mono_r; lia. }
  replace (Z.sgn z) with 1%Z by (symmetry; apply Z.sgn_pos; exact Hpos).
  rewrite Z.mul_1_l.
  assert (Hv : forall q, (z / 2 ^ e <= q)%Z -> (k <= q * 2 ^ e)%Z).
  { intros q Hq'. transitivity (2 ^ 52 * 2)%Z; [lia|].
    apply Z.mul_le_mono_nonneg; lia. }
  repeat match goal with |- context [if ?c then _ else _] => destruct c end;
    apply Hv; lia.
Qed.

Lemma number_add_small (x y : Z) :
  (Z.abs (x + y) <= 2 ^ 53)%Z -> number_add (Num x) (Num y) = Num (x + y).
Proof. intros H. cbn [number_add]. now apply nearest_double_small. Qed.

Lemma number_add_at_least (k x y : Z) :
  (k <= 2 ^ 53)%Z -> (0 <= x + y)%Z -> (k <= x + y)%Z ->
  at_least k (number_add (Num x) (Num y)).
Proof. intros. cbn [number_add]. now apply nearest_double_at_least. Qed.

Lemma decimal_nonneg (d : string) :
  forall acc, (0 <= acc)%Z -> all_digits d = true -> (0 <= decimal acc d)%Z.
Proof.
  induction d as [|c d IH]; intros acc Hacc Hd; [exact Hacc|].
  cbn [all_digits] in Hd. apply andb_prop in Hd. destruct Hd as [Hc Hd].
  cbn [decimal]. apply IH; [|exact Hd].
  unfold is_digit in Hc. apply andb_prop in Hc. destruct Hc as [Hc _].
  apply Nat.leb_le in Hc. unfold digit_value. lia.
Qed.

End Numbers.

(** [nearest_double] is the rounding of the Standard Library on every
    sample. *)
Example nearest_double_binary64 :
  forallb (fun z => number_eqb (nearest_double z) (binary64_of_Z z)) rounding_samples
  = true.
Proof. vm_compute. reflexivity. Qed.

(** The doubles next to 2^53 and to the largest double, as [Number] and
    [| 0] read them: 2^53 + 1 is a tie and goes down to the even 2^53, 2^53 + 3
    goes up, a number of 310 digits is [Infinity], and what [| 0] makes of a
    number is taken after the rounding. *)
Example Number_rounds :
  Number (Some "9007199254740992") = Num 9007199254740992 /\
  Number (Some "9007199254740993") = Num 9007199254740992 /\
  Number (Some "9007199254740995") = Num 9007199254740996 /\
  Number (Some "18014398509481987") = Num 18014398509481988 /\
  bitor0 (Number (Some "9007199254740993")) = 0%Z /\
  bitor0 (Number (Some "4294967295")) = (-1)%Z /\
  nearest_double (2 ^ 1024 - 2 ^ 970 - 1) = Num ((2 ^ 53 - 1) * 2 ^ 971) /\
  nearest_double (2 ^ 1024 - 2 ^ 970) = PlusInfinity /\
  nearest_double (- 10 ^ 309) = MinusInfinity /\
  Number (Some (String.concat "" (repeat "9" 310))) = PlusInfinity /\
  number_add (Num 9007199254740992) (Num 1) = Num 9007199254740992 /\
  number_add (Num 9007199254740992) (Num 2) = Num 9007199254740994.
Proof. vm_compute. repeat split. Qed.

(** ** The line scanner *)

Section Scanner.

Lemma scan_lines_no_LF (s cur : string) :
  has_char LF s = false ->
  scan_lines cur s = match cur ++ s with EmptyString => [] | _ => [cur ++ s] end.
Proof.
  revert cur. induction s as [|c s IH]; simpl; intros cur H.
  - rewrite app_empty_r. reflexivity.
  - destruct (Ascii.eqb c LF); simpl in H; [discriminate|].
    rewrite IH by assumption. rewrite app_assoc_s. reflexivity.
Qed.

Lemma scan_lines_LF (l rest cur : string) :
  has_char LF l = false ->
  scan_lines cur (l ++ String LF rest) = strip_cr (cur ++ l) :: scan_lines "" rest.
Proof.
  revert cur. induction l as [|c l IH]; simpl; intros cur H.
  - rewrite app_empty_r. reflexivity.
  - destruct (Ascii.eqb c LF); simpl in H; [discriminate|].
    rewrite IH by assumption. rewrite app_assoc_s. reflexivity.
Qed.

(** The loop at the start of a line, [pre] being read already. *)
Lemma LineReader_loop_scan (n : nat) :
  forall (s pre : string) (fuel : nat),
    String.length s <= n ->
    String.length s <= fuel ->
    LineReader_loop fuel (pre ++ s) (String.length pre) = Return (scan_lines "" s).
Proof.
  induction n as [|n IH]; intros s pre fuel Hn Hf.
  - destruct s; [|simpl in Hn; lia].
    destruct fuel; simpl; rewrite app_empty_r, Nat.ltb_irrefl; reflexivity.
  - destruct s as [|c0 s0] eqn:Es.
    { destruct fuel; simpl; rewrite app_empty_r, Nat.ltb_irrefl; reflexivity. }
    rewrite <- Es in *.
    assert (Hlen : 0 < String.length s) by (subst s; simpl; lia).
    destruct fuel as [|fuel]; [lia|].
    cbn [LineReader_loop].
    rewrite length_app.
    replace (String.length pre <? String.length pre + String.length s) with true
      by (symmetry; apply Nat.ltb_lt; lia).
    rewrite indexOf_shift0.
    destruct (indexOf LF s 0) as [i|] eqn:Ei; cbn [option_map].
    + destruct (indexOf_Some _ _ Ei) as (l & rest & Hs & Hl & HnoLF).
      assert (Hrec : LineReader_loop fuel (pre ++ s) (S (String.length pre + i))
                     = Return (scan_lines "" rest)).
      { rewrite Hs.
        replace (pre ++ l ++ String LF rest) with ((pre ++ l ++ nl) ++ rest)
          by (unfold nl; rewrite !app_assoc_s; reflexivity).
        replace (S (String.length pre + i)) with (String.length (pre ++ l ++ nl))
          by (rewrite !length_app; unfold nl; simpl; lia).
        apply IH.
        - rewrite Hs, length_app in Hn. simpl in Hn. lia.
        - rewrite Hs, length_app in Hf. simpl in Hf. lia. }
      rewrite Hrec. cbn [bind].
      rewrite Hs at 3. rewrite scan_lines_LF by assumption. cbn [append].
      f_equal. f_equal.
      unfold substr, charAt.
      replace (String.length pre + i - String.length pre) with i by lia.
      rewrite substring_shift0.
      destruct i as [|i].
      * destruct l; [|discriminate].
        assert (H0 : forall b : bool, substring 0 (if b then 0 - 1 else 0) s = strip_cr "").
        { intros []; destruct s; reflexivity. }
        apply H0.
      * replace (0 <? String.length pre + S i) with true
          by (symmetry; apply Nat.ltb_lt; lia).
        cbn [andb].
        replace (String.length pre + S i - 1) with (String.length pre + i) by lia.
        rewrite get_shift.
        assert (Hne : l <> "") by (destruct l; discriminate).
        assert (Hg : String.get i s = String.get (String.length l - 1) l).
        { rewrite Hs. replace i with (String.length l - 1) at 1 by lia.
          apply get_prefix. lia. }
        rewrite Hg, (get_last CR Hne). unfold strip_cr.
        destruct (ends_with_char CR l).
        -- replace (S i - 1) with (String.length l - 1) by lia.
           rewrite Hs, <- strip_last_substring.
           apply substring_0_prefix. lia.
        -- rewrite Hs, <- Hl. apply substring_0_app.
    + apply indexOf_None in Ei.
      rewrite scan_lines_no_LF by assumption. cbn [append].
      unfold substr.
      replace (String.length pre + String.length s - String.length pre)
        with (String.length s) by lia.
      rewrite substring_shift0, substring_0_all.
      destruct s; [simpl in Hlen; lia | reflexivity].
Qed.

(** The scanner returns, with the lines [scan_lines] describes. *)
Lemma LineReader_scan (text : string) :
  LineReader text = Return (scan_lines "" text).
Proof.
  unfold LineReader.
  apply LineReader_loop_scan with (n := String.length text) (pre := ""); auto.
Qed.

End Scanner.

Section ScannerEquations.

Lemma has_char_app (c : ascii) (a b : string) :
  has_char c (a ++ b) = has_char c a || has_char c b.
Proof.
  induction a as [|x a IH]; simpl; [reflexivity|].
  rewrite IH. apply orb_assoc.
Qed.

Lemma strip_last_app_char (l : string) (c : ascii) :
  strip_last (l ++ String c "") = l.
Proof.
  induction l as [|a l IH]; [reflexivity|].
  simpl. destruct (l ++ String c "") eqn:E; [destruct l; discriminate|].
  now rewrite IH.
Qed.

Lemma scan_lines_line_LF (l rest : string) :
  has_char LF l = false -> ends_with_char CR l = false ->
  scan_lines "" (l ++ nl ++ rest) = l :: scan_lines "" rest.
Proof.
  intros Hl Hcr. unfold nl. cbn [append].
  rewrite scan_lines_LF by assumption. cbn [append].
  unfold strip_cr. now rewrite Hcr.
Qed.

Lemma scan_lines_line_CRLF (l rest : string) :
  has_char LF l = false ->
  scan_lines "" (l ++ crlf ++ rest) = l :: scan_lines "" rest.
Proof.
  intros Hl. unfold crlf. cbn [append].
  change (l ++ String CR (String LF rest)) with (l ++ String CR "" ++ String LF rest).
  rewrite <- app_assoc_s.
  rewrite scan_lines_LF by (rewrite has_char_app, Hl; reflexivity).
  cbn [append]. unfold strip_cr.
  rewrite ends_with_app_char, Ascii.eqb_refl, strip_last_app_char. reflexivity.
Qed.

End ScannerEquations.

(** C9.  The line scanner returns for every text, with the lines the
    specification describes: the empty text has no line; a non-empty text
    without a line feed is one line; a line ended by LF (not preceded by CR)
    or by CR LF is yielded without its terminator, and the scan goes on with
    what follows it, so that a terminator at the very end of the text gives no
    further empty line. *)
Theorem LineReader_lines :
  (forall text, LineReader text = Return (scan_lines "" text)) /\
  LineReader "" = Return [] /\
  (forall l, has_char LF l = false -> l <> "" -> LineReader l = Return [l]) /\
  (forall l rest, has_char LF l = false -> ends_with_char CR l = false ->
     exists lines, LineReader rest = Return lines /\
                   LineReader (l ++ nl ++ rest) = Return (l :: lines)) /\
  (forall l rest, has_char LF l = false ->
     exists lines, LineReader rest = Return lines /\
                   LineReader (l ++ crlf ++ rest) = Return (l :: lines)) /\
  (forall l, has_char LF l = false -> ends_with_char CR l = false ->
     LineReader (l ++ nl) = Return [l]) /\
  (forall l, has_char LF l = false -> LineReader (l ++ crlf) = Return [l]).
Proof.
  repeat split.
  - apply LineReader_scan.
  - intros l Hl Hne. rewrite LineReader_scan, scan_lines_no_LF by assumption.
    cbn [append]. destruct l; [congruence | reflexivity].
  - intros l rest Hl Hcr. exists (scan_lines "" rest).
    rewrite !LineReader_scan, scan_lines_line_LF by assumption. auto.
  - intros l rest Hl. exists (scan_lines "" rest).
    rewrite !LineReader_scan, scan_lines_line_CRLF by assumption. auto.
  - intros l Hl Hcr. rewrite LineReader_scan.
    rewrite <- (app_empty_r nl), scan_lines_line_LF by assumption. reflexivity.
  - intros l Hl. rewrite LineReader_scan.
    rewrite <- (app_empty_r crlf), scan_lines_line_CRLF by assumption. reflexivity.
Qed.

Lemma LineReader_lines_witness :
  (has_char LF "a" = false /\ "a" <> "" /\ ends_with_char CR "a" = false) /\
  LineReader "a" = Return ["a"] /\
  LineReader ("a" ++ nl) = Return ["a"] /\
  LineReader ("a" ++ crlf) = Return ["a"] /\
  (exists lines, LineReader "b" = Return lines /\
                 LineReader ("a" ++ nl ++ "b") = Return ("a" :: lines)) /\
  (exists lines, LineReader "b" = Return lines /\
                 LineReader ("a" ++ crlf ++ "b") = Return ("a" :: lines)).
Proof.
  destruct LineReader_lines as (_ & _ & H1 & H2 & H3 & H4 & H5).
  split; [repeat split; discriminate|].
  split; [apply H1; [reflexivity | discriminate]|].
  split; [apply H4; reflexivity|].
  split; [apply H5; reflexivity|].
  split; [apply H2; reflexivity | apply H3; reflexivity].
Defined.

(** ** countCarriageReturns *)

Section CarriageReturns.

Lemma count_char_none (c : ascii) (s : string) :
  has_char c s = false -> count_char c s = 0.
Proof.
  induction s as [|a s IH]; simpl; [reflexivity|].
  destruct (Ascii.eqb a c); simpl; [discriminate | auto].
Qed.

Lemma count_char_app (c : ascii) (a b : string) :
  count_char c (a ++ b) = count_char c a + count_char c b.
Proof.
  induction a as [|x a IH]; simpl; [reflexivity|]. rewrite IH. lia.
Qed.

Lemma countCarriageReturns_loop_count (n : nat) :
  forall (s pre : string) (fuel count : nat),
    String.length s <= n ->
    String.length s <= fuel ->
    countCarriageReturns_loop fuel (pre ++ s) (String.length pre) count
    = Return (count + count_char CR s).
Proof.
  induction n as [|n IH]; intros s pre fuel count Hn Hf.
  - destruct s; [|simpl in Hn; lia].
    destruct fuel; simpl; rewrite indexOf_shift0; simpl; f_equal; lia.
  - destruct fuel as [|fuel].
    + destruct s; [|simpl in Hf; lia].
      simpl. rewrite indexOf_shift0. simpl. f_equal; lia.
    + cbn [countCarriageReturns_loop]. rewrite indexOf_shift0.
      destruct (indexOf CR s 0) as [i|] eqn:Ei; cbn [option_map].
      * destruct (indexOf_Some _ _ Ei) as (l & rest & Hs & Hl & Hno).
        rewrite Hs.
        replace (pre ++ l ++ String CR rest) with ((pre ++ l ++ String CR "") ++ rest)
          by (rewrite !app_assoc_s; reflexivity).
        replace (S (String.length pre + i))
          with (String.length (pre ++ l ++ String CR "")) 
          by (rewrite !length_app; simpl; lia).
        rewrite IH.
        -- rewrite count_char_app, (count_char_none _ _ Hno). simpl.
           f_equal. lia.
        -- rewrite Hs, length_app in Hn. simpl in Hn. lia.
        -- rewrite Hs, length_app in Hf. simpl in Hf. lia.
      * apply indexOf_None in Ei. rewrite (count_char_none _ _ Ei). f_equal. lia.
Qed.

(** [countCarriageReturns] returns, with the number of carriage returns. *)
Lemma countCarriageReturns_count (text : string) :
  countCarriageReturns text = Return (count_char CR text).
Proof.
  unfold countCarriageReturns.
  now rewrite (countCarriageReturns_loop_count (n := String.length text) text "" 0).
Qed.

End CarriageReturns.

(** ** The hunk builder, one line at a time *)

Section Builder.

Lemma test_exec (line : string) :
  DIFF_HUNK_HEADER_test line = true ->
  exists matches, DIFF_HUNK_HEADER_exec line = Some matches.
Proof.
  unfold DIFF_HUNK_HEADER_test.
  destruct (DIFF_HUNK_HEADER_exec line) as [m|]; [eauto | discriminate].
Qed.

Lemma nth_error_last_length {A : Type} (ls : list A) :
  0 < List.length ls -> exists l, nth_error ls (List.length ls - 1) = Some l.
Proof.
  intros H. destruct (nth_error ls (List.length ls - 1)) eqn:E; [eauto|].
  apply nth_error_None in E. lia.
Qed.

Lemma set_nth_length {A : Type} (n : nat) (a : A) (l : list A) :
  List.length (set_nth n a l) = List.length l.
Proof.
  revert n. induction l as [|b l IH]; intros [|n]; simpl; auto.
Qed.

Lemma snoc_cases {A : Type} (l : list A) :
  l = [] \/ exists front x, l = (front ++ [x])%list.
Proof.
  destruct l as [|a l]; [now left | right].
  destruct (exists_last (l := a :: l)) as (front & x & ->); [discriminate | eauto].
Qed.

Lemma set_nth_middle {A : Type} (front back : list A) (l a : A) :
  set_nth (List.length front) a (front ++ l :: back)%list
  = (front ++ a :: back)%list.
Proof.
  induction front as [|b front IH]; simpl; [reflexivity | now rewrite IH].
Qed.

Lemma set_nth_last {A : Type} (front : list A) (l a : A) :
  set_nth (List.length (front ++ [l])%list - 1) a (front ++ [l])%list
  = (front ++ [a])%list.
Proof.
  replace (List.length (front ++ [l])%list - 1) with (List.length front)
    by (rewrite List.length_app; simpl; lia).
  apply set_nth_middle.
Qed.

Lemma clear_last_snoc (front : list DiffLine.t) (l : DiffLine.t) :
  clear_last_endwithLineBreak (front ++ [l])%list
  = Return (front ++ [DiffLine.set_endwithLineBreak false l])%list.
Proof.
  unfold clear_last_endwithLineBreak.
  assert (H : nth_error (front ++ [l])%list (List.length (front ++ [l])%list - 1) = Some l).
  { rewrite List.length_app. simpl.
    replace (List.length front + 1 - 1) with (List.length front) by lia.
    rewrite nth_error_app2 by lia. now rewrite Nat.sub_diag. }
  rewrite H, set_nth_last. reflexivity.
Qed.

Lemma clear_last_returns (ls : list DiffLine.t) :
  0 < List.length ls ->
  exists ls', clear_last_endwithLineBreak ls = Return ls' /\
              List.length ls' = List.length ls.
Proof.
  intros H. unfold clear_last_endwithLineBreak.
  destruct (nth_error_last_length ls H) as (l & ->).
  eexists. split; [reflexivity|]. apply set_nth_length.
Qed.

(** A turn of the loop never throws and never diverges. *)
Lemma parseDiffHunk_step_returns (st : locals) (line : string) :
  exists st', parseDiffHunk_step st line = Return st'.
Proof.
  unfold parseDiffHunk_step.
  destruct (DIFF_HUNK_HEADER_test line) eqn:Et.
  - destruct (test_exec _ Et) as (m & Hm). unfold header_branch. rewrite Hm.
    cbn [bind]. eauto.
  - destruct (diffHunk st) as [hunk|]; [|cbn [bind]; eauto].
    unfold content_branch.
    destruct (DiffChangeType_eqb (getDiffChangeType line) Control).
    + destruct (0 <? List.length (DiffHunk.diffLines hunk)) eqn:El.
      * apply Nat.ltb_lt in El.
        destruct (clear_last_returns _ El) as (ls' & -> & _). cbn [bind]. eauto.
      * cbn [bind]. eauto.
    + rewrite countCarriageReturns_count. cbn [bind].
      destruct (getDiffChangeType line); cbn [bind]; eauto.
Qed.

Lemma parseDiffHunk_loop_returns (lines : list string) :
  forall st, exists st', parseDiffHunk_loop st lines = Return st'.
Proof.
  induction lines as [|line lines IH]; intros st; simpl; [eauto|].
  destruct (parseDiffHunk_step_returns st line) as (st1 & ->). cbn [bind]. apply IH.
Qed.

Lemma parseDiffHunk_loop_app (a b : list string) :
  forall st,
    parseDiffHunk_loop st (a ++ b)%list
    = st' <- parseDiffHunk_loop st a ;; parseDiffHunk_loop st' b.
Proof.
  induction a as [|line a IH]; intros st; simpl; [reflexivity|].
  destruct (parseDiffHunk_step st line); cbn [bind]; auto.
Qed.

(** A property kept by every turn holds when the loop ends. *)
Lemma parseDiffHunk_loop_invariant (P : locals -> Prop) :
  (forall st line st', P st -> parseDiffHunk_step st line = Return st' -> P st') ->
  forall lines st st',
    P st -> parseDiffHunk_loop st lines = Return st' -> P st'.
Proof.
  intros Hstep lines. induction lines as [|line lines IH]; intros st st' HP H; simpl in H.
  - now injection H as <-.
  - destruct (parseDiffHunk_step st line) as [st1| |] eqn:E; cbn [bind] in H;
      try discriminate.
    eapply IH; [|exact H]. eapply Hstep; eauto.
Qed.

Lemma header_step (st : locals) (line : string) :
  DIFF_HUNK_HEADER_test line = true ->
  exists matches,
    DIFF_HUNK_HEADER_exec line = Some matches /\
    parseDiffHunk_step st line =
    let position := if (positionInHunk st =? -1)%Z then 0%Z else positionInHunk st in
    Return (Locals
      (Some (DiffHunk.mk (Number (capture matches 1))
               (bitor0 (Number (capture matches 3)))
               (Number (capture matches 5))
               (bitor0 (Number (capture matches 7)))
               position
               [DiffLine.mk Control (Num (-1)) (Num (-1)) position line true]))
      (position + 1)
      (Number (capture matches 1)) (Number (capture matches 5))
      (parseDiffHunk_finish st)).
Proof.
  intros Et. destruct (test_exec _ Et) as (m & Hm). exists m. split; [exact Hm|].
  unfold parseDiffHunk_step, header_branch. rewrite Et, Hm. cbn [bind].
  unfold bump_position, parseDiffHunk_finish. cbn [positionInHunk].
  destruct (positionInHunk st =? -1)%Z eqn:E; [reflexivity|].
  apply Z.eqb_neq in E.
  destruct (positionInHunk st =? -1)%Z eqn:E'; [apply Z.eqb_eq in E'; lia|].
  reflexivity.
Qed.

Lemma position_started_step (st : locals) (line : string) (st' : locals) :
  position_started st -> parseDiffHunk_step st line = Return st' ->
  position_started st'.
Proof.
  intros (Hge & Hopen) H.
  destruct (DIFF_HUNK_HEADER_test line) eqn:Et.
  - destruct (header_step st _ Et) as (m & _ & Hs). rewrite Hs in H.
    cbv zeta in H. injection H as <-. unfold position_started. cbn.
    destruct (positionInHunk st =? -1)%Z eqn:E; [lia|].
    apply Z.eqb_neq in E. lia.
  - unfold parseDiffHunk_step in H. rewrite Et in H.
    destruct (diffHunk st) as [hunk|] eqn:Eh.
    + assert (H0 : (0 <= positionInHunk st)%Z) by (apply Hopen; discriminate).
      unfold content_branch in H.
      destruct (DiffChangeType_eqb (getDiffChangeType line) Control).
      * destruct (0 <? List.length (DiffHunk.diffLines hunk)).
        -- destruct (clear_last_endwithLineBreak (DiffHunk.diffLines hunk));
             cbn [bind] in H; try discriminate.
           injection H as <-. unfold position_started, bump_position. cbn.
           destruct (positionInHunk st =? -1)%Z; cbn; lia.
        -- cbn [bind] in H. injection H as <-.
           unfold position_started, bump_position.
           destruct (positionInHunk st =? -1)%Z; cbn; lia.
      * rewrite countCarriageReturns_count in H. cbn [bind] in H.
        destruct (getDiffChangeType line); cbn [bind] in H; injection H as <-;
          unfold position_started, bump_position; cbn;
          destruct (positionInHunk st =? -1)%Z; cbn; lia.
    + cbn [bind] in H. injection H as <-.
      unfold position_started, bump_position.
      destruct (positionInHunk st =? -1)%Z eqn:E; cbn.
      * rewrite Eh. split; [lia | congruence].
      * apply Z.eqb_neq in E. lia.
Qed.

Lemma position_started_loop (lines : list string) (st : locals) :
  parseDiffHunk_loop locals_init lines = Return st -> position_started st.
Proof.
  apply (parseDiffHunk_loop_invariant position_started position_started_step).
  split; cbn; [lia | congruence].
Qed.

Lemma no_content_prefix_Control (line : string) :
  no_content_prefix line -> getDiffChangeType line = Control.
Proof.
  unfold no_content_prefix, getDiffChangeType. intros H.
  destruct (charAt line 0) as [c|]; [|reflexivity].
  destruct (H c eq_refl) as (H1 & H2 & H3).
  destruct c as [[] [] [] [] [] [] [] []]; try reflexivity; congruence.
Qed.

Lemma Control_no_content_prefix (line : string) :
  getDiffChangeType line = Control -> no_content_prefix line.
Proof.
  unfold no_content_prefix, getDiffChangeType. intros H c Hc. rewrite Hc in H.
  repeat split; intros ->; discriminate.
Qed.

End Builder.

(** C6.  In a state the loop reaches with a hunk open, a line that is not a
    header and does not start with a space, a plus or a minus adds no line to
    the hunk: the lines keep their number, the last one (when there is one)
    has its [endwithLineBreak] cleared and nothing else changes, and the
    position counter goes up by one. *)
Theorem control_line_step
    (seen : list string) (st : locals) (hunk : DiffHunk.t) (line : string) :
  parseDiffHunk_loop locals_init seen = Return st ->
  diffHunk st = Some hunk ->
  DIFF_HUNK_HEADER_test line = false ->
  no_content_prefix line ->
  exists ls',
    parseDiffHunk_step st line
    = Return (Locals (Some (DiffHunk.set_diffLines ls' hunk))
                     (positionInHunk st + 1) (oldLine st) (newLine st) (yielded st)) /\
    List.length ls' = List.length (DiffHunk.diffLines hunk) /\
    (forall front l, DiffHunk.diffLines hunk = (front ++ [l])%list ->
       ls' = (front ++ [DiffLine.set_endwithLineBreak false l])%list).
Proof.
  intros Hreach Hh Et Hc.
  apply no_content_prefix_Control in Hc.
  destruct (position_started_loop _ Hreach) as (_ & Hpos).
  assert (H0 : (0 <= positionInHunk st)%Z) by (apply Hpos; congruence).
  assert (Hb : forall h, bump_position (Locals h (positionInHunk st) (oldLine st)
                                           (newLine st) (yielded st))
               = Locals h (positionInHunk st + 1) (oldLine st) (newLine st) (yielded st)).
  { intros h. unfold bump_position. cbn.
    destruct (positionInHunk st =? -1)%Z eqn:E; [apply Z.eqb_eq in E; lia | reflexivity]. }
  unfold parseDiffHunk_step. rewrite Et, Hh. unfold content_branch. rewrite Hc.
  cbn [DiffChangeType_eqb].
  destruct (snoc_cases (DiffHunk.diffLines hunk)) as [El | (l & x & El)]; rewrite El.
  - exists []. cbn. split; [|split; [reflexivity|]].
    + destruct st as [h p o n y]. cbn in *. subst h. rewrite (Hb _).
      destruct hunk; cbn in *. subst. reflexivity.
    + intros front l H. destruct front; discriminate.
  - exists (l ++ [DiffLine.set_endwithLineBreak false x])%list.
    replace (0 <? List.length (l ++ [x])%list) with true
      by (symmetry; apply Nat.ltb_lt; rewrite List.length_app; simpl; lia).
    rewrite clear_last_snoc. cbn [bind]. rewrite Hb.
    split; [reflexivity|]. split.
    + rewrite !List.length_app. reflexivity.
    + intros front l1 H. apply app_inj_tail in H. destruct H as [-> ->]. reflexivity.
Qed.

Lemma control_line_step_witness :
  exists st hunk ls',
    parseDiffHunk_loop locals_init ["@@ -1 +1 @@"; "+a"] = Return st /\
    diffHunk st = Some hunk /\
    parseDiffHunk_step st "\ No newline at end of file"
    = Return (Locals (Some (DiffHunk.set_diffLines ls' hunk))
                     (positionInHunk st + 1) (oldLine st) (newLine st) (yielded st)) /\
    List.length ls' = List.length (DiffHunk.diffLines hunk) /\
    positionInHunk st = 2%Z /\
    map DiffLine.endwithLineBreak (DiffHunk.diffLines hunk) = [true; true] /\
    map DiffLine.endwithLineBreak ls' = [true; false].
Proof.
  eexists. eexists.
  assert (Hloop : parseDiffHunk_loop locals_init ["@@ -1 +1 @@"; "+a"] = Return _)
    by (vm_compute; reflexivity).
  destruct (control_line_step (line := "\ No newline at end of file") _ Hloop eq_refl)
    as (ls' & Hstep & Hlen & Hlast).
  - vm_compute. reflexivity.
  - intros c H. vm_compute in H. injection H as <-. repeat split; discriminate.
  - exists ls'. split; [exact Hloop|]. split; [reflexivity|].
    split; [exact Hstep|]. split; [exact Hlen|]. split; [reflexivity|].
    split; [reflexivity|].
    rewrite (Hlast [_] _ eq_refl). reflexivity.
Defined.

Lemma moved_by_add (n : Z) (before : number) :
  moved_by n before (number_add before (Num n)).
Proof.
  split; [reflexivity|]. intros z -> H. now apply number_add_small.
Qed.

(** C7, as it holds.  With a hunk open, a line that is not a header and
    starts with a space, a plus or a minus adds exactly one line to the hunk:
    a context, an added or a deleted line by that first character, stamped
    with the cursors of its sides (-1 for the other side) and the position of
    that moment.  The cursors of its sides are then moved by
    [n = 1 + (the number of carriage returns in the line)], both for a
    context line, the new side alone for an added line, the original side
    alone for a deleted line; the move is the addition of JavaScript, which
    is the exact one as long as the cursor stays an integer of magnitude at
    most 2^53.  With one carriage return in the line, [n] is 2. *)
Theorem content_line_step
    (st : locals) (hunk : DiffHunk.t) (c : ascii) (rest : string) :
  let line := String c rest in
  let n := Z.of_nat (1 + count_char CR line) in
  diffHunk st = Some hunk ->
  DIFF_HUNK_HEADER_test line = false ->
  c = " "%char \/ c = "+"%char \/ c = "-"%char ->
  exists st' l,
    parseDiffHunk_step st line = Return st' /\
    diffHunk st'
    = Some (DiffHunk.set_diffLines (DiffHunk.diffLines hunk ++ [l])%list hunk) /\
    yielded st' = yielded st /\
    DiffLine.raw l = line /\
    DiffLine.positionInHunk l = positionInHunk st /\
    DiffLine.endwithLineBreak l = true /\
    (count_char CR line = 1 -> n = 2%Z) /\
    (c = " "%char ->
     DiffLine.type l = Context /\
     DiffLine.oldLineNumber l = oldLine st /\
     DiffLine.newLineNumber l = newLine st /\
     moved_by n (oldLine st) (oldLine st') /\
     moved_by n (newLine st) (newLine st')) /\
    (c = "+"%char ->
     DiffLine.type l = Add /\
     DiffLine.oldLineNumber l = Num (-1) /\
     DiffLine.newLineNumber l = newLine st /\
     oldLine st' = oldLine st /\
     moved_by n (newLine st) (newLine st')) /\
    (c = "-"%char ->
     DiffLine.type l = Delete /\
     DiffLine.oldLineNumber l = oldLine st /\
     DiffLine.newLineNumber l = Num (-1) /\
     moved_by n (oldLine st) (oldLine st') /\
     newLine st' = newLine st).
Proof.
  intros line n Hh Et Hc.
  assert (Hb : forall x, diffHunk (bump_position x) = diffHunk x /\
                         yielded (bump_position x) = yielded x /\
                         oldLine (bump_position x) = oldLine x /\
                         newLine (bump_position x) = newLine x).
  { intros x. unfold bump_position.
    destruct (negb (positionInHunk x =? -1)%Z); repeat split. }
  unfold parseDiffHunk_step. rewrite Et, Hh. unfold content_branch.
  rewrite countCarriageReturns_count. fold n.
  destruct Hc as [-> | [-> | ->]];
    change (getDiffChangeType line) with Context
    || change (getDiffChangeType line) with Add
    || change (getDiffChangeType line) with Delete;
    cbn [DiffChangeType_eqb negb bind];
    match goal with |- context [bump_position ?x] =>
      destruct (Hb x) as (Hb1 & Hb2 & Hb3 & Hb4) end;
    eexists _, _; (split; [reflexivity|]);
    rewrite Hb1, Hb2, Hb3, Hb4; cbn [oldLine newLine yielded diffHunk];
    (split; [reflexivity|]); (split; [reflexivity|]);
    (split; [reflexivity|]); (split; [reflexivity|]); (split; [reflexivity|]);
    (split; [unfold n; intros ->; reflexivity|]);
    (split; [|split]); intros Hc; try discriminate Hc;
    repeat match goal with
           | |- moved_by _ _ _ => apply moved_by_add
           | |- _ /\ _ => split
           | |- _ = _ => reflexivity
           end.
Qed.

(** A context line with a carriage return, an added and a deleted line,
    after a header that starts the original side at 5 and the new side at
    7. *)
Lemma content_line_step_witness :
  exists st0 st1 st2 st3 l1 l2 l3,
    parseDiffHunk_loop locals_init ["@@ -5,3 +7,4 @@"] = Return st0 /\
    parseDiffHunk_step st0 (String " " (String "a" (String CR "b"))) = Return st1 /\
    parseDiffHunk_step st1 "+x" = Return st2 /\
    parseDiffHunk_step st2 "-y" = Return st3 /\
    option_map DiffHunk.diffLines (diffHunk st3)
    = option_map (fun h => DiffHunk.diffLines h ++ [l1; l2; l3])%list (diffHunk st0) /\
    map DiffLine.type [l1; l2; l3] = [Context; Add; Delete] /\
    map DiffLine.oldLineNumber [l1; l2; l3] = [Num 5; Num (-1); Num 7] /\
    map DiffLine.newLineNumber [l1; l2; l3] = [Num 7; Num 9; Num (-1)] /\
    (oldLine st3, newLine st3) = (Num 8, Num 10).
Proof.
  assert (H0 : exists st0, parseDiffHunk_loop locals_init ["@@ -5,3 +7,4 @@"] = Return st0
                           /\ exists h, diffHunk st0 = Some h /\
                              oldLine st0 = Num 5 /\ newLine st0 = Num 7)
    by (eexists; split; [vm_compute; reflexivity | eexists; repeat split]).
  destruct H0 as (st0 & Hst0 & h0 & Hh0 & Ho0 & Hn0).
  destruct (@content_line_step st0 h0 " " (String "a" (String CR "b")) Hh0)
    as (st1 & l1 & Hs1 & Hh1 & _ & _ & _ & _ & _ & Hc1 & _ & _);
    [vm_compute; reflexivity | now left|].
  destruct (Hc1 eq_refl) as (Ht1 & Hlo1 & Hln1 & (_ & Ho1) & (_ & Hn1)).
  specialize (Ho1 5%Z Ho0). specialize (Hn1 7%Z Hn0).
  cbn in Ho1, Hn1. specialize (Ho1 ltac:(lia)). specialize (Hn1 ltac:(lia)).
  destruct (@content_line_step st1 _ "+" "x" Hh1)
    as (st2 & l2 & Hs2 & Hh2 & _ & _ & _ & _ & _ & _ & Hc2 & _);
    [vm_compute; reflexivity | now right; left|].
  destruct (Hc2 eq_refl) as (Ht2 & Hlo2 & Hln2 & Ho2 & (_ & Hn2)).
  specialize (Hn2 9%Z Hn1). cbn in Hn2. specialize (Hn2 ltac:(lia)).
  destruct (@content_line_step st2 _ "-" "y" Hh2)
    as (st3 & l3 & Hs3 & Hh3 & _ & _ & _ & _ & _ & _ & _ & Hc3);
    [vm_compute; reflexivity | now right; right|].
  destruct (Hc3 eq_refl) as (Ht3 & Hlo3 & Hln3 & (_ & Ho3) & Hn3).
  rewrite Ho2 in Ho3. specialize (Ho3 7%Z Ho1). cbn in Ho3. specialize (Ho3 ltac:(lia)).
  exists st0, st1, st2, st3, l1, l2, l3.
  split; [exact Hst0|]. split; [exact Hs1|]. split; [exact Hs2|]. split; [exact Hs3|].
  split; [rewrite Hh3, Hh0; cbn; now rewrite <- !app_assoc|].
  cbn [map]. rewrite Ht1, Ht2, Ht3, Hlo1, Hlo2, Hlo3, Hln1, Hln2, Hln3.
  rewrite Ho0, Hn0, Ho2, Ho1, Hn1, Ho3, Hn3, Hn2. repeat split.
Defined.

(** C7, as stated, fails: the cursors are numbers of JavaScript, and a
    cursor at 2^53 is left where it is by the addition of 1.  After a header
    that starts the original side at 2^53, two deleted lines carry the same
    line number. *)
Lemma content_line_step_counterexample :
  exists st st',
    parseDiffHunk_loop locals_init ["@@ -9007199254740992 +1 @@"] = Return st /\
    oldLine st = Num 9007199254740992 /\
    count_char CR "-a" = 0 /\
    parseDiffHunk_step st "-a" = Return st' /\
    oldLine st' = Num 9007199254740992 /\
    oldLine st' <> Num (9007199254740992 + 1) /\
    option_map (map (fun h => map DiffLine.oldLineNumber (DiffHunk.diffLines h)))
      (match parseDiffHunk ("@@ -9007199254740992 +1 @@" ++ nl ++ "-a" ++ nl ++ "-b") with
       | Return hunks => Some hunks
       | _ => None
       end)
    = Some [[Num (-1); Num 9007199254740992; Num 9007199254740992]].
Proof.
  eexists. eexists. split; [vm_compute; reflexivity|].
  split; [reflexivity|]. split; [reflexivity|].
  split; [vm_compute; reflexivity|].
  split; [reflexivity|]. split; [discriminate|]. vm_compute. reflexivity.
Qed.

(** ** The parse as a whole *)

Section Parse.

(** Before the first header the loop leaves its locals as they are. *)
Lemma idle_step (line : string) :
  DIFF_HUNK_HEADER_test line = false ->
  parseDiffHunk_step locals_init line = Return locals_init.
Proof.
  intros Et. unfold parseDiffHunk_step. rewrite Et. reflexivity.
Qed.

Lemma idle_loop (pre : list string) :
  Forall (fun l => DIFF_HUNK_HEADER_test l = false) pre ->
  parseDiffHunk_loop locals_init pre = Return locals_init.
Proof.
  induction 1 as [|line pre Hl _ IH]; simpl; [reflexivity|].
  now rewrite (idle_step _ Hl).
Qed.

Lemma parseDiffHunk_lines (patch : string) :
  parseDiffHunk patch
  = st <- parseDiffHunk_loop locals_init (scan_lines "" patch) ;;
    Return (parseDiffHunk_finish st).
Proof. unfold parseDiffHunk. now rewrite LineReader_scan. Qed.

(** A patch without a header line has no hunk. *)
Lemma no_header_no_hunk (patch : string) (lines : list string) :
  LineReader patch = Return lines ->
  Forall (fun l => DIFF_HUNK_HEADER_test l = false) lines ->
  parseDiffHunk patch = Return [].
Proof.
  intros H Hl. unfold parseDiffHunk. rewrite H. cbn [bind].
  now rewrite (idle_loop Hl).
Qed.

End Parse.

(** C8.  [parseDiffHunk] and [parsePatch] return a list of hunks for every
    patch; they neither throw nor run for ever.  The lines in front of the
    first header are ignored, and a patch without a header line, the empty
    patch among them, gives no hunk. *)
Theorem parseDiffHunk_never_fails :
  (forall patch, exists hunks,
      parseDiffHunk patch = Return hunks /\ parsePatch patch = Return hunks) /\
  (forall patch patch' pre post,
      LineReader patch = Return (pre ++ post)%list ->
      LineReader patch' = Return post ->
      Forall (fun l => DIFF_HUNK_HEADER_test l = false) pre ->
      parseDiffHunk patch = parseDiffHunk patch') /\
  (forall patch lines,
      LineReader patch = Return lines ->
      Forall (fun l => DIFF_HUNK_HEADER_test l = false) lines ->
      parseDiffHunk patch = Return []) /\
  parseDiffHunk "" = Return [].
Proof.
  repeat split.
  - intros patch. unfold parsePatch. rewrite parseDiffHunk_lines.
    destruct (parseDiffHunk_loop_returns (scan_lines "" patch) locals_init) as (st & ->).
    cbn [bind]. eauto.
  - intros patch patch' pre post H H' Hpre. unfold parseDiffHunk.
    rewrite H, H'. cbn [bind].
    rewrite parseDiffHunk_loop_app, (idle_loop Hpre). reflexivity.
  - intros patch lines H Hl. exact (@no_header_no_hunk _ _ H Hl).
Qed.

Lemma parseDiffHunk_never_fails_witness :
  let body := "@@ -1 +1 @@" ++ nl ++ "+a" in
  parseDiffHunk ("diff --git a/f b/f" ++ nl ++ "@@ -x +y @@" ++ nl ++ body)
  = parseDiffHunk body /\
  parseDiffHunk ("diff --git a/f b/f" ++ nl ++ "@@ -x +y @@") = Return [].
Proof.
  destruct parseDiffHunk_never_fails as (_ & Hpre & Hnone & _).
  split.
  - apply (Hpre _ _ ["diff --git a/f b/f"; "@@ -x +y @@"] ["@@ -1 +1 @@"; "+a"]).
    + vm_compute. reflexivity.
    + vm_compute. reflexivity.
    + repeat constructor.
  - apply (Hnone _ ["diff --git a/f b/f"; "@@ -x +y @@"]).
    + vm_compute. reflexivity.
    + repeat constructor.
Defined.

(** ** The reconstruction *)

Section Reconstruction.

Lemma array_get_None {A : Type} (a : list A) (i : Z) :
  array_get a i = None <-> (i < 0 \/ Z.of_nat (List.length a) <= i)%Z.
Proof.
  unfold array_get. destruct (0 <=? i)%Z eqn:E.
  - apply Z.leb_le in E. rewrite nth_error_None. lia.
  - apply Z.leb_gt in E. split; [lia | reflexivity].
Qed.

Lemma in_count_from (a : Z) (n : nat) (j : Z) :
  In j (count_from a n) <-> (a <= j < a + Z.of_nat n)%Z.
Proof.
  unfold count_from. rewrite in_map_iff. split.
  - intros (i & <- & Hi). apply in_seq in Hi. lia.
  - intros H. exists (Z.to_nat (j - a)). split; [lia|]. apply in_seq. lia.
Qed.

(** Line numbers between 1 and the number of lines are read inside
    [left]. *)
Lemma pushes_in_range (left : list string) (js : list Z) :
  Forall (fun j => 1 <= j <= Z.of_nat (List.length left))%Z js ->
  Forall (fun e => e <> None) (pushes left js).
Proof.
  intros H. unfold pushes. apply Forall_map.
  apply (Forall_impl _ (P := fun j => 1 <= j <= Z.of_nat (List.length left))%Z);
    [|exact H].
  intros j Hj. rewrite array_get_None. lia.
Qed.

(** A copy loop from 1 or more up to a line of [left], or the one after the
    last, ends and reads inside [left]. *)
Lemma copy_lines_in_range (left : list string) (a : number) (b : Z) :
  at_least 1 a -> (b <= Z.of_nat (List.length left) + 1)%Z ->
  exists copied,
    copy_lines left a (Num b) = Return copied /\
    Forall (fun e => e <> None) copied.
Proof.
  intros [-> | (z & -> & Hz)] Hb; unfold copy_lines; cbn [for_range bind].
  - exists []. split; [reflexivity | constructor].
  - eexists. split; [reflexivity|]. apply pushes_in_range.
    apply Forall_forall. intros j Hj. apply in_count_from in Hj. lia.
Qed.

Lemma copy_tail_in_range (left : list string) (lastCommonLine : number) :
  at_least 0 lastCommonLine ->
  exists copied,
    copy_tail left lastCommonLine = Return copied /\
    Forall (fun e => e <> None) copied.
Proof.
  intros [-> | (z & -> & Hz)]; unfold copy_tail; cbn [number_ltb].
  - exists []. split; [reflexivity | constructor].
  - destruct (z <? Z.of_nat (List.length left))%Z;
      [|exists []; split; [reflexivity | constructor]].
    destruct (@number_add_at_least 1 z 1) as [-> | (v & -> & Hv)]; try lia;
      cbn [for_range_through bind].
    + exists []. split; [reflexivity | constructor].
    + eexists. split; [reflexivity|]. apply pushes_in_range.
      apply Forall_forall. intros j Hj. apply in_count_from in Hj. lia.
Qed.

Lemma seq_nth_error {A : Type} (l : list A) :
  map (nth_error l) (seq 0 (List.length l)) = map Some l.
Proof.
  induction l as [|a l IH]; [reflexivity|].
  cbn [List.length seq map nth_error]. f_equal.
  rewrite <- seq_shift, map_map. exact IH.
Qed.

(** The lines of [left] from the one after [done] on. *)
Lemma pushes_rest (done rest : list string) :
  pushes (done ++ rest)
    (count_from (Z.of_nat (List.length done) + 1) (List.length rest))
  = map Some rest.
Proof.
  unfold pushes, count_from. rewrite map_map, <- seq_nth_error.
  apply map_ext_in. intros i Hi. apply in_seq in Hi. unfold array_get.
  replace (0 <=? Z.of_nat (List.length done) + 1 + Z.of_nat i - 1)%Z with true
    by (symmetry; apply Z.leb_le; lia).
  replace (Z.to_nat (Z.of_nat (List.length done) + 1 + Z.of_nat i - 1))
    with (List.length done + i) by lia.
  rewrite nth_error_app2 by lia. f_equal. lia.
Qed.

(** With nothing covered the tail copy is the whole of [left]. *)
Lemma copy_tail_all (left : list string) :
  copy_tail left (Num 0) = Return (map Some left).
Proof.
  unfold copy_tail. cbn [number_ltb].
  change (number_add (Num 0) (Num 1)) with (Num 1).
  destruct (0 <? Z.of_nat (List.length left))%Z eqn:E.
  - cbn [for_range_through bind].
    replace (Z.to_nat (Z.of_nat (List.length left) + 1 - 1)) with (List.length left)
      by lia.
    f_equal. exact (pushes_rest [] left).
  - apply Z.ltb_ge in E. destruct left; [reflexivity | simpl in E; lia].
Qed.

Lemma splice_hunks_in_range (left : list string) (hunks : list DiffHunk.t) :
  Forall (fun h => hunk_within left h /\ (0 <= DiffHunk.oldLength h)%Z) hunks ->
  forall (right : list (option string)) (last : number),
    at_least 0 last ->
    Forall (fun e => e <> None) right ->
    exists right' last',
      splice_hunks left hunks (right, last) = Return (right', last') /\
      Forall (fun e => e <> None) right' /\
      at_least 0 last'.
Proof.
  induction 1 as [|h hunks ((start & Hs & H1 & Hend) & Hlen) _ IH];
    intros right last Hlast Hright; cbn [splice_hunks].
  - eauto.
  - unfold splice_hunk. cbn [fst snd]. rewrite Hs.
    assert (Ha : at_least 1 (number_add last (Num 1))).
    { destruct Hlast as [-> | (z & -> & Hz)]; [now left|].
      apply number_add_at_least; lia. }
    destruct (@copy_lines_in_range left _ start Ha) as (copied & -> & Hcopied); [lia|].
    cbn [bind]. apply IH.
    + destruct (@number_add_at_least 1 start (DiffHunk.oldLength h))
        as [-> | (v & -> & Hv)]; try lia; [now left|].
      apply number_add_at_least; lia.
    + apply Forall_app. split; [apply Forall_app; split; assumption|].
      apply Forall_forall. intros e He. apply in_map_iff in He.
      destruct He as (x & <- & _). discriminate.
Qed.

End Reconstruction.

(** C4.  The three-line example: the second line is replaced. *)
Theorem reconstruction_example :
  getModifiedContentFromDiffHunk ("a" ++ nl ++ "b" ++ nl ++ "c")
    (join nl (map Some example_patch_lines))
  = Return ("a" ++ nl ++ "B" ++ nl ++ "c").
Proof. vm_compute. reflexivity. Qed.

(** C5.  With a patch that has no hunk the reconstruction returns the lines
    of the original content joined by single line feeds; the empty patch and
    the patches without a header line are such patches. *)
Theorem reconstruction_zero_hunks (originalContent patch : string) :
  let unchanged := Return (join nl (map Some (split_lines "" originalContent))) in
  (parseDiffHunk patch = Return [] ->
   getModifiedContentFromDiffHunk originalContent patch = unchanged) /\
  (forall lines,
      LineReader patch = Return lines ->
      Forall (fun l => DIFF_HUNK_HEADER_test l = false) lines ->
      getModifiedContentFromDiffHunk originalContent patch = unchanged) /\
  getModifiedContentFromDiffHunk originalContent "" = unchanged.
Proof.
  assert (H0 : forall p, parseDiffHunk p = Return [] ->
                         getModifiedContentFromDiffHunk originalContent p
                         = Return (join nl (map Some (split_lines "" originalContent)))).
  { intros p H. unfold getModifiedContentFromDiffHunk. rewrite H. cbn [bind].
    unfold modified_lines. cbn [splice_hunks bind fst snd].
    now rewrite copy_tail_all. }
  cbv zeta. split; [apply H0|]. split.
  - intros lines H Hl. apply H0. exact (@no_header_no_hunk _ _ H Hl).
  - apply H0. reflexivity.
Qed.

Lemma reconstruction_zero_hunks_witness :
  getModifiedContentFromDiffHunk ("a" ++ crlf ++ "b" ++ nl) "no header here"
  = Return ("a" ++ nl ++ "b" ++ nl) /\
  getModifiedContentFromDiffHunk ("a" ++ crlf ++ "b") "+x"
  = Return ("a" ++ nl ++ "b").
Proof.
  split.
  - rewrite (proj1 (reconstruction_zero_hunks _ "no header here"));
      [reflexivity | vm_compute; reflexivity].
  - rewrite (proj1 (proj2 (reconstruction_zero_hunks _ "+x")) ["+x"]);
      [reflexivity | vm_compute; reflexivity | repeat constructor].
Defined.

(** C3, as it holds.  When every hunk parsed from the patch declares a start
    of at least 1, a length that is not negative, and an end within the lines
    of the original content, the reconstruction runs to its end and no read
    of the split original content, in the copy loop in front of a hunk or in
    the copy of the tail, is out of range: [right] holds no [undefined]. *)
Theorem copy_reads_in_range
    (originalContent patch : string) (hunks : list DiffHunk.t) :
  let left := split_lines "" originalContent in
  parseDiffHunk patch = Return hunks ->
  Forall (fun h => hunk_within left h /\ (0 <= DiffHunk.oldLength h)%Z) hunks ->
  exists right,
    modified_lines left hunks = Return right /\
    Forall (fun e => e <> None) right.
Proof.
  intros left _ Hh. unfold modified_lines.
  destruct (splice_hunks_in_range Hh (right := []) (last := Num 0))
    as (pushed & last & -> & Hpushed & Hlast);
    [now right; exists 0%Z | constructor|].
  cbn [bind fst snd].
  destruct (@copy_tail_in_range left _ Hlast) as (copied & -> & Hcopied).
  cbn [bind]. eexists. split; [reflexivity|].
  apply Forall_app. split; assumption.
Qed.

(** A hunk in the middle of five lines: the copy loop in front of it reads
    the first two lines, the copy of the tail the last two. *)
Lemma copy_reads_in_range_witness :
  let content := "a" ++ nl ++ "b" ++ nl ++ "c" ++ nl ++ "d" ++ nl ++ "e" in
  let patch := "@@ -3,1 +3,1 @@" ++ nl ++ "-c" ++ nl ++ "+C" in
  let left := split_lines "" content in
  exists hunks right,
    parseDiffHunk patch = Return hunks /\
    map DiffHunk.oldLineNumber hunks = [Num 3] /\
    copy_lines left (Num 1) (Num 3) = Return [Some "a"; Some "b"] /\
    copy_tail left (Num 3) = Return [Some "d"; Some "e"] /\
    modified_lines left hunks = Return right /\
    right = [Some "a"; Some "b"; Some "C"; Some "d"; Some "e"] /\
    Forall (fun e => e <> None) right.
Proof.
  intros content patch left.
  assert (Hp : exists hunks, parseDiffHunk patch = Return hunks)
    by (eexists; vm_compute; reflexivity).
  destruct Hp as (hunks & Hp).
  assert (Hh : hunks = match parseDiffHunk patch with Return hs => hs | _ => [] end)
    by (now rewrite Hp).
  vm_compute in Hh.
  destruct (@copy_reads_in_range content patch hunks Hp) as (right & Hr & Hall).
  - subst hunks. repeat constructor.
    + exists 3%Z. repeat split; [lia | vm_compute; discriminate].
    + vm_compute. discriminate.
  - exists hunks, right. split; [exact Hp|].
    split; [subst hunks; reflexivity|].
    split; [vm_compute; reflexivity|].
    split; [vm_compute; reflexivity|].
    split; [exact Hr|]. split; [|exact Hall].
    subst hunks. vm_compute in Hr. now injection Hr as <-.
Defined.

(** C3, as stated, fails: a declared length of 4294967295 is read by [| 0]
    as -1.  The hunk starts at line 1 and its declared end, line -1, is within
    the one line of the original content, yet the copy of the tail starts at
    [left[-1]]. *)
Lemma copy_reads_out_of_range :
  let left := split_lines "" "a" in
  let h := DiffHunk.mk (Num 1) (-1) (Num 1) 0 0
             [DiffLine.mk Control (Num (-1)) (Num (-1)) 0
                "@@ -1,4294967295 +1 @@" true] in
  parseDiffHunk "@@ -1,4294967295 +1 @@" = Return [h] /\
  Forall (hunk_within left) [h] /\
  modified_lines left [h] = Return [None; Some "a"] /\
  array_get left (-1) = None /\
  getModifiedContentFromDiffHunk "a" "@@ -1,4294967295 +1 @@" = Return (nl ++ "a").
Proof.
  intros left h. split; [vm_compute; reflexivity|]. split.
  - repeat constructor. exists 1%Z. repeat split; [lia | vm_compute; discriminate].
  - repeat split; vm_compute; reflexivity.
Qed.

(** ** The position counter *)

Section Positions.

Lemma clear_last_stamps (ls ls' : list DiffLine.t) :
  clear_last_endwithLineBreak ls = Return ls' -> map stamp ls' = map stamp ls.
Proof.
  destruct (snoc_cases ls) as [-> | (front & l & ->)].
  - discriminate.
  - rewrite clear_last_snoc. intros H. injection H as <-.
    rewrite !map_app. reflexivity.
Qed.

(** A line that is not a header, with a hunk open: the hunk keeps its
    stamps, or gets one more line stamped with the current position. *)
Lemma nonheader_step (st : locals) (h : DiffHunk.t) (line : string) :
  DIFF_HUNK_HEADER_test line = false ->
  diffHunk st = Some h ->
  (0 <= positionInHunk st)%Z ->
  exists ls' old' new',
    parseDiffHunk_step st line
    = Return (Locals (Some (DiffHunk.set_diffLines ls' h))
                     (positionInHunk st + 1) old' new' (yielded st)) /\
    ((getDiffChangeType line = Control /\
      map stamp ls' = map stamp (DiffHunk.diffLines h)) \/
     (getDiffChangeType line <> Control /\
      exists l, ls' = (DiffHunk.diffLines h ++ [l])%list /\
                stamp l = (getDiffChangeType line, positionInHunk st, line))).
Proof.
  intros Et Hh Hp.
  assert (Hb : forall d o n y,
             bump_position (Locals d (positionInHunk st) o n y)
             = Locals d (positionInHunk st + 1) o n y).
  { intros. unfold bump_position. cbn.
    destruct (positionInHunk st =? -1)%Z eqn:E;
      [apply Z.eqb_eq in E; lia | reflexivity]. }
  unfold parseDiffHunk_step. rewrite Et, Hh. unfold content_branch.
  destruct (getDiffChangeType line) eqn:Ety; cbn [DiffChangeType_eqb negb];
    try (rewrite countCarriageReturns_count; cbn [bind]; rewrite Hb;
         do 3 eexists; split; [reflexivity|]; right; split; [discriminate|];
         eexists; split; reflexivity).
  destruct (0 <? List.length (DiffHunk.diffLines h)) eqn:El.
  - apply Nat.ltb_lt in El.
    destruct (clear_last_returns _ El) as (ls' & Hc & _). rewrite Hc. cbn [bind].
    rewrite Hb. exists ls', (oldLine st), (newLine st). split; [reflexivity|].
    left. split; [reflexivity|]. now apply clear_last_stamps.
  - cbn [bind]. exists (DiffHunk.diffLines h), (oldLine st), (newLine st). split.
    + destruct st as [d p o n y]. cbn in *. subst d. rewrite Hb.
      destruct h; reflexivity.
    + left. split; reflexivity.
Qed.

Lemma finish_open (h : DiffHunk.t) (p : Z) (o n : number) (y : list DiffHunk.t) :
  parseDiffHunk_finish (Locals (Some h) p o n y) = (y ++ [h])%list.
Proof. reflexivity. Qed.

Lemma all_diffLines_snoc (hs : list DiffHunk.t) (h : DiffHunk.t) :
  all_diffLines (hs ++ [h]) = (all_diffLines hs ++ DiffHunk.diffLines h)%list.
Proof.
  unfold all_diffLines. rewrite flat_map_app. simpl. now rewrite app_nil_r.
Qed.

Lemma stamped_from_app (seen : list string) (line : string) (l : DiffLine.t) :
  stamped_from seen l -> stamped_from (seen ++ [line]) l.
Proof.
  intros (H0 & Hn). split; [exact H0|].
  rewrite nth_error_app1; [exact Hn|].
  apply nth_error_Some. congruence.
Qed.

Lemma stamped_from_lt (seen : list string) (l : DiffLine.t) :
  stamped_from seen l ->
  (DiffLine.positionInHunk l < Z.of_nat (List.length seen))%Z.
Proof.
  intros (H0 & Hn).
  assert (Z.to_nat (DiffLine.positionInHunk l) < List.length seen)
    by (apply nth_error_Some; congruence).
  lia.
Qed.

Lemma StronglySorted_snoc (l : list Z) (x : Z) :
  StronglySorted Z.lt l -> Forall (fun y => (y < x)%Z) l ->
  StronglySorted Z.lt (l ++ [x]).
Proof.
  induction 1 as [|a l Hs IH Ha]; intros Hx; simpl.
  - repeat constructor.
  - inversion Hx; subst. constructor; [auto|].
    apply Forall_app. split; [exact Ha | repeat constructor; assumption].
Qed.

Lemma stamped_from_stamp (seen : list string) (l l' : DiffLine.t) :
  stamp l = stamp l' -> stamped_from seen l -> stamped_from seen l'.
Proof.
  unfold stamp, stamped_from. intros H. injection H as _ <- <-. auto.
Qed.

Lemma Forall_stamps {P : DiffLine.t -> Prop} (ls ls' : list DiffLine.t) :
  (forall l l', stamp l = stamp l' -> P l -> P l') ->
  map stamp ls' = map stamp ls -> Forall P ls -> Forall P ls'.
Proof.
  intros HP. revert ls'. induction ls as [|l ls IH]; intros [|l' ls'] Hm H;
    simpl in Hm; try discriminate Hm; [constructor|].
  inversion H; subst.
  assert (Hl : stamp l = stamp l') by (symmetry; congruence).
  assert (Hls : map stamp ls' = map stamp ls) by congruence.
  constructor; [apply (HP l l'); assumption | auto].
Qed.

Lemma positions_of_stamps (ls ls' : list DiffLine.t) :
  map stamp ls' = map stamp ls ->
  map DiffLine.positionInHunk ls' = map DiffLine.positionInHunk ls.
Proof.
  intros H.
  assert (E : forall x, map DiffLine.positionInHunk x = map (fun s => snd (fst s)) (map stamp x)).
  { intros x. rewrite map_map. reflexivity. }
  now rewrite !E, H.
Qed.

Lemma starts_with_header_stamps (h : DiffHunk.t) (ls' : list DiffLine.t) :
  starts_with_header h ->
  (map stamp ls' = map stamp (DiffHunk.diffLines h) \/
   exists l, ls' = (DiffHunk.diffLines h ++ [l])%list) ->
  starts_with_header (DiffHunk.set_diffLines ls' h).
Proof.
  intros (l0 & ls0 & Hd & Hty & Hpos & Hraw) H. rewrite Hd in H.
  unfold starts_with_header. cbn [DiffHunk.diffLines DiffHunk.set_diffLines DiffHunk.positionInHunk].
  destruct H as [H | (l & ->)].
  - destruct ls' as [|l' ls']; [discriminate|].
    simpl in H. unfold stamp in H at 1 2. injection H as H1 H2 H3 H4.
    exists l', ls'. repeat split; congruence.
  - exists l0, (ls0 ++ [l])%list. repeat split; assumption.
Qed.

Lemma first_hunk_snoc (ys : list DiffHunk.t) (h h' : DiffHunk.t) :
  DiffHunk.positionInHunk h' = DiffHunk.positionInHunk h ->
  (exists a hs, (ys ++ [h])%list = a :: hs /\ DiffHunk.positionInHunk a = 0%Z) ->
  exists a hs, (ys ++ [h'])%list = a :: hs /\ DiffHunk.positionInHunk a = 0%Z.
Proof.
  intros Hp (a & hs & He & Ha). destruct ys as [|y ys]; simpl in *.
  - injection He as <- <-. exists h', []. split; [reflexivity | congruence].
  - injection He as <- <-. eauto.
Qed.

(** Every turn of the loop keeps the invariant, with one more line seen. *)
Lemma position_invariant_step
    (seen : list string) (st : locals) (line : string) (st' : locals) :
  position_invariant seen st ->
  parseDiffHunk_step st line = Return st' ->
  position_invariant (seen ++ [line]) st'.
Proof.
  intros (Hp & Hopen & Hst & Hsorted & Hhead & Hfirst) Hstep.
  assert (Hlen : Z.of_nat (List.length (seen ++ [line])) = (positionInHunk st + 1)%Z)
    by (rewrite List.length_app; simpl; lia).
  assert (Hnew : forall l, DiffLine.positionInHunk l = positionInHunk st ->
                           DiffLine.raw l = line ->
                           stamped_from (seen ++ [line]) l).
  { intros l H1 H2. split; [lia|]. rewrite H1, Hp, Nat2Z.id.
    rewrite nth_error_app2, Nat.sub_diag by lia. simpl. congruence. }
  assert (Hold : Forall (fun l => (DiffLine.positionInHunk l < positionInHunk st)%Z)
                   (all_diffLines (parseDiffHunk_finish st))).
  { eapply Forall_impl; [|exact Hst]. intros l Hl.
    apply stamped_from_lt in Hl. lia. }
  destruct (DIFF_HUNK_HEADER_test line) eqn:Et.
  - destruct (header_step st _ Et) as (m & _ & Hs). rewrite Hs in Hstep.
    cbv zeta in Hstep.
    destruct (positionInHunk st =? -1)%Z eqn:E; [apply Z.eqb_eq in E; lia|].
    injection Hstep as <-. unfold position_invariant.
    rewrite !finish_open. cbn [positionInHunk diffHunk yielded].
    rewrite all_diffLines_snoc. cbn [DiffHunk.diffLines].
    split; [lia|]. split; [discriminate|]. split; [|split; [|split]].
    + apply Forall_app. split.
      * eapply Forall_impl; [|exact Hst]. intros l. apply stamped_from_app.
      * constructor; [|constructor]. apply Hnew; reflexivity.
    + rewrite map_app. cbn [map DiffLine.positionInHunk].
      apply StronglySorted_snoc; [exact Hsorted|].
      apply Forall_map. exact Hold.
    + apply Forall_app. split; [exact Hhead|]. constructor; [|constructor].
      eexists _, _. cbn. repeat split. exact Et.
    + destruct Hfirst as (a & hs & -> & Ha). simpl. eauto.
  - destruct (diffHunk st) as [h|] eqn:Hh; [|congruence].
    destruct (nonheader_step st line Et Hh) as (ls' & o' & n' & Hs & Hcase); [lia|].
    rewrite Hs in Hstep. injection Hstep as <-.
    unfold parseDiffHunk_finish in Hst, Hsorted, Hhead, Hfirst, Hold. rewrite Hh in *.
    rewrite all_diffLines_snoc in Hst, Hsorted, Hold.
    apply Forall_app in Hst. destruct Hst as (HstY & HstH).
    apply Forall_app in Hhead. destruct Hhead as (HheadY & HheadH).
    inversion HheadH as [|? ? HheadH' _]; subst.
    unfold position_invariant.
    rewrite !finish_open. cbn [positionInHunk diffHunk yielded].
    rewrite all_diffLines_snoc. cbn [DiffHunk.diffLines DiffHunk.set_diffLines].
    split; [lia|]. split; [discriminate|].
    assert (HY : Forall (stamped_from (seen ++ [line])) (all_diffLines (yielded st))).
    { eapply Forall_impl; [|exact HstY]. intros l. apply stamped_from_app. }
    assert (HH : Forall (stamped_from (seen ++ [line])) (DiffHunk.diffLines h)).
    { eapply Forall_impl; [|exact HstH]. intros l. apply stamped_from_app. }
    split; [|split; [|split]].
    + apply Forall_app. split; [exact HY|].
      destruct Hcase as [(_ & Hsame) | (_ & l & -> & Hl)].
      * eapply Forall_stamps; [|exact Hsame | exact HH].
        intros a b. apply stamped_from_stamp.
      * apply Forall_app. split; [exact HH|]. constructor; [|constructor].
        unfold stamp in Hl. injection Hl as _ H1 H2. now apply Hnew.
    + destruct Hcase as [(_ & Hsame) | (_ & l & -> & Hl)].
      * rewrite map_app, (@positions_of_stamps _ _ Hsame), <- map_app. exact Hsorted.
      * rewrite app_assoc, map_app. cbn [map].
        unfold stamp in Hl. injection Hl as _ H1 H2. rewrite H1.
        apply StronglySorted_snoc; [exact Hsorted|].
        apply Forall_map. exact Hold.
    + apply Forall_app. split; [exact HheadY|]. constructor; [|constructor].
      apply starts_with_header_stamps; [exact HheadH'|].
      destruct Hcase as [(_ & Hsame) | (_ & l & -> & Hl)]; eauto.
    + eapply first_hunk_snoc; [|exact Hfirst]. reflexivity.
Qed.

Lemma position_invariant_loop (post : list string) :
  forall (seen : list string) (st st' : locals),
    position_invariant seen st ->
    parseDiffHunk_loop st post = Return st' ->
    position_invariant (seen ++ post) st'.
Proof.
  induction post as [|line post IH]; intros seen st st' Hinv H; simpl in H.
  - injection H as <-. now rewrite app_nil_r.
  - destruct (parseDiffHunk_step st line) as [st1| |] eqn:E; cbn [bind] in H;
      try discriminate.
    replace (seen ++ line :: post)%list with ((seen ++ [line]) ++ post)%list
      by (rewrite <- app_assoc; reflexivity).
    eapply IH; [|exact H]. eapply position_invariant_step; eauto.
Qed.

(** The first header starts the counter. *)
Lemma position_invariant_header (header : string) (st : locals) :
  DIFF_HUNK_HEADER_test header = true ->
  parseDiffHunk_step locals_init header = Return st ->
  position_invariant [header] st /\ single_hunk_invariant [header] st.
Proof.
  intros Et H. destruct (header_step locals_init _ Et) as (m & _ & Hs).
  rewrite Hs in H. cbn in H. injection H as <-.
  split.
  - unfold position_invariant, parseDiffHunk_finish, all_diffLines.
    cbn. repeat split; try discriminate.
    + constructor; [|constructor]. split; [cbn; lia | reflexivity].
    + repeat constructor.
    + constructor; [|constructor]. eexists _, _. cbn. repeat split. exact Et.
    + eauto.
  - unfold single_hunk_invariant. cbn. repeat split. eauto.
Qed.

Lemma single_hunk_invariant_step
    (seen : list string) (st : locals) (line : string) (st' : locals) :
  single_hunk_invariant seen st ->
  is_content_line line ->
  parseDiffHunk_step st line = Return st' ->
  single_hunk_invariant (seen ++ [line]) st'.
Proof.
  intros (Hp & Hy & h & Hh & Hpos) (Et & Hty) Hstep.
  destruct (nonheader_step st line Et Hh) as (ls' & o' & n' & Hs & Hcase); [lia|].
  rewrite Hs in Hstep. injection Hstep as <-.
  destruct Hcase as [(Hc & _) | (_ & l & -> & Hl)]; [congruence|].
  unfold stamp in Hl. injection Hl as _ H1 _.
  unfold single_hunk_invariant. cbn [positionInHunk yielded diffHunk].
  rewrite List.length_app. cbn [List.length].
  split; [lia|]. split; [exact Hy|].
  eexists. split; [reflexivity|]. cbn [DiffHunk.diffLines DiffHunk.set_diffLines].
  rewrite map_app, Hpos, Nat.add_1_r, seq_S, map_app. cbn [map Nat.add].
  now rewrite H1, Hp.
Qed.

Lemma single_hunk_invariant_loop (post : list string) :
  Forall is_content_line post ->
  forall (seen : list string) (st st' : locals),
    single_hunk_invariant seen st ->
    parseDiffHunk_loop st post = Return st' ->
    single_hunk_invariant (seen ++ post) st'.
Proof.
  induction 1 as [|line post Hl _ IH]; intros seen st st' Hinv H; simpl in H.
  - injection H as <-. now rewrite app_nil_r.
  - destruct (parseDiffHunk_step st line) as [st1| |] eqn:E; cbn [bind] in H;
      try discriminate.
    replace (seen ++ line :: post)%list with ((seen ++ [line]) ++ post)%list
      by (rewrite <- app_assoc; reflexivity).
    eapply IH; [|exact H]. eapply single_hunk_invariant_step; eauto.
Qed.

(** The loop over a patch whose first header is [header]. *)
Lemma positions_from_first_header (pre : list string) (header : string)
    (post : list string) :
  Forall (fun l => DIFF_HUNK_HEADER_test l = false) pre ->
  DIFF_HUNK_HEADER_test header = true ->
  exists st,
    parseDiffHunk_loop locals_init (pre ++ header :: post) = Return st /\
    position_invariant (header :: post) st /\
    (Forall is_content_line post -> single_hunk_invariant (header :: post) st).
Proof.
  intros Hpre Et.
  rewrite parseDiffHunk_loop_app, (idle_loop Hpre). cbn [bind parseDiffHunk_loop].
  destruct (parseDiffHunk_step_returns locals_init header) as (st1 & H1).
  rewrite H1. cbn [bind].
  destruct (parseDiffHunk_loop_returns post st1) as (st & H).
  destruct (@position_invariant_header header st1 Et H1) as (Hinv & Hsingle).
  exists st. split; [exact H|]. split.
  - apply (@position_invariant_loop post [header] st1 st Hinv H).
  - intros Hc. apply (@single_hunk_invariant_loop post Hc [header] st1 st Hsingle H).
Qed.

Lemma sorted_app_r (a b : list Z) :
  StronglySorted Z.lt (a ++ b) -> StronglySorted Z.lt b.
Proof.
  induction a as [|c a IH]; simpl; intros Hs; [exact Hs|].
  inversion Hs; subst. auto.
Qed.

Lemma sorted_app_lt (a b : list Z) :
  StronglySorted Z.lt (a ++ b) ->
  forall x y, In x a -> In y b -> (x < y)%Z.
Proof.
  induction a as [|c a IH]; intros Hs x y Hx Hy; [destruct Hx|].
  simpl in Hs. inversion Hs as [|? ? Hs' Hc]; subst.
  destruct Hx as [<- | Hx].
  - rewrite Forall_forall in Hc. apply Hc. apply in_or_app. now right.
  - eapply IH; eauto.
Qed.

(** In a sorted run of hunks, the lines of a hunk come before the header
    of the next one. *)
Lemma next_hunk_later (front back : list DiffHunk.t) (h1 h2 : DiffHunk.t) :
  StronglySorted Z.lt
    (map DiffLine.positionInHunk (all_diffLines (front ++ h1 :: h2 :: back))) ->
  starts_with_header h2 ->
  Forall (fun l => (DiffLine.positionInHunk l < DiffHunk.positionInHunk h2)%Z)
         (DiffHunk.diffLines h1).
Proof.
  intros Hs (l2 & ls2 & Hd & _ & Hp & _).
  unfold all_diffLines in Hs. rewrite flat_map_app in Hs. cbn [flat_map] in Hs.
  rewrite Hd in Hs. rewrite !map_app in Hs.
  apply sorted_app_r in Hs.
  apply Forall_forall. intros l Hl. rewrite <- Hp.
  apply (@sorted_app_lt _ _ Hs).
  - now apply in_map.
  - rewrite <- map_app. apply in_map. apply in_or_app. left. now left.
Qed.

End Positions.

(** C2.  In a patch whose first header line is [header], with [post] the
    lines after it: the counter is 0 on the header and one more after every
    scanned line, whatever the line is; every line of every hunk carries as
    its position the index of the scanned line it comes from, counted from
    the first header; the positions increase strictly along the whole patch;
    every hunk begins with its header line at the hunk's start position, 0
    for the first hunk, and the header of a later hunk lies after every line
    of the hunk before it.  When [post] holds content lines only there is one
    hunk, with the positions 0, 1, 2, ... in a row. *)
Theorem cumulative_position
    (patch : string) (pre : list string) (header : string) (post : list string) :
  LineReader patch = Return (pre ++ header :: post)%list ->
  Forall (fun l => DIFF_HUNK_HEADER_test l = false) pre ->
  DIFF_HUNK_HEADER_test header = true ->
  (forall k, k <= List.length post ->
     exists st, parseDiffHunk_loop locals_init (pre ++ header :: firstn k post)
                = Return st /\
                positionInHunk st = Z.of_nat (S k)) /\
  exists hunks,
    parseDiffHunk patch = Return hunks /\
    Forall (stamped_from (header :: post)) (all_diffLines hunks) /\
    StronglySorted Z.lt (map DiffLine.positionInHunk (all_diffLines hunks)) /\
    Forall starts_with_header hunks /\
    (exists h hs, hunks = h :: hs /\ DiffHunk.positionInHunk h = 0%Z) /\
    (forall front h1 h2 back, hunks = (front ++ h1 :: h2 :: back)%list ->
       Forall (fun l => (DiffLine.positionInHunk l < DiffHunk.positionInHunk h2)%Z)
              (DiffHunk.diffLines h1)) /\
    (Forall is_content_line post ->
       exists h, hunks = [h] /\
                 map DiffLine.positionInHunk (DiffHunk.diffLines h)
                 = map Z.of_nat (seq 0 (S (List.length post)))).
Proof.
  intros Hscan Hpre Et. split.
  - intros k Hk.
    destruct (@positions_from_first_header pre header (firstn k post) Hpre Et)
      as (st & Hloop & (Hp & _) & _).
    exists st. split; [exact Hloop|]. rewrite Hp. cbn [List.length].
    rewrite length_firstn, Nat.min_l by exact Hk. reflexivity.
  - destruct (@positions_from_first_header pre header post Hpre Et)
      as (st & Hloop & (Hp & Hopen & Hst & Hsorted & Hhead & Hfirst) & Hsingle).
    exists (parseDiffHunk_finish st).
    split; [unfold parseDiffHunk; rewrite Hscan; cbn [bind]; now rewrite Hloop|].
    split; [exact Hst|]. split; [exact Hsorted|]. split; [exact Hhead|].
    split; [exact Hfirst|]. split.
    + intros front h1 h2 back E. rewrite E in Hsorted, Hhead.
      apply (@next_hunk_later front back h1 h2 Hsorted).
      apply Forall_app in Hhead. destruct Hhead as (_ & Hhead).
      inversion Hhead as [|? ? _ Hhead']; subst.
      inversion Hhead'; assumption.
    + intros Hc. destruct (Hsingle Hc) as (_ & Hy & h & Hh & Hpos).
      exists h. unfold parseDiffHunk_finish. rewrite Hh, Hy. split; [reflexivity|].
      exact Hpos.
Qed.

Lemma cumulative_position_witness :
  let patch := "index 1..2" ++ nl ++ "@@ -1 +1 @@" ++ nl ++ "-a" ++ nl ++ "+b" ++ nl
               ++ "@@ -5 +5 @@" ++ nl ++ "+c" in
  exists hunks,
    parseDiffHunk patch = Return hunks /\
    StronglySorted Z.lt (map DiffLine.positionInHunk (all_diffLines hunks)) /\
    map DiffLine.positionInHunk (all_diffLines hunks) = [0; 1; 2; 3; 4]%Z /\
    map DiffHunk.positionInHunk hunks = [0; 3]%Z.
Proof.
  intros patch.
  destruct (@cumulative_position patch ["index 1..2"] "@@ -1 +1 @@"
              ["-a"; "+b"; "@@ -5 +5 @@"; "+c"])
    as (_ & hunks & Hp & _ & Hs & _).
  - vm_compute. reflexivity.
  - repeat constructor.
  - vm_compute. reflexivity.
  - exists hunks. split; [exact Hp|]. split; [exact Hs|].
    vm_compute in Hp. injection Hp as <-. split; reflexivity.
Defined.

(** C10.  The table of status labels. *)
Theorem getGitChangeType_table :
  getGitChangeType "removed" = DELETE /\
  getGitChangeType "added" = ADD /\
  getGitChangeType "renamed" = RENAME /\
  getGitChangeType "modified" = MODIFY /\
  (forall status,
      status <> "removed" -> status <> "added" ->
      status <> "renamed" -> status <> "modified" ->
      getGitChangeType status = UNKNOWN).
Proof.
  repeat split. intros status H1 H2 H3 H4. unfold getGitChangeType.
  apply String.eqb_neq in H1, H2, H3, H4. now rewrite H1, H2, H3, H4.
Qed.

Lemma getGitChangeType_table_witness :
  getGitChangeType "unknown-label" = UNKNOWN.
Proof.
  apply (proj2 (proj2 (proj2 (proj2 getGitChangeType_table)))); discriminate.
Defined.

(** ** The header pattern *)

Section Header.

Lemma span_digits_app (s : string) :
  fst (span_digits s) ++ snd (span_digits s) = s.
Proof.
  induction s as [|c s IH]; [reflexivity|]. simpl.
  destruct (is_digit c); [|reflexivity].
  destruct (span_digits s) as [d r]. simpl in *. now rewrite IH.
Qed.

Lemma span_digits_all (s : string) : all_digits (fst (span_digits s)) = true.
Proof.
  induction s as [|c s IH]; [reflexivity|]. simpl.
  destruct (is_digit c) eqn:E; [|reflexivity].
  destruct (span_digits s) as [d r]. simpl in *. now rewrite E, IH.
Qed.

Lemma taken_prefix (d r : string) :
  substr (d ++ r) 0 (String.length (d ++ r) - String.length r) = d.
Proof.
  unfold substr. rewrite length_app.
  replace (String.length d + String.length r - String.length r)
    with (String.length d) by lia.
  apply substring_0_app.
Qed.

(** [\d+] in front of a continuation that cannot start on a digit takes
    the longest run of digits and never comes back. *)
Lemma class_plus_span (k : string -> option mstate) (s : string) :
  (forall c rest, is_digit c = true -> k (String c rest) = None) ->
  class_plus is_digit s k
  = let (d, r) := span_digits s in if is_empty d then None else k r.
Proof.
  intros Hk. induction s as [|c s IH]; [reflexivity|]. simpl.
  destruct (is_digit c) eqn:Ec; [|reflexivity].
  rewrite IH. destruct (span_digits s) as [d r] eqn:Es. simpl.
  destruct d as [|c' d]; simpl.
  - pose proof (span_digits_app s) as Ha. rewrite Es in Ha. simpl in Ha. now subst r.
  - destruct (k r) eqn:Ek; [reflexivity|].
    pose proof (span_digits_app s) as Ha. rewrite Es in Ha. simpl in Ha.
    pose proof (span_digits_all s) as Hd. rewrite Es in Hd. simpl in Hd.
    apply andb_prop in Hd. destruct Hd as [Hc' _].
    rewrite <- Ha. apply Hk. exact Hc'.
Qed.

Lemma group_digits (n : nat) (s : string) (cs : captures)
    (k : mstate -> option mstate) :
  digit_blind k ->
  matcher (Group n DigitPlus) (MState s cs) k
  = let (d, r) := span_digits s in
    if is_empty d then None else k (MState r (set_nth n (Some d) cs)).
Proof.
  intros Hk. cbn [matcher unread caps].
  rewrite class_plus_span.
  - pose proof (span_digits_app s) as Ha.
    destruct (span_digits s) as [d r]. simpl in Ha.
    destruct (is_empty d); [reflexivity|].
    rewrite <- Ha at 1 2. now rewrite taken_prefix.
  - intros c rest Hc. apply Hk. exact Hc.
Qed.

Lemma digit_not_separator (c : ascii) :
  is_digit c = true ->
  Ascii.eqb ","%char c = false /\ Ascii.eqb " "%char c = false.
Proof.
  destruct c as [[] [] [] [] [] [] [] []]; cbn; intros H;
    try discriminate H; split; reflexivity.
Qed.

Lemma or_else_None {A : Type} (o : option A) :
  match o with Some z => Some z | None => None end = o.
Proof. now destruct o. Qed.

Lemma strip_prefix_Some (p s t : string) :
  strip_prefix p s = Some t -> s = p ++ t.
Proof.
  revert s. induction p as [|a p IH]; simpl; intros s H.
  - now injection H as <-.
  - destruct s as [|b s]; [discriminate|].
    destruct (Ascii.eqb a b) eqn:E; [|discriminate].
    apply Ascii.eqb_eq in E. subst b. now rewrite (IH _ H).
Qed.

Lemma strip_prefix_app (p t : string) : strip_prefix p (p ++ t) = Some t.
Proof.
  induction p as [|a p IH]; simpl; [reflexivity|]. now rewrite Ascii.eqb_refl.
Qed.

Lemma closing_direct (s0 s : string) (c0 c1 c2 c3 c4 c5 c6 c7 : option string) :
  option_map odd_captures
    (matcher closing (MState s [c0; c1; c2; c3; c4; c5; c6; c7]) (whole s0))
  = match strip_prefix " @@" s with
    | Some _ => Some (c1, c3, c5, c7)
    | None => None
    end.
Proof.
  unfold closing. cbn [matcher unread caps].
  destruct (strip_prefix " @@" s); reflexivity.
Qed.

Lemma matcher_Seq (r1 r2 : regex) (x : mstate) (k : mstate -> option mstate) :
  matcher (r1 >> r2) x k = matcher r1 x (fun y => matcher r2 y k).
Proof. reflexivity. Qed.

Lemma matcher_Opt (r : regex) (x : mstate) (k : mstate -> option mstate) :
  matcher (Opt r) x k
  = match matcher r x k with Some z => Some z | None => k x end.
Proof. reflexivity. Qed.

Lemma matcher_Chars (p s : string) (cs : captures) (k : mstate -> option mstate) :
  matcher (Chars p) (MState s cs) k
  = match strip_prefix p s with
    | Some rest => k (MState rest cs)
    | None => None
    end.
Proof. reflexivity. Qed.

Lemma matcher_Group (n : nat) (r : regex) (s : string) (cs : captures)
    (k : mstate -> option mstate) :
  matcher (Group n r) (MState s cs) k
  = matcher r (MState s cs) (fun y =>
      k (MState (unread y)
           (set_nth n (Some (substr s 0 (String.length s - String.length (unread y))))
              (caps y)))).
Proof. reflexivity. Qed.

Lemma closing_fails (s : string) (cs : captures) (k : mstate -> option mstate) :
  strip_prefix " @@" s = None -> matcher closing (MState s cs) k = None.
Proof. intros H. unfold closing. now rewrite matcher_Chars, H. Qed.

Lemma digits_then_no_separator (u : string) :
  is_empty (fst (span_digits u)) = false -> strip_prefix " @@" u = None.
Proof.
  destruct u as [|c u]; [discriminate|]. cbn [span_digits].
  destruct (is_digit c) eqn:Ec; [|discriminate]. intros _.
  cbn [strip_prefix]. destruct (digit_not_separator c Ec) as [_ ->]. reflexivity.
Qed.

Lemma from_new_side_direct (s0 s : string) (c0 c1 c2 c3 c4 c6 : option string) :
  option_map odd_captures
    (matcher from_new_side (MState s [c0; c1; c2; c3; c4; None; c6; None]) (whole s0))
  = let '(g5, g7, s4) := opt_new_side s in
    match strip_prefix " @@" s4 with
    | Some _ => Some (c1, c3, g5, g7)
    | None => None
    end.
Proof.
  unfold from_new_side. rewrite matcher_Seq, matcher_Opt. unfold new_side_group at 1.
  rewrite matcher_Group, matcher_Seq, matcher_Chars.
  unfold opt_new_side.
  destruct (strip_prefix " +" s) as [t|] eqn:Ep; [|apply closing_direct].
  pose proof (strip_prefix_Some _ _ Ep) as Hs.
  rewrite matcher_Seq, group_digits by (unfold new_length_group, closing; blind_with digit_not_separator).
  destruct (span_digits t) as [d r] eqn:Et.
  destruct (is_empty d); [apply closing_direct|].
  rewrite (@closing_fails s) by (rewrite Hs; reflexivity).
  rewrite or_else_None.
  rewrite matcher_Opt. unfold new_length_group at 1.
  rewrite matcher_Group, matcher_Seq, matcher_Chars.
  destruct (strip_prefix "," r) as [u|] eqn:Ec.
  - pose proof (strip_prefix_Some _ _ Ec) as Hr.
    rewrite (@closing_fails (unread (MState r _)))
      by (cbn [unread]; rewrite Hr; reflexivity).
    rewrite or_else_None.
    rewrite matcher_Opt, group_digits by (unfold closing; blind_with digit_not_separator).
    destruct (span_digits u) as [d' r'] eqn:Eu.
    destruct (is_empty d') eqn:Ed'.
    + assert (r' = u).
      { pose proof (span_digits_app u) as Ha. rewrite Eu in Ha. simpl in Ha.
        destruct d'; [exact Ha | discriminate]. }
      subst r'. cbn [unread caps set_nth]. apply closing_direct.
    + cbn [unread caps set_nth].
      rewrite (@closing_fails u) by (apply digits_then_no_separator; now rewrite Eu).
      rewrite or_else_None. apply closing_direct.
  - cbn [unread caps set_nth]. apply closing_direct.
Qed.

Lemma from_new_side_fails_comma (s t : string) (cs : captures)
    (k : mstate -> option mstate) :
  s = "," ++ t -> matcher from_new_side (MState s cs) k = None.
Proof. intros ->. reflexivity. Qed.

Lemma from_old_length_direct (s0 s : string) (c0 c1 c2 c4 c6 : option string) :
  option_map odd_captures
    (matcher from_old_length (MState s [c0; c1; c2; None; c4; None; c6; None]) (whole s0))
  = let (g3, s3) := opt_comma_digits s in
    let '(g5, g7, s4) := opt_new_side s3 in
    match strip_prefix " @@" s4 with
    | Some _ => Some (c1, g3, g5, g7)
    | None => None
    end.
Proof.
  unfold from_old_length. rewrite matcher_Seq, matcher_Opt. unfold old_length_group at 1.
  rewrite matcher_Group, matcher_Seq, matcher_Chars.
  unfold opt_comma_digits.
  destruct (strip_prefix "," s) as [t|] eqn:Ec; [|apply from_new_side_direct].
  pose proof (strip_prefix_Some _ _ Ec) as Hs.
  rewrite group_digits by (unfold from_new_side, new_side_group, closing; blind_with digit_not_separator).
  destruct (span_digits t) as [d r] eqn:Et.
  destruct (is_empty d); [apply from_new_side_direct|].
  rewrite (@from_new_side_fails_comma s t) by exact Hs. rewrite or_else_None.
  cbn [unread caps set_nth]. apply from_new_side_direct.
Qed.

(** The matcher at one place of the line is [header_at]. *)
Lemma matcher_header_at (s : string) :
  option_map odd_captures
    (matcher (Group 0 DIFF_HUNK_HEADER) (MState s (repeat None 8)) Some)
  = header_at s.
Proof.
  change DIFF_HUNK_HEADER with (Chars "@@ -" >> Group 1 DigitPlus >> from_old_length).
  rewrite matcher_Group.
  change (fun y : mstate => Some _) with (whole s).
  rewrite matcher_Seq, matcher_Chars. unfold header_at.
  destruct (strip_prefix "@@ -" s) as [s1|]; [|reflexivity].
  rewrite matcher_Seq, group_digits by (unfold from_old_length, old_length_group, from_new_side, new_side_group, closing; blind_with digit_not_separator).
  destruct (span_digits s1) as [d1 s2].
  destruct (is_empty d1); [reflexivity|].
  cbn [repeat set_nth]. rewrite from_old_length_direct.
  destruct (opt_comma_digits s2) as [g3 s3].
  destruct (opt_new_side s3) as [[g5 g7] s4]. reflexivity.
Qed.

(** [exec] is the leftmost match of [header_at]. *)
Lemma exec_find_header (line : string) :
  header_fields line = option_map decode_groups (find_header line).
Proof.
  unfold header_fields, DIFF_HUNK_HEADER_exec.
  induction line as [|c line IH].
  - cbn [exec_at find_header]. rewrite <- matcher_header_at.
    destruct (matcher _ _ Some); reflexivity.
  - cbn [exec_at find_header]. rewrite <- matcher_header_at.
    destruct (matcher _ _ Some); [reflexivity | exact IH].
Qed.

Lemma test_find_header (line : string) :
  DIFF_HUNK_HEADER_test line = match find_header line with Some _ => true | None => false end.
Proof.
  pose proof (exec_find_header line) as H. unfold header_fields in H.
  unfold DIFF_HUNK_HEADER_test.
  destruct (DIFF_HUNK_HEADER_exec line), (find_header line); simpl in H;
    congruence.
Qed.

Lemma find_header_somewhere (line : string) :
  find_header line <> None <->
  exists pre rest, line = pre ++ rest /\ header_at rest <> None.
Proof.
  split.
  - induction line as [|c line IH]; cbn [find_header]; intros H.
    + exfalso. apply H. reflexivity.
    + destruct (header_at (String c line)) eqn:E.
      * exists "", (String c line). split; [reflexivity | congruence].
      * destruct (IH H) as (pre & rest & -> & Hr).
        exists (String c pre), rest. auto.
  - intros (pre & rest & -> & Hr). induction pre as [|c pre IH].
    + cbn [append]. destruct rest; cbn [find_header];
        destruct (header_at _); congruence.
    + cbn [append find_header].
      destruct (header_at (String c (pre ++ rest))); [discriminate | exact IH].
Qed.

(** A run of digits in front of something that does not start with a digit
    is what [span_digits] takes. *)
Lemma span_digits_run (d rest : string) :
  all_digits d = true ->
  fst (span_digits rest) = "" ->
  span_digits (d ++ rest) = (d, rest).
Proof.
  intros Hd Hr. induction d as [|c d IH]; cbn [append].
  - pose proof (span_digits_app rest) as Ha. rewrite Hr in Ha.
    destruct (span_digits rest) as [x y]. simpl in *. now subst.
  - simpl in Hd. apply andb_prop in Hd. destruct Hd as [Hc Hd].
    cbn [span_digits]. now rewrite Hc, (IH Hd).
Qed.

Lemma span_digits_empty (s : string) :
  is_empty (fst (span_digits s)) = true -> span_digits s = ("", s).
Proof.
  pose proof (span_digits_app s) as Ha.
  destruct (span_digits s) as [d r]. simpl in *.
  destruct d; [now subst | discriminate].
Qed.

(** Every text of the pattern is matched by [header_at], whatever follows
    it. *)
Lemma header_at_text (start : string) (len : option string) (ns : new_side_text)
    (trailing : string) :
  is_integer start -> optional_integer len -> new_side_integers ns ->
  header_at (header_text start len ns ++ trailing) = Some (groups_of start len ns).
Proof.
  intros (Hs1 & Hs2) Hlen Hns. unfold header_at, header_text.
  rewrite app_assoc_s, strip_prefix_app.
  assert (Hnew : opt_new_side ((new_side_string ns ++ " @@") ++ trailing)
                 = (let '(_, _, g5, g7) := groups_of start len ns in (g5, g7),
                    " @@" ++ trailing)).
  { destruct ns as [|d5 l]; [reflexivity|].
    destruct Hns as ((Hd1 & Hd2) & Hl).
    unfold opt_new_side. cbn [new_side_string].
    rewrite !app_assoc_s, strip_prefix_app.
    destruct l as [| |d7].
    - take_run_with span_digits_run. rewrite Hd1. reflexivity.
    - take_run_with span_digits_run. rewrite Hd1. reflexivity.
    - destruct Hl as (Hl1 & Hl2).
      rewrite !app_assoc_s. take_run_with span_digits_run. rewrite Hd1, strip_prefix_app.
      take_run_with span_digits_run. rewrite Hl1. reflexivity. }
  assert (Hold : opt_comma_digits
                   ((old_length_text len ++ new_side_string ns ++ " @@") ++ trailing)
                 = (len, (new_side_string ns ++ " @@") ++ trailing)).
  { destruct len as [d3|].
    - destruct Hlen as (Hd1 & Hd2). unfold opt_comma_digits. cbn [old_length_text].
      rewrite !app_assoc_s, strip_prefix_app.
      assert (Hnd : fst (span_digits (new_side_string ns ++ " @@" ++ trailing)) = "")
        by (destruct ns; reflexivity).
      rewrite (@span_digits_run _ _ Hd2 Hnd), Hd1. reflexivity.
    - cbn [old_length_text append]. destruct ns; reflexivity. }
  assert (Hnd : fst (span_digits
                       ((old_length_text len ++ new_side_string ns ++ " @@") ++ trailing))
                = "")
    by (destruct len, ns; reflexivity).
  rewrite !app_assoc_s in *.
  rewrite (@span_digits_run _ _ Hs2 Hnd), Hs1, Hold, Hnew.
  unfold groups_of. reflexivity.
Qed.

(** Whatever [header_at] matches starts with a text of the pattern. *)
Lemma header_at_inv (s : string) (g : groups) :
  header_at s = Some g ->
  exists start len ns trailing,
    is_integer start /\ optional_integer len /\ new_side_integers ns /\
    s = header_text start len ns ++ trailing /\
    g = groups_of start len ns.
Proof.
  unfold header_at. intros H.
  destruct (strip_prefix "@@ -" s) as [s1|] eqn:E0; [|discriminate].
  apply strip_prefix_Some in E0.
  pose proof (span_digits_app s1) as A1. pose proof (span_digits_all s1) as D1.
  destruct (span_digits s1) as [d1 s2]. cbn [fst snd] in A1, D1.
  destruct (is_empty d1) eqn:N1; [discriminate|].
  assert (Hold : exists len, optional_integer len /\
                   s2 = old_length_text len ++ snd (opt_comma_digits s2) /\
                   fst (opt_comma_digits s2) = len).
  { unfold opt_comma_digits.
    destruct (strip_prefix "," s2) as [t|] eqn:Ec;
      [|exists None; repeat split].
    apply strip_prefix_Some in Ec.
    pose proof (span_digits_app t) as A. pose proof (span_digits_all t) as D.
    destruct (span_digits t) as [d r]. cbn [fst snd] in A, D.
    destruct (is_empty d) eqn:N; [exists None; repeat split|].
    exists (Some d). cbn [fst snd old_length_text]. repeat split; try assumption.
    rewrite Ec, <- A, app_assoc_s. reflexivity. }
  destruct Hold as (len & Hlen & A2 & G3).
  destruct (opt_comma_digits s2) as [g3 s3]. cbn [fst snd] in A2, G3. subst g3.
  assert (Hnew : exists ns, new_side_integers ns /\
                   s3 = new_side_string ns ++ snd (opt_new_side s3) /\
                   fst (opt_new_side s3)
                   = (match ns with NewSide d _ => Some d | NoNewSide => None end,
                      match ns with NewSide _ (CommaLength d) => Some d | _ => None end)).
  { unfold opt_new_side.
    destruct (strip_prefix " +" s3) as [t|] eqn:Ep;
      [|exists NoNewSide; repeat split].
    apply strip_prefix_Some in Ep.
    pose proof (span_digits_app t) as A. pose proof (span_digits_all t) as D.
    destruct (span_digits t) as [d r]. cbn [fst snd] in A, D.
    destruct (is_empty d) eqn:N; [exists NoNewSide; repeat split|].
    destruct (strip_prefix "," r) as [u|] eqn:Ec.
    - apply strip_prefix_Some in Ec.
      pose proof (span_digits_app u) as A'. pose proof (span_digits_all u) as D'.
      destruct (span_digits u) as [d' r']. cbn [fst snd] in A', D'.
      destruct (is_empty d') eqn:N'.
      + exists (NewSide d CommaOnly). cbn [fst snd new_side_string new_side_integers].
        repeat split; try assumption.
        destruct d'; [|discriminate]. cbn [append] in A'. subst r'.
        rewrite Ep, <- A, Ec, !app_assoc_s. reflexivity.
      + exists (NewSide d (CommaLength d')).
        cbn [fst snd new_side_string new_side_integers].
        repeat split; try assumption.
        rewrite Ep, <- A, Ec, <- A', !app_assoc_s. reflexivity.
    - exists (NewSide d NoComma). cbn [fst snd new_side_string new_side_integers].
      repeat split; try assumption.
      rewrite Ep, <- A, !app_assoc_s. reflexivity. }
  destruct Hnew as (ns & Hns & A3 & G57).
  destruct (opt_new_side s3) as [[g5 g7] s4]. cbn [fst snd] in A3, G57.
  injection G57 as -> ->.
  destruct (strip_prefix " @@" s4) as [trailing|] eqn:E4; [|discriminate].
  apply strip_prefix_Some in E4. injection H as <-.
  exists d1, len, ns, trailing.
  split; [split; assumption|]. split; [assumption|]. split; [assumption|].
  split; [|reflexivity].
  unfold header_text. rewrite E0, <- A1, A2, A3, E4, !app_assoc_s. reflexivity.
Qed.

Lemma Number_digits (s : string) :
  Number (Some (fst (span_digits s)))
  = nearest_double (decimal 0 (fst (span_digits s))).
Proof. unfold Number. now rewrite span_digits_all. Qed.

(** The optional length of the specification and [(,(\d+))?]. *)
Lemma spec_optional_length_code (s : string) :
  exists g,
    opt_comma_digits s = (g, snd (spec_optional_length s)) /\
    bitor0 (Number g) = bitor0 (nearest_double (fst (spec_optional_length s))).
Proof.
  unfold opt_comma_digits, spec_optional_length, spec_integer.
  destruct (strip_prefix "," s) as [t|]; [|exists None; split; reflexivity].
  pose proof (Number_digits t) as Hn.
  destruct (span_digits t) as [d r]. cbn [fst] in Hn.
  destruct (is_empty d).
  - exists None. split; reflexivity.
  - exists (Some d). cbn [fst snd]. split; [reflexivity | now rewrite Hn].
Qed.

(** The new side of the specification and [( \+(\d+)(,(\d+)?)?)?]. *)
Lemma spec_new_side_code (s3 s4 d5 s5 x : string) :
  strip_prefix " +" s3 = Some s4 ->
  span_digits s4 = (d5, s5) ->
  is_empty d5 = false ->
  strip_prefix " @@" (snd (spec_optional_length s5)) = Some x ->
  exists g7,
    opt_new_side s3 = (Some d5, g7, snd (spec_optional_length s5)) /\
    bitor0 (Number g7) = bitor0 (nearest_double (fst (spec_optional_length s5))).
Proof.
  intros Hp Hs Hd Hx. unfold opt_new_side. rewrite Hp, Hs, Hd.
  unfold spec_optional_length, spec_integer in *.
  destruct (strip_prefix "," s5) as [u|] eqn:Ec;
    [|exists None; split; reflexivity].
  pose proof (Number_digits u) as Hn.
  destruct (span_digits u) as [d' r']. cbn [fst] in Hn.
  destruct (is_empty d').
  - cbn [snd] in Hx. apply strip_prefix_Some in Ec. subst s5. discriminate Hx.
  - exists (Some d'). cbn [fst snd]. split; [reflexivity | now rewrite Hn].
Qed.

(** A header of the specification is a header of the code, with the same
    four numbers. *)
Lemma spec_header_code (line : string) (o ol n nl : Z) :
  spec_header line = Some (o, ol, n, nl) ->
  exists g,
    header_at line = Some g /\
    decode_groups g
    = (nearest_double o, bitor0 (nearest_double ol),
       nearest_double n, bitor0 (nearest_double nl)).
Proof.
  unfold spec_header, header_at. intros H.
  destruct (strip_prefix "@@ -" line) as [s1|]; [|discriminate].
  unfold spec_integer in H at 1.
  pose proof (Number_digits s1) as Hn1.
  destruct (span_digits s1) as [d1 s2]. cbn [fst] in Hn1.
  destruct (is_empty d1); [discriminate|].
  destruct (spec_optional_length_code s2) as (g3 & Hg3 & Hv3). rewrite Hg3.
  destruct (spec_optional_length s2) as [v3 s3]. cbn [fst snd] in *.
  destruct (strip_prefix " +" s3) as [s4|] eqn:Ep; [|discriminate].
  unfold spec_integer in H at 1.
  pose proof (Number_digits s4) as Hn5.
  destruct (span_digits s4) as [d5 s5] eqn:Es4. cbn [fst] in Hn5.
  destruct (is_empty d5) eqn:Ed5; [discriminate|].
  destruct (spec_optional_length s5) as [v7 s6] eqn:E7.
  destruct (strip_prefix " @@" s6) as [x|] eqn:Ex; [|discriminate].
  injection H as <- <- <- <-.
  destruct (@spec_new_side_code s3 s4 d5 s5 x Ep Es4 Ed5) as (g7 & Hg7 & Hv7);
    [rewrite E7; exact Ex|].
  rewrite Hg7, E7. cbn [snd]. rewrite Ex.
  eexists. split; [reflexivity|]. unfold decode_groups.
  rewrite E7 in Hv7. cbn [fst] in Hv7. now rewrite Hn1, Hn5, Hv3, Hv7.
Qed.

Lemma find_header_at (line : string) (g : groups) :
  header_at line = Some g -> find_header line = Some g.
Proof. intros H. destruct line; cbn [find_header]; now rewrite H. Qed.

Lemma bitor0_small (z : Z) :
  (- 2 ^ 31 <= z < 2 ^ 31)%Z -> bitor0 (Num z) = z.
Proof.
  intros H. unfold bitor0. rewrite Z.mod_small; lia.
Qed.

Lemma spec_integer_nonneg (s r : string) (v : Z) :
  spec_integer s = Some (v, r) -> (0 <= v)%Z.
Proof.
  unfold spec_integer. pose proof (span_digits_all s) as Hd.
  destruct (span_digits s) as [d r']. cbn [fst] in Hd.
  destruct (is_empty d); [discriminate|]. intros H. injection H as <- _.
  apply decimal_nonneg; [lia | exact Hd].
Qed.

Lemma spec_optional_length_nonneg (s : string) :
  (0 <= fst (spec_optional_length s))%Z.
Proof.
  unfold spec_optional_length.
  destruct (strip_prefix "," s) as [t|]; [|cbn; lia].
  destruct (spec_integer t) as [[v r]|] eqn:E; [|cbn; lia].
  cbn [fst]. exact (spec_integer_nonneg _ E).
Qed.

Lemma spec_header_nonneg (line : string) (o ol n nl : Z) :
  spec_header line = Some (o, ol, n, nl) ->
  (0 <= o)%Z /\ (0 <= ol)%Z /\ (0 <= n)%Z /\ (0 <= nl)%Z.
Proof.
  unfold spec_header. intros H.
  destruct (strip_prefix "@@ -" line) as [s1|]; [|discriminate].
  destruct (spec_integer s1) as [[v1 s2]|] eqn:E1; [|discriminate].
  pose proof (spec_optional_length_nonneg s2) as H3.
  destruct (spec_optional_length s2) as [v3 s3]. cbn [fst] in H3.
  destruct (strip_prefix " +" s3) as [s4|]; [|discriminate].
  destruct (spec_integer s4) as [[v5 s5]|] eqn:E5; [|discriminate].
  pose proof (spec_optional_length_nonneg s5) as H7.
  destruct (spec_optional_length s5) as [v7 s6]. cbn [fst] in H7.
  destruct (strip_prefix " @@" s6); [|discriminate].
  injection H as <- <- <- <-.
  pose proof (spec_integer_nonneg _ E1). pose proof (spec_integer_nonneg _ E5).
  auto.
Qed.

(** A start up to 2^53 and a length below 2^31 are decoded as they are. *)
Lemma start_exact (z : Z) :
  (0 <= z <= 2 ^ 53)%Z -> nearest_double z = Num z.
Proof. intros H. apply nearest_double_small. lia. Qed.

Lemma length_exact (z : Z) :
  (0 <= z < 2 ^ 31)%Z -> bitor0 (nearest_double z) = z.
Proof.
  intros H. rewrite nearest_double_small by lia. apply bitor0_small. lia.
Qed.

(** On a line that is not a header the loop yields no hunk and leaves the
    four numbers of the open hunk as they are. *)
Lemma plain_step_fields (st : locals) (line : string) (st' : locals) :
  DIFF_HUNK_HEADER_test line = false ->
  parseDiffHunk_step st line = Return st' ->
  yielded st' = yielded st /\
  option_map hunk_fields (diffHunk st') = option_map hunk_fields (diffHunk st).
Proof.
  intros Et H. unfold parseDiffHunk_step in H. rewrite Et in H.
  assert (Hb : forall x, yielded (bump_position x) = yielded x /\
                         diffHunk (bump_position x) = diffHunk x).
  { intros x. unfold bump_position.
    destruct (negb (positionInHunk x =? -1)%Z); split; reflexivity. }
  destruct (diffHunk st) as [hunk|] eqn:Eh.
  - unfold content_branch in H.
    destruct (DiffChangeType_eqb (getDiffChangeType line) Control).
    + destruct (0 <? List.length (DiffHunk.diffLines hunk)).
      * destruct (clear_last_endwithLineBreak (DiffHunk.diffLines hunk));
          cbn [bind] in H; try discriminate.
        injection H as <-. destruct (Hb (Locals (Some (DiffHunk.set_diffLines a hunk))
          (positionInHunk st) (oldLine st) (newLine st) (yielded st))) as [-> ->].
        split; reflexivity.
      * cbn [bind] in H. injection H as <-. destruct (Hb st) as [-> ->].
        rewrite Eh. split; reflexivity.
    + rewrite countCarriageReturns_count in H. cbn [bind] in H.
      destruct (getDiffChangeType line); cbn [bind] in H; injection H as <-;
        match goal with |- context [bump_position ?x] =>
          destruct (Hb x) as [-> ->] end;
        split; reflexivity.
  - cbn [bind] in H. injection H as <-. destruct (Hb st) as [-> ->].
    rewrite Eh. split; reflexivity.
Qed.

End Header.

(** C1, as it holds.  A line that begins with a text of the pattern of the
    code is recognized as a header: ["@@ -"], an integer, optionally a comma
    and an integer, optionally the new side ([" +"], an integer, optionally a
    comma with or without an integer), then [" @@"]; what follows is ignored.
    A line that holds no such text is not recognized.  On recognition the
    parser decodes the match and opens a hunk with its numbers: the original
    start and the new start as [Number] reads them, the new start being [NaN]
    when the new side is absent, and the two lengths through [| 0], 0 when
    absent.  A line that is a header in the words of the specification is
    one in the code, and its four integers are decoded as they are when the
    starts are at most 2^53 and the lengths below 2^31.  On a line that is
    not recognized nothing is decoded: no hunk is yielded or opened, and the
    numbers of the open hunk stay. *)
Theorem header_recognition :
  (forall start len ns trailing,
      is_integer start -> optional_integer len -> new_side_integers ns ->
      DIFF_HUNK_HEADER_test (header_text start len ns ++ trailing) = true /\
      header_fields (header_text start len ns ++ trailing)
      = Some (decode_groups (groups_of start len ns))) /\
  (forall line,
      (forall pre start len ns trailing,
          is_integer start -> optional_integer len -> new_side_integers ns ->
          line <> pre ++ header_text start len ns ++ trailing) ->
      DIFF_HUNK_HEADER_test line = false) /\
  (forall line o ol n nl,
      spec_header line = Some (o, ol, n, nl) ->
      DIFF_HUNK_HEADER_test line = true /\
      header_fields line
      = Some (nearest_double o, bitor0 (nearest_double ol),
              nearest_double n, bitor0 (nearest_double nl))) /\
  (forall line o ol n nl,
      spec_header line = Some (o, ol, n, nl) ->
      (o <= 2 ^ 53)%Z -> (ol < 2 ^ 31)%Z -> (n <= 2 ^ 53)%Z -> (nl < 2 ^ 31)%Z ->
      header_fields line = Some (Num o, ol, Num n, nl)) /\
  (forall st line,
      DIFF_HUNK_HEADER_test line = true ->
      exists st' h,
        parseDiffHunk_step st line = Return st' /\
        diffHunk st' = Some h /\
        header_fields line = Some (hunk_fields h) /\
        oldLine st' = DiffHunk.oldLineNumber h /\
        newLine st' = DiffHunk.newLineNumber h) /\
  (forall st line st',
      DIFF_HUNK_HEADER_test line = false ->
      header_fields line = None /\
      (parseDiffHunk_step st line = Return st' ->
       yielded st' = yielded st /\
       option_map hunk_fields (diffHunk st')
       = option_map hunk_fields (diffHunk st))).
Proof.
  assert (Hspec : forall line o ol n nl,
             spec_header line = Some (o, ol, n, nl) ->
             DIFF_HUNK_HEADER_test line = true /\
             header_fields line
             = Some (nearest_double o, bitor0 (nearest_double ol),
                     nearest_double n, bitor0 (nearest_double nl))).
  { intros line o ol n nl H.
    destruct (spec_header_code _ H) as (g & Hg & Hd).
    apply find_header_at in Hg.
    rewrite test_find_header, exec_find_header, Hg. cbn [option_map].
    now rewrite Hd. }
  split; [|split; [|split; [|split; [|split]]]].
  - intros start len ns trailing H1 H2 H3.
    pose proof (@find_header_at _ _ (@header_at_text start len ns trailing H1 H2 H3)) as Hf.
    rewrite test_find_header, exec_find_header, Hf. split; reflexivity.
  - intros line Hno. rewrite test_find_header.
    destruct (find_header line) as [g|] eqn:Ef; [exfalso | reflexivity].
    assert (Hf : find_header line <> None) by congruence.
    apply find_header_somewhere in Hf. destruct Hf as (pre & rest & -> & Hr).
    destruct (header_at rest) as [g'|] eqn:Eg; [|congruence].
    destruct (@header_at_inv _ _ Eg)
      as (start & len & ns & trailing & H1 & H2 & H3 & -> & _).
    exact (Hno pre start len ns trailing H1 H2 H3 eq_refl).
  - exact Hspec.
  - intros line o ol n nl H Ho Hol Hn Hnl.
    destruct (spec_header_nonneg _ H) as (Ho0 & Hol0 & Hn0 & Hnl0).
    rewrite (proj2 (Hspec _ _ _ _ _ H)).
    now rewrite !length_exact, !start_exact by lia.
  - intros st line Et.
    destruct (header_step st _ Et) as (m & Hm & Hs).
    rewrite Hs. cbv zeta. eexists _, _. split; [reflexivity|].
    split; [reflexivity|]. unfold header_fields. rewrite Hm.
    repeat split.
  - intros st line st' Et. split.
    + rewrite test_find_header in Et. rewrite exec_find_header.
      destruct (find_header line); [discriminate | reflexivity].
    + now apply plain_step_fields.
Qed.

Lemma header_recognition_witness :
  spec_header "@@ -12,3 +14,5 @@ function f()" = Some (12, 3, 14, 5)%Z /\
  DIFF_HUNK_HEADER_test "@@ -12,3 +14,5 @@ function f()" = true /\
  header_fields "@@ -12,3 +14,5 @@ function f()" = Some (Num 12, 3%Z, Num 14, 5%Z) /\
  header_fields "@@ -7 +8, @@" = Some (Num 7, 0%Z, Num 8, 0%Z) /\
  DIFF_HUNK_HEADER_test "-- a comment" = false /\
  (exists st' h,
      parseDiffHunk_step locals_init "@@ -12,3 +14,5 @@ function f()" = Return st' /\
      diffHunk st' = Some h /\
      hunk_fields h = (Num 12, 3%Z, Num 14, 5%Z)).
Proof.
  destruct header_recognition as (Htext & Hnone & Hspec & Hexact & Hstep & _).
  split; [reflexivity|].
  destruct (Hspec "@@ -12,3 +14,5 @@ function f()" 12 3 14 5 eq_refl)%Z as (Ht & _).
  pose proof (Hexact "@@ -12,3 +14,5 @@ function f()" 12 3 14 5 eq_refl)%Z as Hf.
  split; [exact Ht|]. split; [apply Hf; lia|]. split; [|split].
  - exact (proj2 (Htext "7" None (NewSide "8" CommaOnly) ""
                    (conj eq_refl eq_refl) I (conj (conj eq_refl eq_refl) I))).
  - apply Hnone. intros pre start len ns trailing _ _ _ H.
    apply (f_equal (has_char "@")) in H. revert H.
    replace (has_char "@" (pre ++ header_text start len ns ++ trailing)) with true;
      [discriminate|].
    symmetry. clear. induction pre as [|c pre IH]; [reflexivity|].
    cbn [append has_char]. rewrite IH. apply orb_true_r.
  - destruct (Hstep locals_init "@@ -12,3 +14,5 @@ function f()" Ht)
      as (st' & h & Hs & Hh & Hd & _).
    exists st', h. split; [exact Hs|]. split; [exact Hh|].
    rewrite Hf in Hd by lia.
    exact (f_equal (fun o => match o with Some x => x | None => hunk_fields h end)
             (eq_sym Hd)).
Defined.

(** C1, as stated, fails: the new side of the pattern is optional, and the
    numbers are those of JavaScript.  A line without a new side, which holds
    no plus at all, is recognized, with [NaN] as its new start; a length of
    2^32 is decoded as 0; and a start of 2^53 + 1 is decoded as 2^53. *)
Lemma header_recognition_counterexample :
  (DIFF_HUNK_HEADER_test "@@ -1 @@" = true /\
   spec_header "@@ -1 @@" = None /\
   has_char "+" "@@ -1 @@" = false /\
   header_fields "@@ -1 @@" = Some (Num 1, 0%Z, NaN, 0%Z)) /\
  (spec_header "@@ -1,4294967296 +1 @@" = Some (1, 4294967296, 1, 0)%Z /\
   header_fields "@@ -1,4294967296 +1 @@" = Some (Num 1, 0%Z, Num 1, 0%Z)) /\
  (spec_header "@@ -9007199254740993 +1 @@" = Some (9007199254740993, 0, 1, 0)%Z /\
   header_fields "@@ -9007199254740993 +1 @@"
   = Some (Num 9007199254740992, 0%Z, Num 1, 0%Z)).
Proof. vm_compute. repeat split. Qed.

(** The pattern has no anchor: a text of the pattern that stands after the
    first character of a line makes the line a header as well.  An added line
    whose text is such a header closes the hunk it is in and opens another. *)
Example header_not_anchored :
  DIFF_HUNK_HEADER_test "+@@ -1 +1 @@ x" = true /\
  spec_header "+@@ -1 +1 @@ x" = None /\
  option_map (@List.length _)
    (match parseDiffHunk ("@@ -1 +1 @@" ++ nl ++ " a" ++ nl ++ "+@@ -1 +1 @@ x") with
     | Return hunks => Some hunks
     | _ => None
     end) = Some 2 /\
  getModifiedContentFromDiffHunk "a"
    ("@@ -1 +1 @@" ++ nl ++ " a" ++ nl ++ "+@@ -1 +1 @@ x")
  = Return ("a" ++ nl ++ "a").
Proof. vm_compute. repeat split. Qed.

(** * Further properties *)

Unset Implicit Arguments.

(** ** The scanner and the split *)

Section Lines.

Lemma has_char_ends_with (c : ascii) (s : string) :
  has_char c s = false -> ends_with_char c s = false.
Proof.
  induction s as [|a s IH]; [reflexivity|]. simpl.
  destruct (Ascii.eqb a c); simpl; [discriminate|].
  intros H. destruct s; [reflexivity | auto].
Qed.

Lemma has_char_strip_last (c : ascii) (s : string) :
  has_char c s = false -> has_char c (strip_last s) = false.
Proof.
  induction s as [|a s IH]; [reflexivity|]. simpl.
  destruct (Ascii.eqb a c) eqn:E; simpl; [discriminate|].
  intros H. destruct s; [reflexivity|]. cbn [has_char]. rewrite E. apply IH. exact H.
Qed.

Lemma has_char_strip_cr (c : ascii) (s : string) :
  has_char c s = false -> has_char c (strip_cr s) = false.
Proof.
  intros H. unfold strip_cr. destruct (ends_with_char CR s); [|exact H].
  now apply has_char_strip_last.
Qed.

Lemma scan_lines_no_LF_inside (s : string) :
  forall cur, has_char LF cur = false ->
              Forall (fun l => has_char LF l = false) (scan_lines cur s).
Proof.
  induction s as [|c s IH]; intros cur Hcur; cbn [scan_lines].
  - destruct cur; [constructor | repeat constructor; exact Hcur].
  - destruct (Ascii.eqb c LF) eqn:E.
    + constructor; [now apply has_char_strip_cr | now apply IH].
    + apply IH. rewrite has_char_app, Hcur. simpl. now rewrite E.
Qed.

Lemma ends_with_char_cons (c a b : ascii) (s : string) :
  ends_with_char c (String a (String b s)) = ends_with_char c (String b s).
Proof. reflexivity. Qed.

Lemma is_empty_app_char (cur : string) (c : ascii) :
  is_empty (cur ++ String c "") = false.
Proof. destruct cur; reflexivity. Qed.

(** The number of lines, with a partial line [cur] in hand. *)
Lemma scan_lines_length (s : string) :
  forall cur,
    List.length (scan_lines cur s)
    = count_char LF s
      + (if match s with
            | EmptyString => is_empty cur
            | _ => ends_with_char LF s
            end
         then 0 else 1).
Proof.
  induction s as [|c s IH]; intros cur; cbn [scan_lines count_char].
  - destruct cur; reflexivity.
  - destruct (Ascii.eqb c LF) eqn:E.
    + cbn [List.length]. rewrite IH. destruct s; [simpl; now rewrite E | reflexivity].
    + rewrite IH. destruct s as [|c' s].
      * rewrite is_empty_app_char. simpl. now rewrite E.
      * rewrite ends_with_char_cons. reflexivity.
Qed.

(** Without carriage returns the lines, each with a line feed, are the text
    again, a line feed being added when the text stops in the middle of a
    line. *)
Lemma scan_lines_unlines (s : string) :
  forall cur,
    has_char CR cur = false -> has_char CR s = false ->
    unlines (scan_lines cur s)
    = if match s with
         | EmptyString => is_empty cur
         | _ => ends_with_char LF s
         end
      then cur ++ s else (cur ++ s) ++ nl.
Proof.
  induction s as [|c s IH]; intros cur Hcur Hs; cbn [scan_lines].
  - destruct cur; [reflexivity|]. cbn [is_empty unlines].
    now rewrite !app_empty_r.
  - cbn [has_char] in Hs. apply orb_false_elim in Hs. destruct Hs as [Hc Hs].
    destruct (Ascii.eqb c LF) eqn:E.
    + apply Ascii.eqb_eq in E. subst c. cbn [unlines].
      unfold strip_cr. rewrite (has_char_ends_with _ _ Hcur).
      rewrite (IH "" eq_refl Hs). cbn [append is_empty].
      destruct s as [|c' s].
      * reflexivity.
      * rewrite ends_with_char_cons.
        destruct (ends_with_char LF (String c' s)); unfold nl;
          rewrite ?app_assoc_s; reflexivity.
    + assert (Hcur' : has_char CR (cur ++ String c "") = false)
        by (rewrite has_char_app, Hcur; simpl; now rewrite Hc).
      rewrite (IH _ Hcur' Hs). rewrite is_empty_app_char.
      destruct s as [|c' s].
      * simpl. rewrite E. now rewrite !app_empty_r.
      * rewrite ends_with_char_cons.
        destruct (ends_with_char LF (String c' s)); rewrite ?app_assoc_s; reflexivity.
Qed.

(** Induction two characters at a time, as [split] reads a string. *)
Lemma string_pair_ind (P : string -> Prop) :
  P "" ->
  (forall c, P (String c "")) ->
  (forall c c' s, P s -> P (String c' s) -> P (String c (String c' s))) ->
  forall s, P s.
Proof.
  intros H0 H1 H2 s.
  assert (H : P s /\ forall c, P (String c s)).
  { induction s as [|c' s [IHs IHc]]; [split; auto|].
    split; [apply IHc|]. intros c. apply H2; [exact IHs | apply IHc]. }
  apply H.
Qed.

Lemma split_lines_LF (cur s : string) :
  split_lines cur (String LF s) = cur :: split_lines "" s.
Proof. reflexivity. Qed.

Lemma split_lines_CRLF (cur s : string) :
  split_lines cur (String CR (String LF s)) = cur :: split_lines "" s.
Proof. reflexivity. Qed.

Lemma split_lines_char (cur : string) (c c' : ascii) (s : string) :
  Ascii.eqb c LF = false ->
  Ascii.eqb c CR && Ascii.eqb c' LF = false ->
  split_lines cur (String c (String c' s))
  = split_lines (cur ++ String c "") (String c' s).
Proof. intros H1 H2. cbn [split_lines]. rewrite H1, H2. reflexivity. Qed.

Lemma scan_lines_LF_head (cur s : string) :
  scan_lines cur (String LF s) = strip_cr cur :: scan_lines "" s.
Proof. reflexivity. Qed.

Lemma scan_lines_char (cur : string) (c : ascii) (s : string) :
  Ascii.eqb c LF = false ->
  scan_lines cur (String c s) = scan_lines (cur ++ String c "") s.
Proof. intros H. cbn [scan_lines]. now rewrite H. Qed.

Lemma normalize_newlines_CRLF (s : string) :
  normalize_newlines (String CR (String LF s)) = String LF (normalize_newlines s).
Proof. reflexivity. Qed.

Lemma normalize_newlines_char (c c' : ascii) (s : string) :
  Ascii.eqb c CR && Ascii.eqb c' LF = false ->
  normalize_newlines (String c (String c' s))
  = String c (normalize_newlines (String c' s)).
Proof. intros H. cbn [normalize_newlines]. now rewrite H. Qed.

Lemma split_lines_not_nil (s cur : string) : split_lines cur s <> [].
Proof.
  revert cur. induction s as [|c | c c' s IHs IHc] using string_pair_ind;
    intros cur.
  - discriminate.
  - cbn [split_lines]. destruct (Ascii.eqb c LF); discriminate.
  - destruct (Ascii.eqb c LF) eqn:E.
    + apply Ascii.eqb_eq in E. subst c. rewrite split_lines_LF. discriminate.
    + destruct (Ascii.eqb c CR && Ascii.eqb c' LF) eqn:E2.
      * apply andb_prop in E2. destruct E2 as [Ec Ec'].
        apply Ascii.eqb_eq in Ec, Ec'. subst c c'. rewrite split_lines_CRLF.
        discriminate.
      * rewrite (@split_lines_char _ _ _ _ E E2). apply IHc.
Qed.

(** [split] and the scanner cut a text at the same places; [split] keeps the
    empty piece after a final terminator, the scanner does not. *)
Lemma split_lines_scan_lines (s : string) :
  forall cur,
    (ends_with_char CR cur = true ->
     match s with String c _ => Ascii.eqb c LF = false | EmptyString => True end) ->
    split_lines cur s
    = (scan_lines cur s
       ++ if match s with
             | EmptyString => is_empty cur
             | _ => ends_with_char LF s
             end
          then [""] else [])%list.
Proof.
  induction s as [|c | c c' s IHs IHc] using string_pair_ind; intros cur Hcur.
  - destruct cur; reflexivity.
  - cbn [split_lines scan_lines]. destruct (Ascii.eqb c LF) eqn:E.
    + unfold strip_cr. destruct (ends_with_char CR cur).
      * specialize (Hcur eq_refl). congruence.
      * simpl. now rewrite E.
    + simpl. rewrite E.
      destruct (cur ++ String c "") eqn:Ea; [destruct cur; discriminate | reflexivity].
  - destruct (Ascii.eqb c LF) eqn:E.
    + assert (Hs : strip_cr cur = cur).
      { unfold strip_cr. destruct (ends_with_char CR cur); [|reflexivity].
        specialize (Hcur eq_refl). congruence. }
      apply Ascii.eqb_eq in E. subst c.
      rewrite split_lines_LF, scan_lines_LF_head, Hs.
      rewrite (IHc "") by discriminate. reflexivity.
    + destruct (Ascii.eqb c CR && Ascii.eqb c' LF) eqn:E2.
      * apply andb_prop in E2. destruct E2 as [Ec Ec'].
        apply Ascii.eqb_eq in Ec, Ec'. subst c c'.
        rewrite split_lines_CRLF, (@scan_lines_char _ _ _ E), scan_lines_LF_head.
        unfold strip_cr. rewrite ends_with_app_char, Ascii.eqb_refl, strip_last_app_char.
        rewrite (IHs "") by discriminate.
        destruct s; reflexivity.
      * rewrite (@split_lines_char _ _ _ _ E E2), (@scan_lines_char _ _ _ E).
        rewrite (IHc (cur ++ String c "")).
        -- reflexivity.
        -- rewrite ends_with_app_char. intros Hc. rewrite Hc in E2. exact E2.
Qed.

Lemma join_cons (sep : string) (e : option string) (a : list (option string)) :
  a <> [] -> join sep (e :: a) = element_string e ++ sep ++ join sep a.
Proof. destruct a; [congruence | reflexivity]. Qed.

(** Split and joined again, a text has its CR LF turned into LF. *)
Lemma join_split_lines (s : string) :
  forall cur,
    join nl (map Some (split_lines cur s)) = cur ++ normalize_newlines s.
Proof.
  assert (Hne : forall cur t, map Some (split_lines cur t) <> []).
  { intros cur t H. apply map_eq_nil in H. now apply split_lines_not_nil in H. }
  induction s as [|c | c c' s IHs IHc] using string_pair_ind; intros cur.
  - cbn. now rewrite app_empty_r.
  - cbn [split_lines normalize_newlines]. destruct (Ascii.eqb c LF) eqn:E.
    + apply Ascii.eqb_eq in E. subst c. reflexivity.
    + reflexivity.
  - destruct (Ascii.eqb c LF) eqn:E.
    + apply Ascii.eqb_eq in E. subst c.
      rewrite split_lines_LF, normalize_newlines_char by reflexivity.
      cbn [map]. rewrite join_cons by apply Hne. rewrite IHc. reflexivity.
    + destruct (Ascii.eqb c CR && Ascii.eqb c' LF) eqn:E2.
      * apply andb_prop in E2. destruct E2 as [Ec Ec'].
        apply Ascii.eqb_eq in Ec, Ec'. subst c c'.
        rewrite split_lines_CRLF, normalize_newlines_CRLF.
        cbn [map]. rewrite join_cons by apply Hne. rewrite IHs. reflexivity.
      * rewrite (@split_lines_char _ _ _ _ E E2), (@normalize_newlines_char _ _ _ E2).
        rewrite IHc, app_assoc_s. reflexivity.
Qed.

Lemma normalize_newlines_no_CR (s : string) :
  has_char CR s = false -> normalize_newlines s = s.
Proof.
  induction s as [|c s IH]; [reflexivity|]. cbn [has_char].
  intros H. apply orb_false_elim in H. destruct H as [Hc Hs].
  destruct s as [|c' s]; [reflexivity|].
  rewrite normalize_newlines_char by (rewrite Hc; reflexivity).
  now rewrite (IH Hs).
Qed.

End Lines.

(** X1.  The scanner never yields a line with a line feed in it, and it
    yields one line for every line feed of the text, and one more when the
    text stops in the middle of a line. *)
Theorem LineReader_shape (text : string) :
  exists lines,
    LineReader text = Return lines /\
    Forall (fun l => has_char LF l = false) lines /\
    List.length lines = count_char LF text + (if ends_line text then 0 else 1).
Proof.
  exists (scan_lines "" text). split; [apply LineReader_scan|]. split.
  - now apply scan_lines_no_LF_inside.
  - rewrite scan_lines_length. unfold ends_line. destruct text; reflexivity.
Qed.

(** X2.  For a text without carriage returns the scan loses nothing: the
    lines, each followed by a line feed, are the text, with a line feed added
    when the text does not end with one. *)
Theorem LineReader_unlines (text : string) :
  has_char CR text = false ->
  exists lines,
    LineReader text = Return lines /\
    unlines lines = if ends_line text then text else text ++ nl.
Proof.
  intros H. exists (scan_lines "" text). split; [apply LineReader_scan|].
  rewrite (@scan_lines_unlines text "" eq_refl H). unfold ends_line.
  destruct text; reflexivity.
Qed.

Lemma LineReader_unlines_witness :
  exists lines,
    LineReader ("@@ -1 +1 @@" ++ nl ++ "-a" ++ nl ++ "+b") = Return lines /\
    unlines lines = "@@ -1 +1 @@" ++ nl ++ "-a" ++ nl ++ "+b" ++ nl.
Proof.
  destruct (@LineReader_unlines ("@@ -1 +1 @@" ++ nl ++ "-a" ++ nl ++ "+b") eq_refl)
    as (lines & H1 & H2).
  exists lines. split; [exact H1 | exact H2].
Defined.

(** X3.  [split(/\r?\n/)] and the scanner cut a text into the same lines,
    but that [split] gives one more, empty, piece when the text is empty or
    ends with a terminator. *)
Theorem split_lines_LineReader (text : string) :
  exists lines,
    LineReader text = Return lines /\
    split_lines "" text = (lines ++ if ends_line text then [""] else [])%list.
Proof.
  exists (scan_lines "" text). split; [apply LineReader_scan|].
  rewrite split_lines_scan_lines by discriminate. unfold ends_line.
  destruct text; reflexivity.
Qed.

(** X4.  What the reconstruction does to line ends: the split original
    content joined again is the content with every CR LF turned into LF, so
    that a patch without a hunk gives back the content with its line ends
    normalized, and unchanged when it holds no carriage return. *)
Theorem reconstruction_normalizes (originalContent patch : string) :
  parseDiffHunk patch = Return [] ->
  join nl (map Some (split_lines "" originalContent))
  = normalize_newlines originalContent /\
  getModifiedContentFromDiffHunk originalContent patch
  = Return (normalize_newlines originalContent) /\
  (has_char CR originalContent = false ->
   getModifiedContentFromDiffHunk originalContent patch = Return originalContent).
Proof.
  intros H.
  assert (Hj : join nl (map Some (split_lines "" originalContent))
               = normalize_newlines originalContent) by apply join_split_lines.
  assert (Hg : getModifiedContentFromDiffHunk originalContent patch
               = Return (normalize_newlines originalContent)).
  { unfold getModifiedContentFromDiffHunk. rewrite H. cbn [bind].
    unfold modified_lines. cbn [splice_hunks bind fst snd].
    rewrite copy_tail_all. cbn [bind app]. now rewrite Hj. }
  split; [exact Hj|]. split; [exact Hg|].
  intros Hcr. now rewrite Hg, normalize_newlines_no_CR.
Qed.

Lemma reconstruction_normalizes_witness :
  getModifiedContentFromDiffHunk ("a" ++ crlf ++ "b" ++ crlf) ""
  = Return ("a" ++ nl ++ "b" ++ nl) /\
  getModifiedContentFromDiffHunk ("a" ++ nl ++ "b") "" = Return ("a" ++ nl ++ "b").
Proof.
  split.
  - rewrite (proj1 (proj2 (@reconstruction_normalizes ("a" ++ crlf ++ "b" ++ crlf) ""
                             eq_refl))).
    reflexivity.
  - apply (proj2 (proj2 (@reconstruction_normalizes ("a" ++ nl ++ "b") "" eq_refl))).
    reflexivity.
Defined.

(** ** The hunks of a patch and its lines *)

Section HunkLines.

Lemma finish_snoc (st : locals) (h : DiffHunk.t) :
  diffHunk st = Some h -> parseDiffHunk_finish st = (yielded st ++ [h])%list.
Proof. intros H. unfold parseDiffHunk_finish. now rewrite H. Qed.

Lemma kind_and_raw_stamps (ls ls' : list DiffLine.t) :
  map stamp ls' = map stamp ls -> map kind_and_raw ls' = map kind_and_raw ls.
Proof.
  intros H.
  assert (E : forall x, map kind_and_raw x
                        = map (fun s => (fst (fst s), snd s)) (map stamp x)).
  { intros x. rewrite map_map. reflexivity. }
  now rewrite !E, H.
Qed.

(** One line with a hunk open. *)
Lemma open_step_lines (st : locals) (line : string) (st' : locals) :
  diffHunk st <> None -> (0 <= positionInHunk st)%Z ->
  parseDiffHunk_step st line = Return st' ->
  diffHunk st' <> None /\ (0 <= positionInHunk st')%Z /\
  map kind_and_raw (all_diffLines (parseDiffHunk_finish st'))
  = (map kind_and_raw (all_diffLines (parseDiffHunk_finish st))
     ++ map (fun l => (line_kind l, l)) (filter makes_DiffLine [line]))%list /\
  List.length (parseDiffHunk_finish st')
  = List.length (parseDiffHunk_finish st)
    + List.length (filter DIFF_HUNK_HEADER_test [line]).
Proof.
  intros Hopen Hpos Hstep. cbn [filter].
  destruct (DIFF_HUNK_HEADER_test line) eqn:Et.
  - assert (Hm : makes_DiffLine line = true) by (unfold makes_DiffLine; now rewrite Et).
    assert (Hk : line_kind line = Control) by (unfold line_kind; now rewrite Et).
    rewrite Hm. cbn [map List.length]. rewrite Hk.
    destruct (header_step st _ Et) as (m & _ & Hs). rewrite Hs in Hstep.
    cbv zeta in Hstep. injection Hstep as <-.
    rewrite finish_open. cbn [diffHunk positionInHunk].
    rewrite all_diffLines_snoc, map_app, List.length_app. cbn [DiffHunk.diffLines].
    split; [discriminate|]. split; [|split; reflexivity].
    destruct (positionInHunk st =? -1)%Z; lia.
  - destruct (diffHunk st) as [h|] eqn:Hh; [|congruence].
    destruct (nonheader_step st line Et Hh Hpos) as (ls' & o' & n' & Hs & Hcase).
    rewrite Hs in Hstep. injection Hstep as <-.
    rewrite finish_open, (finish_snoc _ _ Hh), !all_diffLines_snoc, !map_app.
    cbn [diffHunk positionInHunk DiffHunk.diffLines DiffHunk.set_diffLines].
    split; [discriminate|]. split; [lia|].
    rewrite !List.length_app. cbn [List.length]. split; [|lia].
    destruct Hcase as [(Hc & Hsame) | (Hc & l & -> & Hl)].
    + assert (Hm : makes_DiffLine line = false)
        by (unfold makes_DiffLine; now rewrite Et, Hc).
      rewrite Hm. cbn [map].
      now rewrite (kind_and_raw_stamps _ _ Hsame), app_nil_r.
    + assert (Hm : makes_DiffLine line = true).
      { unfold makes_DiffLine. rewrite Et.
        destruct (getDiffChangeType line); try reflexivity; congruence. }
      assert (Hk : line_kind line = getDiffChangeType line)
        by (unfold line_kind; now rewrite Et).
      rewrite Hm, map_app, app_assoc. cbn [map]. rewrite Hk.
      unfold stamp in Hl. injection Hl as Hl1 _ Hl2.
      unfold kind_and_raw at 3. now rewrite Hl1, Hl2.
Qed.

Lemma open_loop_lines (lines : list string) :
  forall st st',
    diffHunk st <> None -> (0 <= positionInHunk st)%Z ->
    parseDiffHunk_loop st lines = Return st' ->
    map kind_and_raw (all_diffLines (parseDiffHunk_finish st'))
    = (map kind_and_raw (all_diffLines (parseDiffHunk_finish st))
       ++ map (fun l => (line_kind l, l)) (filter makes_DiffLine lines))%list /\
    List.length (parseDiffHunk_finish st')
    = List.length (parseDiffHunk_finish st)
      + List.length (filter DIFF_HUNK_HEADER_test lines).
Proof.
  induction lines as [|line lines IH]; intros st st' Hopen Hpos H; simpl in H.
  - injection H as <-. cbn [filter map List.length]. now rewrite app_nil_r, Nat.add_0_r.
  - destruct (parseDiffHunk_step st line) as [st1| |] eqn:E; cbn [bind] in H;
      try discriminate.
    destruct (open_step_lines _ _ _ Hopen Hpos E) as (Hopen1 & Hpos1 & Hk1 & Hl1).
    destruct (IH _ _ Hopen1 Hpos1 H) as (Hk & Hl).
    rewrite Hk, Hk1, Hl, Hl1.
    change (line :: lines) with ([line] ++ lines)%list.
    rewrite !filter_app, map_app, List.length_app, <- app_assoc. split; [reflexivity | lia].
Qed.

(** The whole loop: the lines in front of the first header are dropped. *)
Lemma loop_lines (lines : list string) (st : locals) :
  parseDiffHunk_loop locals_init lines = Return st ->
  map kind_and_raw (all_diffLines (parseDiffHunk_finish st))
  = map (fun l => (line_kind l, l)) (filter makes_DiffLine (drop_until_header lines)) /\
  List.length (parseDiffHunk_finish st)
  = List.length (filter DIFF_HUNK_HEADER_test lines).
Proof.
  induction lines as [|line lines IH]; intros H.
  - simpl in H. injection H as <-. split; reflexivity.
  - cbn [drop_until_header filter]. destruct (DIFF_HUNK_HEADER_test line) eqn:Et.
    + simpl in H.
      destruct (parseDiffHunk_step locals_init line) as [st1| |] eqn:E;
        cbn [bind] in H; try discriminate.
      assert (E' := E).
      destruct (header_step locals_init _ Et) as (m & _ & Hs). rewrite Hs in E'.
      cbn in E'. injection E' as E'.
      assert (Hopen : diffHunk st1 <> None) by (rewrite <- E'; discriminate).
      assert (Hpos : (0 <= positionInHunk st1)%Z) by (rewrite <- E'; cbn; lia).
      destruct (open_loop_lines _ _ _ Hopen Hpos H) as (Hk & Hl).
      assert (Hm : makes_DiffLine line = true)
        by (unfold makes_DiffLine; now rewrite Et).
      assert (Hkd : line_kind line = Control) by (unfold line_kind; now rewrite Et).
      rewrite Hk, Hl, <- E'. cbn [filter]. rewrite ?Hm, ?Et. cbn [map]. rewrite Hkd.
      split; reflexivity.
    + simpl in H. rewrite (idle_step _ Et) in H. cbn [bind] in H. now apply IH.
Qed.

End HunkLines.

(** X5.  The lines of the hunks of a patch are, in order, the scanned lines
    from the first header on that are headers or start with a space, a plus or
    a minus: each keeps its text, a header is a [Control] line and any other
    has the type its first character gives.  There is one hunk for every
    header line. *)
Theorem parseDiffHunk_keeps_lines (patch : string) :
  exists lines hunks,
    LineReader patch = Return lines /\
    parseDiffHunk patch = Return hunks /\
    map kind_and_raw (all_diffLines hunks)
    = map (fun l => (line_kind l, l)) (filter makes_DiffLine (drop_until_header lines)) /\
    List.length hunks = List.length (filter DIFF_HUNK_HEADER_test lines).
Proof.
  exists (scan_lines "" patch).
  destruct (parseDiffHunk_loop_returns (scan_lines "" patch) locals_init) as (st & Hst).
  exists (parseDiffHunk_finish st).
  split; [apply LineReader_scan|].
  split; [rewrite parseDiffHunk_lines, Hst; reflexivity|].
  now apply loop_lines.
Qed.

(** ** The numbers of a hunk *)

Section HunkFields.

Lemma finish_bump (st : locals) :
  parseDiffHunk_finish (bump_position st) = parseDiffHunk_finish st.
Proof.
  unfold bump_position. destruct (negb (positionInHunk st =? -1)%Z); reflexivity.
Qed.

Lemma decoded_from_header_kept (h : DiffHunk.t) (ls' : list DiffLine.t) :
  decoded_from_header h ->
  (map stamp ls' = map stamp (DiffHunk.diffLines h) \/
   exists l, ls' = (DiffHunk.diffLines h ++ [l])%list) ->
  decoded_from_header (DiffHunk.set_diffLines ls' h).
Proof.
  intros (l0 & ls0 & Hd & Hf) H. rewrite Hd in H. unfold decoded_from_header.
  change (hunk_fields (DiffHunk.set_diffLines ls' h)) with (hunk_fields h).
  cbn [DiffHunk.diffLines DiffHunk.set_diffLines].
  destruct H as [H | (l & ->)].
  - destruct ls' as [|l' ls']; [discriminate|].
    simpl in H. unfold stamp in H at 1 2. injection H as _ _ Hraw _.
    exists l', ls'. split; [reflexivity|]. now rewrite Hraw.
  - exists l0, (ls0 ++ [l])%list. split; [reflexivity | exact Hf].
Qed.

Lemma fields_invariant_step (st : locals) (line : string) (st' : locals) :
  fields_invariant st ->
  parseDiffHunk_step st line = Return st' ->
  fields_invariant st'.
Proof.
  intros (Hps & Hdec) Hstep.
  split; [exact (@position_started_step st line st' Hps Hstep)|].
  destruct Hps as (_ & Hopen).
  destruct (DIFF_HUNK_HEADER_test line) eqn:Et.
  - destruct (header_step st _ Et) as (m & Hm & Hs). rewrite Hs in Hstep.
    cbv zeta in Hstep. injection Hstep as <-. rewrite finish_open.
    apply Forall_app. split; [exact Hdec|]. constructor; [|constructor].
    eexists _, _. split; [reflexivity|]. cbn [DiffLine.raw].
    unfold header_fields. rewrite Hm. reflexivity.
  - destruct (diffHunk st) as [h|] eqn:Hh.
    + destruct (nonheader_step st line Et Hh) as (ls' & o' & n' & Hs & Hcase);
        [apply Hopen; discriminate|].
      rewrite Hs in Hstep. injection Hstep as <-.
      rewrite finish_open. rewrite (finish_snoc _ _ Hh) in Hdec.
      apply Forall_app in Hdec. destruct Hdec as (HdY & HdH).
      inversion HdH as [|? ? HdH' _]; subst.
      apply Forall_app. split; [exact HdY|]. constructor; [|constructor].
      apply decoded_from_header_kept; [exact HdH'|].
      destruct Hcase as [(_ & Hsame) | (_ & l & -> & _)]; eauto.
    + unfold parseDiffHunk_step in Hstep. rewrite Et, Hh in Hstep.
      cbn [bind] in Hstep. injection Hstep as <-. now rewrite finish_bump.
Qed.

Lemma find_header_at_some (line : string) (g : groups) :
  find_header line = Some g -> exists rest, header_at rest = Some g.
Proof.
  induction line as [|c line IH]; cbn [find_header].
  - destruct (header_at "") eqn:E; [|discriminate]. intros H. injection H as <-. eauto.
  - destruct (header_at (String c line)) eqn:E.
    + intros H. injection H as <-. eauto.
    + exact IH.
Qed.

Lemma Number_integer (d : string) :
  is_integer d -> natural_number (Number (Some d)).
Proof.
  intros (_ & Hd). unfold Number, natural_number. rewrite Hd.
  pose proof (@decimal_nonneg d 0%Z (Z.le_refl 0) Hd) as H0.
  apply nearest_double_at_least; lia.
Qed.

Lemma bitor0_int32 (x : number) : int32 (bitor0 x).
Proof.
  unfold int32, bitor0. destruct x as [|z| |]; try lia.
  pose proof (Z.mod_pos_bound (z + 2 ^ 31) (2 ^ 32)). lia.
Qed.

(** What a header can decode to. *)
Lemma header_fields_range (line : string) (o : number) (ol : Z) (n : number) (nl' : Z) :
  header_fields line = Some (o, ol, n, nl') ->
  natural_number o /\ int32 ol /\ (n = NaN \/ natural_number n) /\ int32 nl'.
Proof.
  rewrite exec_find_header. destruct (find_header line) as [g|] eqn:Eg; [|discriminate].
  destruct (find_header_at_some _ _ Eg) as (rest & Hr).
  destruct (@header_at_inv rest g Hr) as (start & len & ns & trailing & H1 & H2 & H3 & _ & ->).
  cbn [option_map]. unfold decode_groups, groups_of. intros H. injection H as <- <- <- <-.
  split; [now apply Number_integer|]. split; [apply bitor0_int32|].
  split; [|apply bitor0_int32].
  destruct ns as [|d l]; [now left | right].
  destruct H3 as (Hd & _). now apply Number_integer.
Qed.

End HunkFields.

(** X6.  The four numbers of every hunk are those decoded from the hunk's
    own first line, its header, as [Number] and [| 0] read them.  The
    original start is an integer that is not negative, or [Infinity]; the new
    start is such a number or [NaN]; and both lengths are signed 32-bit
    integers. *)
Theorem parseDiffHunk_hunk_fields (patch : string) :
  exists hunks,
    parseDiffHunk patch = Return hunks /\
    Forall (fun h =>
              decoded_from_header h /\
              natural_number (DiffHunk.oldLineNumber h) /\
              int32 (DiffHunk.oldLength h) /\
              (DiffHunk.newLineNumber h = NaN \/
               natural_number (DiffHunk.newLineNumber h)) /\
              int32 (DiffHunk.newLength h))
           hunks.
Proof.
  destruct (parseDiffHunk_loop_returns (scan_lines "" patch) locals_init) as (st & Hst).
  exists (parseDiffHunk_finish st).
  split; [rewrite parseDiffHunk_lines, Hst; reflexivity|].
  assert (Hinv : fields_invariant st).
  { apply (@parseDiffHunk_loop_invariant fields_invariant fields_invariant_step
             (scan_lines "" patch) locals_init st); [|exact Hst].
    split; [split; cbn; [lia | congruence] | constructor]. }
  destruct Hinv as (_ & Hdec).
  eapply Forall_impl; [|exact Hdec].
  intros h Hh. split; [exact Hh|].
  destruct Hh as (l & ls & _ & Hf). unfold hunk_fields in Hf.
  exact (header_fields_range _ _ _ _ _ Hf).
Qed.

(** ** The line numbers *)

Section LineNumbers.

Lemma clear_last_numbering (ls ls' : list DiffLine.t) :
  clear_last_endwithLineBreak ls = Return ls' -> map numbering ls' = map numbering ls.
Proof.
  destruct (snoc_cases ls) as [-> | (front & l & ->)].
  - discriminate.
  - rewrite clear_last_snoc. intros H. injection H as <-.
    rewrite !map_app. reflexivity.
Qed.

(** A line that is not a header, with a hunk open, whatever the position. *)
Lemma nonheader_step_exact (st : locals) (h : DiffHunk.t) (line : string) :
  DIFF_HUNK_HEADER_test line = false ->
  diffHunk st = Some h ->
  exists ls' cur',
    parseDiffHunk_step st line
    = Return (bump_position
                (Locals (Some (DiffHunk.set_diffLines ls' h)) (positionInHunk st)
                        (fst cur') (snd cur') (yielded st))) /\
    ((getDiffChangeType line = Control /\
      map numbering ls' = map numbering (DiffHunk.diffLines h) /\
      cur' = (oldLine st, newLine st)) \/
     (getDiffChangeType line <> Control /\
      ls' = (DiffHunk.diffLines h ++ [content_DiffLine st line])%list /\
      cur' = advance (getDiffChangeType line) (lineCount line) (oldLine st, newLine st))).
Proof.
  intros Et Hh.
  unfold parseDiffHunk_step. rewrite Et, Hh. unfold content_branch, content_DiffLine.
  destruct (getDiffChangeType line) eqn:Ety; cbn [DiffChangeType_eqb negb];
    try (rewrite countCarriageReturns_count; cbn [bind];
         eexists _, (_, _); split; [reflexivity|]; right;
         split; [discriminate|]; split; reflexivity).
  destruct (0 <? List.length (DiffHunk.diffLines h)) eqn:El.
  - apply Nat.ltb_lt in El.
    destruct (clear_last_returns _ El) as (ls' & Hc & _). rewrite Hc. cbn [bind].
    exists ls', (oldLine st, newLine st). split; [reflexivity|].
    left. split; [reflexivity|]. split; [now apply clear_last_numbering | reflexivity].
  - cbn [bind]. exists (DiffHunk.diffLines h), (oldLine st, newLine st). split.
    + destruct st as [d p o n y]. cbn in Hh |- *. subst d. destruct h; reflexivity.
    + left. repeat split.
Qed.

Lemma numbered_ext (ls : list DiffLine.t) :
  forall ls' cursors,
    map numbering ls' = map numbering ls ->
    (numbered cursors ls -> numbered cursors ls') /\
    cursors_after cursors ls' = cursors_after cursors ls.
Proof.
  induction ls as [|l ls IH]; intros [|l' ls'] cursors Hm; simpl in Hm;
    try discriminate Hm; [split; auto|].
  unfold numbering in Hm at 1 2. injection Hm as Hty Ho Hn Hraw Hm.
  cbn [numbered cursors_after]. rewrite Hty, Hraw.
  destruct (IH ls' (advance (DiffLine.type l) (lineCount (DiffLine.raw l)) cursors) Hm)
    as (Hnum & Hcur).
  split; [|exact Hcur].
  intros (Hat & Hrest). split; [|now apply Hnum].
  unfold numbers_at in *. now rewrite Hty, Ho, Hn.
Qed.

Lemma numbered_snoc (ls : list DiffLine.t) (l : DiffLine.t) :
  forall cursors,
    numbered cursors ls ->
    numbers_at (cursors_after cursors ls) l ->
    numbered cursors (ls ++ [l]) /\
    cursors_after cursors (ls ++ [l])
    = advance (DiffLine.type l) (lineCount (DiffLine.raw l)) (cursors_after cursors ls).
Proof.
  induction ls as [|a ls IH]; intros cursors Hn Hl.
  - cbn. auto.
  - cbn [app numbered cursors_after] in *. destruct Hn as (Ha & Hn).
    destruct (IH _ Hn Hl) as (H1 & H2). auto.
Qed.

Lemma content_DiffLine_numbers (st : locals) (line : string) :
  getDiffChangeType line <> Control ->
  numbers_at (oldLine st, newLine st) (content_DiffLine st line).
Proof.
  intros H. unfold numbers_at, content_DiffLine. cbn [DiffLine.type].
  destruct (getDiffChangeType line); try congruence; cbn; auto.
Qed.

Lemma numbering_invariant_step (st : locals) (line : string) (st' : locals) :
  numbering_invariant st ->
  parseDiffHunk_step st line = Return st' ->
  numbering_invariant st'.
Proof.
  intros (Hall & Hcur) Hstep.
  destruct (DIFF_HUNK_HEADER_test line) eqn:Et.
  - destruct (header_step st _ Et) as (m & _ & Hs). rewrite Hs in Hstep.
    cbv zeta in Hstep. injection Hstep as <-. split.
    + rewrite finish_open. apply Forall_app. split; [exact Hall|].
      constructor; [|constructor]. eexists _, []. cbn. repeat split.
    + cbn [diffHunk oldLine newLine]. intros h Hh. injection Hh as <-.
      eexists _, []. split; reflexivity.
  - destruct (diffHunk st) as [h|] eqn:Hh.
    + destruct (nonheader_step_exact st h line Et Hh) as (ls' & cur' & Hs & Hcase).
      rewrite Hs in Hstep. injection Hstep as <-.
      destruct (Hcur h eq_refl) as (hd & body & Hd & Hafter).
      rewrite (finish_snoc _ _ Hh) in Hall.
      apply Forall_app in Hall. destruct Hall as (HallY & HallH).
      inversion HallH as [|? ? Hnh _]; subst.
      destruct Hnh as (hd0 & body0 & Hd0 & Hty & Ho & Hn & Hnum).
      rewrite Hd in Hd0. injection Hd0 as <- <-.
      assert (Hnew : exists hd' body',
                 ls' = hd' :: body' /\
                 DiffLine.type hd' = Control /\
                 DiffLine.oldLineNumber hd' = Num (-1) /\
                 DiffLine.newLineNumber hd' = Num (-1) /\
                 numbered (DiffHunk.oldLineNumber h, DiffHunk.newLineNumber h) body' /\
                 cursors_after (DiffHunk.oldLineNumber h, DiffHunk.newLineNumber h) body'
                 = cur').
      { destruct Hcase as [(_ & Hsame & ->) | (Hc & -> & ->)].
        - rewrite Hd in Hsame. destruct ls' as [|hd' body']; [discriminate|].
          simpl in Hsame. unfold numbering in Hsame at 1 2.
          injection Hsame as H1 H2 H3 _ Hsame.
          destruct (numbered_ext body body'
                      (DiffHunk.oldLineNumber h, DiffHunk.newLineNumber h) Hsame)
            as (Hnum' & Hcur').
          exists hd', body'. repeat split; try congruence; auto.
        - rewrite Hd. exists hd, (body ++ [content_DiffLine st line])%list.
          destruct (numbered_snoc body (content_DiffLine st line) _ Hnum) as (H1 & H2).
          { rewrite Hafter. now apply content_DiffLine_numbers. }
          rewrite H2, Hafter. repeat split; auto. }
      destruct Hnew as (hd' & body' & -> & Hty' & Ho' & Hn' & Hnum' & Hcur').
      split.
      * rewrite finish_bump, finish_open. apply Forall_app. split; [exact HallY|].
        constructor; [|constructor]. exists hd', body'. repeat split; auto.
      * unfold bump_position. cbn [positionInHunk diffHunk oldLine newLine yielded].
        intros h' Hh'.
        assert (h' = DiffHunk.set_diffLines (hd' :: body') h).
        { destruct (negb (positionInHunk st =? -1)%Z); cbn in Hh'; congruence. }
        subst h'. exists hd', body'. split; [reflexivity|].
        cbn [DiffHunk.oldLineNumber DiffHunk.newLineNumber DiffHunk.set_diffLines].
        rewrite Hcur'.
        destruct (negb (positionInHunk st =? -1)%Z); cbn; now destruct cur'.
    + unfold parseDiffHunk_step in Hstep. rewrite Et, Hh in Hstep.
      cbn [bind] in Hstep. injection Hstep as <-. split.
      * now rewrite finish_bump.
      * intros h' Hh'. unfold bump_position in Hh'.
        destruct (negb (positionInHunk st =? -1)%Z); cbn in Hh'; congruence.
Qed.

End LineNumbers.

(** X7.  In every hunk the first line is the header, a [Control] line with
    -1 for both line numbers, and the lines after it are numbered by the two
    cursors, which start at the hunk's original and new start: a context line
    carries both cursors, an added line -1 and the new cursor, a deleted line
    the original cursor and -1, and each line moves the cursors of its sides
    by adding 1 + the number of its carriage returns, as JavaScript adds
    numbers.  No line after the first is a [Control] line. *)
Theorem parseDiffHunk_line_numbers (patch : string) :
  exists hunks,
    parseDiffHunk patch = Return hunks /\ Forall numbered_hunk hunks.
Proof.
  destruct (parseDiffHunk_loop_returns (scan_lines "" patch) locals_init) as (st & Hst).
  exists (parseDiffHunk_finish st).
  split; [rewrite parseDiffHunk_lines, Hst; reflexivity|].
  assert (Hinv : numbering_invariant st).
  { apply (@parseDiffHunk_loop_invariant numbering_invariant numbering_invariant_step
             (scan_lines "" patch) locals_init st); [|exact Hst].
    split; [constructor | discriminate]. }
  apply Hinv.
Qed.

(** ** Hunks in their place *)

Section Splice.

(** The lines of a segment of [left]. *)
Lemma pushes_segment (done seg rest : list string) :
  pushes (done ++ seg ++ rest)
    (count_from (Z.of_nat (List.length done) + 1) (List.length seg))
  = map Some seg.
Proof.
  unfold pushes, count_from. rewrite map_map, <- (seq_nth_error seg).
  apply map_ext_in. intros i Hi. apply in_seq in Hi. unfold array_get.
  replace (0 <=? Z.of_nat (List.length done) + 1 + Z.of_nat i - 1)%Z with true
    by (symmetry; apply Z.leb_le; lia).
  replace (Z.to_nat (Z.of_nat (List.length done) + 1 + Z.of_nat i - 1))
    with (List.length done + i) by lia.
  rewrite nth_error_app2 by lia.
  replace (List.length done + i - List.length done) with i by lia.
  apply nth_error_app1. lia.
Qed.

Lemma copy_tail_rest (done post : list string) :
  (Z.of_nat (List.length (done ++ post)) < 2 ^ 53)%Z ->
  copy_tail (done ++ post) (Num (Z.of_nat (List.length done)))
  = Return (map Some post).
Proof.
  intros Hb. unfold copy_tail. cbn [number_ltb].
  destruct (Z.of_nat (List.length done) <? Z.of_nat (List.length (done ++ post)))%Z eqn:E.
  - rewrite number_add_small by lia. cbn [for_range_through bind]. f_equal.
    replace (Z.to_nat (Z.of_nat (List.length (done ++ post)) + 1
                       - (Z.of_nat (List.length done) + 1)))
      with (List.length post) by (rewrite List.length_app; lia).
    apply pushes_rest.
  - apply Z.ltb_ge in E. rewrite List.length_app in E.
    destruct post; [reflexivity | simpl in E; lia].
Qed.

Lemma original_lines_length (segs : list segment) (post : list string) :
  List.length post <= List.length (original_lines segs post).
Proof.
  induction segs as [|[[pre mid] h] segs IH]; cbn [original_lines]; [lia|].
  rewrite !List.length_app. lia.
Qed.

(** The loop over placed hunks, with [done] covered already. *)
Lemma splice_placed (post : list string) (segs : list segment) :
  forall (done : list string) (right : list (option string)),
    placed (Z.of_nat (List.length done)) segs ->
    let left := (done ++ original_lines segs post)%list in
    (Z.of_nat (List.length left) < 2 ^ 53)%Z ->
    (acc <- splice_hunks left (map segment_hunk segs)
              (right, Num (Z.of_nat (List.length done))) ;;
     tail <- copy_tail left (snd acc) ;;
     Return (fst acc ++ tail)%list)
    = Return (right ++ map Some (spliced_lines segs post))%list.
Proof.
  induction segs as [|[[pre mid] h] segs IH]; intros done right Hp; cbv zeta; intros Hb.
  - cbn [map splice_hunks bind fst snd original_lines spliced_lines] in *.
    now rewrite copy_tail_rest.
  - cbn [placed] in Hp. destruct Hp as (Hs & Hl & Hp).
    cbn [map splice_hunks segment_hunk snd original_lines spliced_lines] in *.
    pose proof (original_lines_length segs post) as Hrest.
    rewrite !List.length_app in Hb.
    assert (Hstep : splice_hunk (done ++ pre ++ mid ++ original_lines segs post)
                      (right, Num (Z.of_nat (List.length done))) h
                    = Return ((right ++ map Some pre) ++ map Some (new_side h),
                              Num (Z.of_nat (List.length (done ++ pre ++ mid))))%list).
    { unfold splice_hunk, copy_lines. cbn [fst snd]. rewrite Hs, Hl.
      rewrite !number_add_small by lia. cbn [for_range bind].
      replace (Z.to_nat (Z.of_nat (List.length done) + Z.of_nat (List.length pre) + 1
                         - (Z.of_nat (List.length done) + 1)))
        with (List.length pre) by lia.
      rewrite pushes_segment. unfold new_side. do 3 f_equal.
      rewrite !List.length_app. lia. }
    rewrite Hstep. cbn [bind].
    replace (done ++ pre ++ mid ++ original_lines segs post)%list
      with ((done ++ pre ++ mid) ++ original_lines segs post)%list
      by (rewrite <- !app_assoc; reflexivity).
    rewrite (IH (done ++ pre ++ mid)%list).
    + rewrite !map_app, <- !app_assoc. reflexivity.
    + rewrite !List.length_app, !Nat2Z.inj_add, Z.add_assoc. exact Hp.
    + rewrite !List.length_app. lia.
Qed.

Lemma modified_lines_placed (segs : list segment) (post : list string) :
  placed 0 segs ->
  (Z.of_nat (List.length (original_lines segs post)) < 2 ^ 53)%Z ->
  modified_lines (original_lines segs post) (map segment_hunk segs)
  = Return (map Some (spliced_lines segs post)).
Proof.
  intros Hp Hb. unfold modified_lines.
  exact (splice_placed post segs [] [] Hp Hb).
Qed.

End Splice.

(** X8.  Hunks that stand in their places are spliced as a patch asks: when
    the original content, of fewer than 2^53 lines, is, hunk after hunk, some
    lines no hunk covers and then the lines the hunk covers, every hunk
    declaring the start and the length of what it covers, the new content is
    the uncovered lines with, in place of the covered ones, the context and
    added lines of the hunk.  The covered lines themselves are not looked
    at. *)
Theorem reconstruction_splices
    (originalContent patch : string) (segs : list segment) (post : list string) :
  parseDiffHunk patch = Return (map segment_hunk segs) ->
  split_lines "" originalContent = original_lines segs post ->
  (Z.of_nat (List.length (split_lines "" originalContent)) < 2 ^ 53)%Z ->
  placed 0 segs ->
  modified_lines (split_lines "" originalContent) (map segment_hunk segs)
  = Return (map Some (spliced_lines segs post)) /\
  getModifiedContentFromDiffHunk originalContent patch
  = Return (join nl (map Some (spliced_lines segs post))).
Proof.
  intros Hparse Hleft Hb Hp.
  assert (H : modified_lines (split_lines "" originalContent) (map segment_hunk segs)
              = Return (map Some (spliced_lines segs post)))
    by (rewrite Hleft in *; now apply modified_lines_placed).
  split; [exact H|].
  unfold getModifiedContentFromDiffHunk. rewrite Hparse. cbn [bind]. now rewrite H.
Qed.

(** Two hunks in a content of six lines: the second and the fifth line are
    replaced, the one by one line and the other by two. *)
Lemma reconstruction_splices_witness :
  getModifiedContentFromDiffHunk
    ("x" ++ nl ++ "b" ++ nl ++ "y" ++ nl ++ "z" ++ nl ++ "e" ++ nl ++ "w")
    ("@@ -2,1 +2,1 @@" ++ nl ++ "-b" ++ nl ++ "+B" ++ nl
     ++ "@@ -5,1 +5,2 @@" ++ nl ++ "-e" ++ nl ++ "+E" ++ nl ++ "+F")
  = Return ("x" ++ nl ++ "B" ++ nl ++ "y" ++ nl ++ "z" ++ nl ++ "E" ++ nl ++ "F"
            ++ nl ++ "w").
Proof.
  evar (h1 : DiffHunk.t). evar (h2 : DiffHunk.t).
  assert (Hp : parseDiffHunk
                 ("@@ -2,1 +2,1 @@" ++ nl ++ "-b" ++ nl ++ "+B" ++ nl
                  ++ "@@ -5,1 +5,2 @@" ++ nl ++ "-e" ++ nl ++ "+E" ++ nl ++ "+F")
               = Return (map segment_hunk [(["x"], ["b"], h1); (["y"; "z"], ["e"], h2)]))
    by (subst h1 h2; vm_compute; reflexivity).
  destruct (reconstruction_splices
              ("x" ++ nl ++ "b" ++ nl ++ "y" ++ nl ++ "z" ++ nl ++ "e" ++ nl ++ "w") _
              [(["x"], ["b"], h1); (["y"; "z"], ["e"], h2)] ["w"] Hp eq_refl)
    as (_ & H).
  - vm_compute. reflexivity.
  - cbn. repeat split.
  - rewrite H. reflexivity.
Defined.

(** A declared length beyond 2^53 is rounded before [| 0] wraps it: 2^53 + 1
    is read as 2^53, which wraps to 0, so that the hunk covers no line and the
    line it deletes stays. *)
Example reconstruction_rounded_length :
  header_fields "@@ -2,9007199254740993 +2,1 @@"
  = Some (Num 2, 0%Z, Num 2, 1%Z) /\
  getModifiedContentFromDiffHunk ("x" ++ nl ++ "b" ++ nl ++ "y")
    ("@@ -2,9007199254740993 +2,1 @@" ++ nl ++ "-b" ++ nl ++ "+B")
  = Return ("x" ++ nl ++ "B" ++ nl ++ "b" ++ nl ++ "y").
Proof. vm_compute. split; reflexivity. Qed.

(** ** A patch of one hunk, from its text to the new content *)

Section OneHunk.

Lemma filter_content_lines (body : list string) :
  Forall is_content_line body ->
  filter makes_DiffLine body = body /\
  filter DIFF_HUNK_HEADER_test body = [] /\
  map (fun l => (line_kind l, l)) body = map (fun l => (getDiffChangeType l, l)) body.
Proof.
  induction 1 as [|l body (Ht & Hc) _ (IH1 & IH2 & IH3)]; [repeat split|].
  cbn [filter map]. unfold makes_DiffLine at 1, line_kind at 1. rewrite Ht.
  assert (Hn : negb (DiffChangeType_eqb (getDiffChangeType l) Control) = true)
    by (destruct (getDiffChangeType l); try reflexivity; congruence).
  rewrite Hn, IH1, IH2, IH3. repeat split.
Qed.

Lemma new_side_of_body (body : list string) :
  Forall is_content_line body ->
  forall ls,
    map kind_and_raw ls = map (fun l => (getDiffChangeType l, l)) body ->
    flat_map kept_text ls = new_texts body.
Proof.
  unfold new_texts.
  induction 1 as [|l body (_ & Hc) _ IH]; intros [|x ls] Hm; simpl in Hm;
    try discriminate Hm; [reflexivity|].
  unfold kind_and_raw in Hm at 1. injection Hm as Hty Hraw Hm.
  cbn [flat_map filter]. rewrite (IH ls Hm).
  unfold kept_text, DiffLine.text. rewrite Hty, Hraw.
  destruct (getDiffChangeType l); try congruence; reflexivity.
Qed.

Lemma header_fields_test (line : string) (f : number * Z * number * Z) :
  header_fields line = Some f -> DIFF_HUNK_HEADER_test line = true.
Proof.
  unfold header_fields, DIFF_HUNK_HEADER_test.
  destruct (DIFF_HUNK_HEADER_exec line); [reflexivity | discriminate].
Qed.

(** The parse of a header and a body of content lines: one hunk. *)
Lemma single_hunk_parse (header : string) (body : list string) (st : locals) :
  DIFF_HUNK_HEADER_test header = true ->
  Forall is_content_line body ->
  parseDiffHunk_loop locals_init (header :: body) = Return st ->
  exists h,
    parseDiffHunk_finish st = [h] /\
    header_fields header = Some (hunk_fields h) /\
    new_side h = new_texts body.
Proof.
  intros Et Hbody Hloop.
  destruct (loop_lines _ _ Hloop) as (Hk & Hl).
  destruct (filter_content_lines body Hbody) as (F1 & F2 & F3).
  assert (Hm : makes_DiffLine header = true) by (unfold makes_DiffLine; now rewrite Et).
  assert (Hkd : line_kind header = Control) by (unfold line_kind; now rewrite Et).
  cbn [drop_until_header] in Hk. rewrite Et in Hk. cbn [filter] in Hk, Hl.
  rewrite Hm, F1 in Hk. rewrite Et, F2 in Hl. cbn [map List.length] in Hk, Hl.
  rewrite Hkd, F3 in Hk.
  assert (Hinv : fields_invariant st).
  { apply (@parseDiffHunk_loop_invariant fields_invariant fields_invariant_step
             (header :: body) locals_init st); [|exact Hloop].
    split; [split; cbn; [lia | congruence] | constructor]. }
  destruct Hinv as (_ & Hdec).
  destruct (parseDiffHunk_finish st) as [|h [|h' hs]]; try discriminate Hl.
  exists h. split; [reflexivity|].
  inversion Hdec as [|? ? (l & ls & Hd & Hf) _]; subst.
  unfold all_diffLines in Hk. cbn [flat_map] in Hk. rewrite app_nil_r, Hd in Hk.
  cbn [map] in Hk. unfold kind_and_raw in Hk at 1. injection Hk as Hty Hraw Hk.
  split; [now rewrite <- Hraw|].
  unfold new_side. rewrite Hd. cbn [flat_map].
  rewrite (new_side_of_body body Hbody ls Hk).
  unfold kept_text. now rewrite Hty.
Qed.

End OneHunk.

(** X9.  A patch of one hunk, applied: when the patch is a header line
    followed by lines that start with a space, a plus or a minus, and the
    header is decoded as declaring the lines [mid] of the original content,
    between [pre] and [post], the content having fewer than 2^53 lines, then
    the new content is [pre], the context and added lines of the patch
    without their first character, and [post], joined by line feeds. *)
Theorem patch_of_one_hunk_applies
    (originalContent patch header : string) (body pre mid post : list string)
    (newStart : number) (newLength : Z) :
  LineReader patch = Return (header :: body) ->
  Forall is_content_line body ->
  header_fields header
  = Some (Num (Z.of_nat (List.length pre) + 1), Z.of_nat (List.length mid),
          newStart, newLength) ->
  split_lines "" originalContent = (pre ++ mid ++ post)%list ->
  (Z.of_nat (List.length (split_lines "" originalContent)) < 2 ^ 53)%Z ->
  getModifiedContentFromDiffHunk originalContent patch
  = Return (join nl (map Some (pre ++ new_texts body ++ post)%list)).
Proof.
  intros Hscan Hbody Hfields Hleft Hb.
  pose proof (header_fields_test _ _ Hfields) as Et.
  destruct (parseDiffHunk_loop_returns (header :: body) locals_init) as (st & Hst).
  destruct (single_hunk_parse header body st Et Hbody Hst) as (h & Hfin & Hf & Hnew).
  rewrite Hfields in Hf. unfold hunk_fields in Hf. injection Hf as Ho Hlen _ _.
  unfold getModifiedContentFromDiffHunk, parseDiffHunk.
  rewrite Hscan. cbn [bind]. rewrite Hst. cbn [bind]. rewrite Hfin.
  rewrite Hleft in *.
  pose proof (modified_lines_placed [(pre, mid, h)] post) as H.
  cbn [placed original_lines spliced_lines map segment_hunk snd] in H.
  rewrite H; [|repeat split; [now rewrite <- Ho | now rewrite <- Hlen] | exact Hb].
  cbn [bind]. now rewrite Hnew.
Qed.

Lemma patch_of_one_hunk_applies_witness :
  getModifiedContentFromDiffHunk ("a" ++ nl ++ "b" ++ nl ++ "c" ++ nl ++ "d")
    ("@@ -2,2 +2,3 @@ f()" ++ nl ++ " b" ++ nl ++ "-c" ++ nl ++ "+C" ++ nl ++ "+C2")
  = Return ("a" ++ nl ++ "b" ++ nl ++ "C" ++ nl ++ "C2" ++ nl ++ "d").
Proof.
  rewrite (patch_of_one_hunk_applies _ _ "@@ -2,2 +2,3 @@ f()"
             [" b"; "-c"; "+C"; "+C2"] ["a"] ["b"; "c"] ["d"] (Num 2) 3).
  - reflexivity.
  - vm_compute. reflexivity.
  - repeat constructor; vm_compute; discriminate.
  - vm_compute. reflexivity.
  - reflexivity.
  - vm_compute. reflexivity.
Defined.

(** ** More on carriage returns and on split and join *)

Section SplitJoin.

Lemma count_char_le_length (c : ascii) (s : string) :
  count_char c s <= String.length s.
Proof.
  induction s as [|a s IH]; simpl; [lia|]. destruct (Ascii.eqb a c); lia.
Qed.

(** A piece without CR and LF goes into the current line as it is. *)
Lemma split_lines_clean (l : string) :
  has_char LF l = false -> has_char CR l = false ->
  forall cur s, split_lines cur (l ++ s) = split_lines (cur ++ l) s.
Proof.
  induction l as [|c l IH]; intros Hlf Hcr cur s.
  - now rewrite app_empty_r.
  - cbn [has_char] in Hlf, Hcr. apply orb_false_elim in Hlf, Hcr.
    destruct Hlf as [Hc1 Hl1]. destruct Hcr as [Hc2 Hl2].
    cbn [append].
    replace (cur ++ String c l) with ((cur ++ String c "") ++ l)
      by (rewrite app_assoc_s; reflexivity).
    rewrite <- (IH Hl1 Hl2).
    destruct (l ++ s) as [|c' t] eqn:E.
    + cbn [split_lines]. now rewrite Hc1.
    + apply split_lines_char; [exact Hc1 | now rewrite Hc2].
Qed.

End SplitJoin.

(** X10.  [countCarriageReturns] returns for every text, with the number of
    carriage returns in it: at most the length of the text, and for two
    texts one after the other the sum of their counts. *)
Theorem countCarriageReturns_counts (text more : string) :
  countCarriageReturns text = Return (count_char CR text) /\
  count_char CR text <= String.length text /\
  countCarriageReturns (text ++ more)
  = Return (count_char CR text + count_char CR more).
Proof.
  split; [apply countCarriageReturns_count|]. split; [apply count_char_le_length|].
  now rewrite countCarriageReturns_count, count_char_app.
Qed.

(** X11.  Joined by line feeds and split again, lines come back as they
    were, when there is at least one and none holds a carriage return or a
    line feed: the content the reconstruction returns splits into the lines
    it was joined from. *)
Theorem split_lines_join_round_trip (ls : list string) :
  Forall (fun l => has_char LF l = false /\ has_char CR l = false) ls ->
  ls <> [] ->
  split_lines "" (join nl (map Some ls)) = ls.
Proof.
  induction 1 as [|l ls (Hlf & Hcr) Hls IH]; intros Hne; [congruence|].
  destruct ls as [|l' ls].
  - cbn [map join element_string].
    rewrite <- (app_empty_r l) at 1. rewrite (split_lines_clean l Hlf Hcr "" "").
    reflexivity.
  - rewrite map_cons, join_cons by discriminate. cbn [element_string].
    rewrite (split_lines_clean l Hlf Hcr). unfold nl at 1. cbn [append].
    rewrite split_lines_LF. f_equal. apply IH. discriminate.
Qed.

Lemma split_lines_join_round_trip_witness :
  split_lines "" (join nl (map Some ["a"; ""; "b c"; ""])) = ["a"; ""; "b c"; ""].
Proof.
  apply split_lines_join_round_trip; [|discriminate].
  repeat constructor.
Defined.

(** ** The callers: parseDiff and parserCommentDiffHunk *)

Section Callers.

Lemma parseDiffHunk_returns (patch : string) :
  exists hunks, parseDiffHunk patch = Return hunks.
Proof.
  rewrite parseDiffHunk_lines.
  destruct (parseDiffHunk_loop_returns (scan_lines "" patch) locals_init) as (st & ->).
  cbn [bind]. eauto.
Qed.

Lemma parsePatch_parseDiffHunk (patch : string) :
  parsePatch patch = parseDiffHunk patch.
Proof.
  unfold parsePatch. destruct (parseDiffHunk patch); reflexivity.
Qed.

Lemma getGitChangeType_ADD (status : string) :
  GitChangeType_eqb (getGitChangeType status) ADD = true <-> status = "added".
Proof.
  unfold getGitChangeType.
  destruct (String.eqb status "removed") eqn:E1.
  { apply String.eqb_eq in E1. subst. split; discriminate. }
  destruct (String.eqb status "added") eqn:E2.
  { apply String.eqb_eq in E2. subst. split; reflexivity. }
  apply String.eqb_neq in E2.
  destruct (String.eqb status "renamed"); [split; [discriminate | congruence]|].
  destruct (String.eqb status "modified"); split; try discriminate; congruence.
Qed.

Lemma truthy_patch_some (review : Review.t) (p : string) :
  truthy_patch review = Some p -> Review.patch review = Some p /\ p <> "".
Proof.
  unfold truthy_patch. destruct (Review.patch review) as [[|c q]|]; try discriminate.
  intros H. injection H as <-. split; [reflexivity | discriminate].
Qed.

(** The loop, with the changes pushed so far. *)
Lemma parseDiff_loop_changes {E : Type}
    (checkFileExistence : string -> string -> promise E bool) (parentCommit : string)
    (reviews : list Review.t) :
  (forall review,
      In review reviews -> truthy_patch review <> None ->
      exists b, checkFileExistence parentCommit (Review.filename review) = Fulfilled b) ->
  forall fileChanges,
  exists changes,
    parseDiff_loop checkFileExistence parentCommit reviews fileChanges
    = Fulfilled (fileChanges ++ changes)%list /\
    Forall2 (change_of_review checkFileExistence parentCommit) reviews changes.
Proof.
  induction reviews as [|review reviews IH]; intros Hask fileChanges.
  - exists []. cbn. rewrite app_nil_r. split; [reflexivity | constructor].
  - assert (Hask' : forall r, In r reviews -> truthy_patch r <> None ->
                      exists b, checkFileExistence parentCommit (Review.filename r)
                                = Fulfilled b)
      by (intros r Hr; apply Hask; now right).
    cbn [parseDiff_loop].
    destruct (truthy_patch review) as [p|] eqn:Ep.
    + destruct (Hask review (or_introl eq_refl)) as (b & Hb); [congruence|].
      destruct (parseDiffHunk_returns p) as (hunks & Hh).
      rewrite Hb, parsePatch_parseDiffHunk, Hh. cbn [await call].
      destruct (IH Hask' (fileChanges
                            ++ [InMemFileChange parentCommit
                                  (getGitChangeType (Review.status review))
                                  (Review.filename review) p hunks
                                  (negb b && negb (GitChangeType_eqb
                                                     (getGitChangeType (Review.status review))
                                                     ADD))
                                  (Review.blob_url review)])%list)
        as (changes & Hl & Hc).
      eexists (_ :: changes). split; [rewrite Hl, <- app_assoc; reflexivity|].
      constructor; [|exact Hc].
      destruct (truthy_patch_some _ _ Ep) as (Hp & Hne).
      cbn. repeat split; auto.
      * rewrite Hb. destruct b; [discriminate | reflexivity].
      * intros Hadd. apply getGitChangeType_ADD in Hadd.
        rewrite Hadd in H. destruct b; discriminate.
      * intros (Hf & Hs). rewrite Hb in Hf. injection Hf as ->.
        destruct (GitChangeType_eqb (getGitChangeType (Review.status review)) ADD) eqn:Eg;
          [|reflexivity].
        apply getGitChangeType_ADD in Eg. congruence.
    + destruct (IH Hask' (fileChanges
                            ++ [SlimFileChange (Review.blob_url review)
                                  (getGitChangeType (Review.status review))
                                  (Review.filename review)])%list)
        as (changes & Hl & Hc).
      eexists (_ :: changes). split; [rewrite Hl, <- app_assoc; reflexivity|].
      constructor; [|exact Hc]. cbn. auto.
Qed.

Lemma parseDiff_loop_rejected {E : Type}
    (checkFileExistence : string -> string -> promise E bool) (parentCommit : string)
    (front : list Review.t) (review : Review.t) (back : list Review.t) (reason : E) :
  Forall (fun r => truthy_patch r <> None ->
                   exists b, checkFileExistence parentCommit (Review.filename r)
                             = Fulfilled b) front ->
  truthy_patch review <> None ->
  checkFileExistence parentCommit (Review.filename review) = Rejected reason ->
  forall fileChanges,
    parseDiff_loop checkFileExistence parentCommit (front ++ review :: back) fileChanges
    = Rejected reason.
Proof.
  intros Hfront Hp Hrej. induction Hfront as [|r front Hr _ IH]; intros fileChanges.
  - cbn [app parseDiff_loop]. destruct (truthy_patch review); [|congruence].
    now rewrite Hrej.
  - cbn [app parseDiff_loop]. destruct (truthy_patch r) as [p|] eqn:Ep.
    + destruct Hr as (b & Hb); [discriminate|].
      destruct (parseDiffHunk_returns p) as (hunks & Hh).
      rewrite Hb, parsePatch_parseDiffHunk, Hh. cbn [await call]. apply IH.
    + apply IH.
Qed.

Lemma first_hunk_invariant_step (st : locals) (line : string) (st' : locals) :
  first_hunk_invariant st ->
  parseDiffHunk_step st line = Return st' ->
  first_hunk_invariant st'.
Proof.
  unfold first_hunk_invariant. intros Hinv Hstep.
  destruct (DIFF_HUNK_HEADER_test line) eqn:Et.
  - destruct (header_step st _ Et) as (m & _ & Hs). rewrite Hs in Hstep.
    cbv zeta in Hstep. injection Hstep as <-. rewrite finish_open.
    destruct (parseDiffHunk_finish st) as [|h hs]; [|exact Hinv].
    cbn. now rewrite Hinv.
  - destruct (diffHunk st) as [h|] eqn:Hh.
    + destruct (nonheader_step_exact st h line Et Hh) as (ls' & cur' & Hs & _).
      rewrite Hs in Hstep. injection Hstep as <-.
      rewrite finish_bump, finish_open. rewrite (finish_snoc _ _ Hh) in Hinv.
      destruct (yielded st); exact Hinv.
    + unfold parseDiffHunk_step in Hstep. rewrite Et, Hh in Hstep.
      cbn [bind] in Hstep. injection Hstep as <-. rewrite finish_bump.
      destruct (parseDiffHunk_finish st); [|exact Hinv].
      unfold bump_position. rewrite Hinv. cbn. exact Hinv.
Qed.

Lemma first_hunk_at_0 (patch : string) :
  exists hunks,
    parseDiffHunk patch = Return hunks /\
    match hunks with
    | h :: _ => DiffHunk.positionInHunk h = 0%Z
    | [] => True
    end.
Proof.
  destruct (parseDiffHunk_loop_returns (scan_lines "" patch) locals_init) as (st & Hst).
  exists (parseDiffHunk_finish st).
  split; [rewrite parseDiffHunk_lines, Hst; reflexivity|].
  assert (Hinv : first_hunk_invariant st).
  { apply (@parseDiffHunk_loop_invariant first_hunk_invariant first_hunk_invariant_step
             (scan_lines "" patch) locals_init st); [reflexivity | exact Hst]. }
  unfold first_hunk_invariant in Hinv.
  destruct (parseDiffHunk_finish st); [exact I | exact Hinv].
Qed.

End Callers.

(** X12.  When the repository answers for every review that has a patch,
    [parseDiff] is fulfilled with one file change for every review, in the
    order of the reviews: a [SlimFileChange] for a review without a patch (a
    missing or empty one), for which the repository is not asked, and for any
    other an [InMemFileChange] with the patch, its hunks, and [isPartial] set
    exactly when the file did not exist at the parent commit and the status
    is not "added".  No patch makes it fail. *)
Theorem parseDiff_changes {E : Type}
    (reviews : list Review.t)
    (checkFileExistence : string -> string -> promise E bool) (parentCommit : string) :
  (forall review,
      In review reviews -> truthy_patch review <> None ->
      exists b, checkFileExistence parentCommit (Review.filename review) = Fulfilled b) ->
  exists changes,
    parseDiff reviews checkFileExistence parentCommit = Fulfilled changes /\
    Forall2 (change_of_review checkFileExistence parentCommit) reviews changes.
Proof.
  intros Hask. unfold parseDiff.
  destruct (parseDiff_loop_changes checkFileExistence parentCommit reviews Hask [])
    as (changes & Hl & Hc).
  exists changes. split; [exact Hl | exact Hc].
Qed.

Lemma parseDiff_changes_witness :
  let reviews :=
    [Review.mk None "removed" "blob/a" "a.bin";
     Review.mk (Some ("@@ -1 +1 @@" ++ nl ++ "+x")) "modified" "blob/b" "b.txt"] in
  let repository := fun (_ path : string) =>
    if String.eqb path "b.txt" then Fulfilled false else @Rejected string bool "no" in
  exists hunks,
    parseDiff reviews repository "c0"
    = Fulfilled [SlimFileChange "blob/a" DELETE "a.bin";
                 InMemFileChange "c0" MODIFY "b.txt" ("@@ -1 +1 @@" ++ nl ++ "+x")
                   hunks true "blob/b"].
Proof.
  intros reviews repository.
  destruct (parseDiff_changes reviews repository "c0") as (changes & Hp & _).
  - intros review [<- | [<- | []]] H.
    + exfalso. apply H. reflexivity.
    + exists false. reflexivity.
  - vm_compute in Hp. injection Hp as <-. eexists. vm_compute. reflexivity.
Defined.

(** X13.  A rejection by the repository is the rejection of [parseDiff]:
    when the reviews in front have no patch or are answered for, and the
    repository rejects the question for a review that has a patch,
    [parseDiff] is rejected with that reason, whatever follows. *)
Theorem parseDiff_rejected {E : Type}
    (front : list Review.t) (review : Review.t) (back : list Review.t)
    (checkFileExistence : string -> string -> promise E bool) (parentCommit : string)
    (reason : E) :
  Forall (fun r => truthy_patch r <> None ->
                   exists b, checkFileExistence parentCommit (Review.filename r)
                             = Fulfilled b) front ->
  truthy_patch review <> None ->
  checkFileExistence parentCommit (Review.filename review) = Rejected reason ->
  parseDiff (front ++ review :: back) checkFileExistence parentCommit = Rejected reason.
Proof.
  intros Hfront Hp Hrej. unfold parseDiff.
  now apply parseDiff_loop_rejected.
Qed.

Lemma parseDiff_rejected_witness :
  parseDiff
    [Review.mk (Some "") "added" "blob/a" "a";
     Review.mk (Some "+x") "modified" "blob/b" "b";
     Review.mk None "removed" "blob/c" "c"]
    (fun _ _ => @Rejected string bool "offline") "c0"
  = Rejected "offline".
Proof.
  apply (parseDiff_rejected [Review.mk (Some "") "added" "blob/a" "a"]
           (Review.mk (Some "+x") "modified" "blob/b" "b")
           [Review.mk None "removed" "blob/c" "c"]).
  - constructor; [|constructor]. intros H. exfalso. apply H. reflexivity.
  - discriminate.
  - reflexivity.
Defined.

(** X14.  [parserCommentDiffHunk] returns for every list of comments, with
    the comments in their order: each keeps its [diff_hunk] and whatever else
    it holds, and gets as [diff_hunks] the hunks of its own [diff_hunk], the
    first of which, when there is one, starts at position 0 whatever the
    comments in front of it. *)
Theorem parserCommentDiffHunk_each {A : Type} (comments : list (Comment.t A)) :
  exists after,
    parserCommentDiffHunk comments = Return after /\
    Forall2 comment_parsed comments after.
Proof.
  induction comments as [|c comments (after & Hr & Hf)].
  - exists []. split; [reflexivity | constructor].
  - destruct (first_hunk_at_0 (Comment.diff_hunk c)) as (hunks & Hh & H0).
    exists (Comment.mk (Comment.others c) (Comment.diff_hunk c) (Some hunks) :: after).
    cbn [parserCommentDiffHunk]. rewrite Hh, Hr. cbn [bind].
    split; [reflexivity|]. constructor; [|exact Hf].
    unfold comment_parsed. cbn [Comment.others Comment.diff_hunk Comment.diff_hunks].
    split; [reflexivity|]. split; [reflexivity|].
    exists hunks. split; [reflexivity|]. split; [exact Hh | exact H0].
Qed.

(** ** The flag endwithLineBreak *)

Section Flags.

Lemma stamped_from_index (seen : list string) (l : DiffLine.t) :
  stamped_from seen l -> Z.to_nat (DiffLine.positionInHunk l) < List.length seen.
Proof. intros (_ & H). apply nth_error_Some. congruence. Qed.

Lemma flag_follows_inner (seen : list string) (line : string) (l : DiffLine.t) :
  flag_follows seen l ->
  S (Z.to_nat (DiffLine.positionInHunk l)) < List.length seen ->
  flag_follows (seen ++ [line]) l.
Proof.
  unfold flag_follows, next_is_marker. intros H Hlt.
  now rewrite nth_error_app1 by exact Hlt.
Qed.

Lemma flag_follows_nonmarker (seen : list string) (line : string) (l : DiffLine.t) :
  flag_follows seen l -> stamped_from seen l -> is_marker line = false ->
  flag_follows (seen ++ [line]) l.
Proof.
  intros H Hs Hm. pose proof (stamped_from_index _ _ Hs) as Hi.
  destruct (Nat.eq_dec (S (Z.to_nat (DiffLine.positionInHunk l))) (List.length seen))
    as [E | E].
  - unfold flag_follows, next_is_marker in *. rewrite E in *.
    rewrite nth_error_app2, Nat.sub_diag by lia. cbn [nth_error]. rewrite Hm.
    assert (Hn : nth_error seen (List.length seen) = None)
      by (apply nth_error_None; lia).
    now rewrite Hn in H.
  - apply flag_follows_inner; [exact H | lia].
Qed.

Lemma flag_follows_new (seen : list string) (line : string) (l : DiffLine.t) :
  DiffLine.endwithLineBreak l = true ->
  DiffLine.positionInHunk l = Z.of_nat (List.length seen) ->
  flag_follows (seen ++ [line]) l.
Proof.
  intros Hf Hp. unfold flag_follows, next_is_marker. rewrite Hf, Hp, Nat2Z.id.
  assert (Hn : nth_error (seen ++ [line]) (S (List.length seen)) = None)
    by (apply nth_error_None; rewrite List.length_app; simpl; lia).
  now rewrite Hn.
Qed.

Lemma markers_after_new (seen : list string) (line : string) :
  markers_after (seen ++ [line]) (Z.of_nat (List.length seen)).
Proof.
  intros k Hk. rewrite List.length_app, Nat2Z.id in Hk. simpl in Hk. lia.
Qed.

(** A marker line with the hunk [h] open, whose last line is [l]. *)
Lemma marker_step_exact (st : locals) (h : DiffHunk.t) (line : string)
    (front : list DiffLine.t) (l : DiffLine.t) :
  DIFF_HUNK_HEADER_test line = false ->
  getDiffChangeType line = Control ->
  diffHunk st = Some h ->
  DiffHunk.diffLines h = (front ++ [l])%list ->
  parseDiffHunk_step st line
  = Return (bump_position
              (Locals (Some (DiffHunk.set_diffLines
                               (front ++ [DiffLine.set_endwithLineBreak false l]) h))
                      (positionInHunk st) (oldLine st) (newLine st) (yielded st))).
Proof.
  intros Et Hc Hh Hd. unfold parseDiffHunk_step. rewrite Et, Hh.
  unfold content_branch. rewrite Hc, Hd. cbn [DiffChangeType_eqb].
  replace (0 <? List.length (front ++ [l])%list) with true
    by (symmetry; apply Nat.ltb_lt; rewrite List.length_app; simpl; lia).
  rewrite clear_last_snoc. reflexivity.
Qed.

Lemma flag_invariant_step
    (seen : list string) (st : locals) (line : string) (st' : locals) :
  flag_invariant seen st ->
  parseDiffHunk_step st line = Return st' ->
  flag_invariant (seen ++ [line]) st'.
Proof.
  intros (Hpos & Hflags & Haux) Hstep.
  split; [exact (@position_invariant_step seen st line st' Hpos Hstep)|].
  destruct Hpos as (Hp & Hopen & Hst & Hsorted & Hhead & _).
  destruct (DIFF_HUNK_HEADER_test line) eqn:Et.
  - assert (Hm : is_marker line = false) by (unfold is_marker; now rewrite Et).
    destruct (header_step st _ Et) as (m & _ & Hs). rewrite Hs in Hstep.
    cbv zeta in Hstep.
    destruct (positionInHunk st =? -1)%Z eqn:E; [apply Z.eqb_eq in E; lia|].
    injection Hstep as <-. rewrite finish_open, all_diffLines_snoc.
    cbn [DiffHunk.diffLines diffHunk]. split.
    + apply Forall_app. split.
      * rewrite Forall_forall in *. intros x Hx.
        apply flag_follows_nonmarker; auto.
      * constructor; [|constructor]. apply flag_follows_new; [reflexivity | exact Hp].
    + intros h front l Hh Hd. injection Hh as <-. cbn [DiffHunk.diffLines] in Hd.
      destruct front as [|a [|b front]]; try discriminate Hd.
      injection Hd as <-. cbn [DiffLine.positionInHunk]. rewrite Hp.
      apply markers_after_new.
  - destruct (diffHunk st) as [h|] eqn:Hh; [|congruence].
    rewrite (finish_snoc _ _ Hh), all_diffLines_snoc in Hst, Hsorted, Hflags.
    destruct (DiffChangeType_eqb (getDiffChangeType line) Control) eqn:Ec.
    + assert (Hc : getDiffChangeType line = Control)
        by (destruct (getDiffChangeType line); try discriminate; reflexivity).
      assert (Hm : is_marker line = true) by (unfold is_marker; now rewrite Et, Ec).
      rewrite (finish_snoc _ _ Hh) in Hhead.
      apply Forall_app in Hhead. destruct Hhead as (_ & HheadH).
      inversion HheadH as [|? ? (l0 & ls0 & Hd0 & _) _]; subst.
      destruct (snoc_cases (DiffHunk.diffLines h)) as [Hnil | (front & l & Hd)];
        [congruence|].
      rewrite (marker_step_exact st h line front l Et Hc Hh Hd) in Hstep.
      injection Hstep as <-. rewrite finish_bump, finish_open, all_diffLines_snoc.
      cbn [DiffHunk.diffLines DiffHunk.set_diffLines].
      rewrite Hd in Hst, Hsorted, Hflags. rewrite !app_assoc in Hst, Hsorted, Hflags.
      rewrite app_assoc.
      apply Forall_app in Hst. destruct Hst as (HstA & HstL).
      apply Forall_app in Hflags. destruct Hflags as (HflA & HflL).
      inversion HstL as [|? ? Hsl _]; subst. inversion HflL as [|? ? Hfl _]; subst.
      pose proof (stamped_from_index _ _ Hsl) as Hil.
      assert (Hmk : markers_after (seen ++ [line]) (DiffLine.positionInHunk l)).
      { intros k Hk. rewrite List.length_app in Hk. simpl in Hk.
        destruct (Nat.eq_dec k (List.length seen)) as [-> | Hne].
        - exists line. rewrite nth_error_app2, Nat.sub_diag by lia. auto.
        - destruct (Haux h front l eq_refl Hd k) as (x & Hx & Hxm); [lia|].
          exists x. rewrite nth_error_app1 by lia. auto. }
      split.
      * apply Forall_app. split.
        -- rewrite Forall_forall in *. intros x Hx.
           apply flag_follows_inner; [now apply HflA|].
           rewrite map_app in Hsorted. cbn [map] in Hsorted.
           assert (Hlt : (DiffLine.positionInHunk x < DiffLine.positionInHunk l)%Z).
           { apply (@sorted_app_lt _ _ Hsorted); [now apply in_map | now left]. }
           destruct (HstA x Hx) as (H0 & _). destruct Hsl as (H0l & _). lia.
        -- constructor; [|constructor].
           unfold flag_follows, next_is_marker.
           cbn [DiffLine.endwithLineBreak DiffLine.set_endwithLineBreak
                DiffLine.positionInHunk].
           destruct (Hmk (S (Z.to_nat (DiffLine.positionInHunk l)))) as (x & Hx & Hxm).
           { rewrite List.length_app. simpl. lia. }
           now rewrite Hx, Hxm.
      * unfold bump_position. cbn [positionInHunk]. intros h' front' l' Hh' Hd'.
        assert (h' = DiffHunk.set_diffLines
                       (front ++ [DiffLine.set_endwithLineBreak false l]) h)
          by (destruct (negb (positionInHunk st =? -1)%Z); cbn [diffHunk] in Hh'; congruence).
        subst h'. cbn [DiffHunk.diffLines DiffHunk.set_diffLines] in Hd'.
        apply app_inj_tail in Hd'. destruct Hd' as [_ <-]. exact Hmk.
    + assert (Hc : getDiffChangeType line <> Control)
        by (intros H; rewrite H in Ec; discriminate).
      assert (Hm : is_marker line = false)
        by (unfold is_marker; rewrite Ec; apply andb_false_r).
      destruct (nonheader_step_exact st h line Et Hh) as (ls' & cur' & Hs & Hcase).
      destruct Hcase as [(Hc' & _) | (_ & -> & _)]; [congruence|].
      rewrite Hs in Hstep. injection Hstep as <-.
      rewrite finish_bump, finish_open, all_diffLines_snoc.
      cbn [DiffHunk.diffLines DiffHunk.set_diffLines]. rewrite app_assoc. split.
      * apply Forall_app. split.
        -- rewrite Forall_forall in *. intros x Hx.
           apply flag_follows_nonmarker; auto.
        -- constructor; [|constructor]. apply flag_follows_new; [reflexivity | exact Hp].
      * unfold bump_position. cbn [positionInHunk]. intros h' front' l' Hh' Hd'.
        assert (h' = DiffHunk.set_diffLines
                       (DiffHunk.diffLines h ++ [content_DiffLine st line]) h)
          by (destruct (negb (positionInHunk st =? -1)%Z); cbn [diffHunk] in Hh'; congruence).
        subst h'. cbn [DiffHunk.diffLines DiffHunk.set_diffLines] in Hd'.
        apply app_inj_tail in Hd'. destruct Hd' as [_ <-].
        cbn [content_DiffLine DiffLine.positionInHunk]. rewrite Hp.
        apply markers_after_new.
Qed.

Lemma flag_invariant_loop (post : list string) :
  forall (seen : list string) (st st' : locals),
    flag_invariant seen st ->
    parseDiffHunk_loop st post = Return st' ->
    flag_invariant (seen ++ post) st'.
Proof.
  induction post as [|line post IH]; intros seen st st' Hinv H; simpl in H.
  - injection H as <-. now rewrite app_nil_r.
  - destruct (parseDiffHunk_step st line) as [st1| |] eqn:E; cbn [bind] in H;
      try discriminate.
    replace (seen ++ line :: post)%list with ((seen ++ [line]) ++ post)%list
      by (rewrite <- app_assoc; reflexivity).
    apply (IH _ st1 st'); [|exact H]. now apply (flag_invariant_step seen st line st1).
Qed.

End Flags.

(** X15.  Which lines have [endwithLineBreak] cleared: in a patch whose first
    header line is [header], with [post] the lines after it, a line of a hunk
    has the flag cleared exactly when the scanned line right after its own is
    there and is a marker line, one that is not a header and starts with none
    of space, plus and minus.  An empty line counts as one. *)
Theorem endwithLineBreak_follows
    (patch : string) (pre : list string) (header : string) (post : list string) :
  LineReader patch = Return (pre ++ header :: post)%list ->
  Forall (fun l => DIFF_HUNK_HEADER_test l = false) pre ->
  DIFF_HUNK_HEADER_test header = true ->
  exists hunks,
    parseDiffHunk patch = Return hunks /\
    Forall (fun l => DiffLine.endwithLineBreak l
                     = negb (next_is_marker (header :: post) (DiffLine.positionInHunk l)))
           (all_diffLines hunks).
Proof.
  intros Hscan Hpre Et.
  destruct (parseDiffHunk_loop_returns (pre ++ header :: post) locals_init) as (st & Hst).
  exists (parseDiffHunk_finish st).
  split; [unfold parseDiffHunk; rewrite Hscan; cbn [bind]; now rewrite Hst|].
  rewrite parseDiffHunk_loop_app, (idle_loop Hpre) in Hst.
  cbn [bind parseDiffHunk_loop] in Hst.
  destruct (parseDiffHunk_step locals_init header) as [st1| |] eqn:E1;
    cbn [bind] in Hst; try discriminate.
  destruct (@position_invariant_header header st1 Et E1) as (Hinv & _).
  assert (Hf1 : flag_invariant [header] st1).
  { split; [exact Hinv|].
    destruct (header_step locals_init _ Et) as (m & _ & Hs). rewrite Hs in E1.
    cbn in E1. injection E1 as <-. split.
    - unfold all_diffLines. cbn. constructor; [reflexivity | constructor].
    - intros h front l Hh Hd. injection Hh as <-. cbn [DiffHunk.diffLines] in Hd.
      destruct front as [|a [|b front]]; try discriminate Hd.
      injection Hd as <-. intros k Hk. cbn in Hk. lia. }
  destruct (flag_invariant_loop post [header] st1 st Hf1 Hst) as (_ & Hflags & _).
  exact Hflags.
Qed.

Lemma endwithLineBreak_follows_witness :
  exists hunks,
    parseDiffHunk ("@@ -1 +1 @@" ++ nl ++ "-a" ++ nl ++ "\ No newline at end of file"
                   ++ nl ++ "+b" ++ nl ++ nl ++ "+c")
    = Return hunks /\
    map DiffLine.endwithLineBreak (all_diffLines hunks) = [true; false; false; true].
Proof.
  destruct (endwithLineBreak_follows
              ("@@ -1 +1 @@" ++ nl ++ "-a" ++ nl ++ "\ No newline at end of file"
               ++ nl ++ "+b" ++ nl ++ nl ++ "+c")
              [] "@@ -1 +1 @@" ["-a"; "\ No newline at end of file"; "+b"; ""; "+c"])
    as (hunks & Hp & _).
  - vm_compute. reflexivity.
  - constructor.
  - vm_compute. reflexivity.
  - exists hunks. split; [exact Hp|].
    vm_compute in Hp. injection Hp as <-. reflexivity.
Defined.

(** ** A header that starts at line 0 *)

Section LineZero.

Lemma pushes_from_0 (left : list string) :
  pushes left (count_from 0 (S (List.length left))) = None :: map Some left.
Proof.
  unfold pushes, count_from. cbn [seq map]. f_equal.
  rewrite <- seq_shift, !map_map, <- (seq_nth_error left).
  apply map_ext. intros i. unfold array_get.
  replace (0 <=? 0 + Z.of_nat (S i) - 1)%Z with true by (symmetry; apply Z.leb_le; lia).
  f_equal. lia.
Qed.

Lemma modified_lines_from_0 (left : list string) (h : DiffHunk.t) :
  DiffHunk.oldLineNumber h = Num 0 ->
  DiffHunk.oldLength h = 0%Z ->
  modified_lines left [h]
  = Return (map Some (new_side h) ++ None :: map Some left)%list.
Proof.
  intros Ho Hl. unfold modified_lines. cbn [splice_hunks]. unfold splice_hunk, copy_lines.
  cbn [fst snd]. rewrite Ho, Hl.
  change (number_add (Num 0) (Num 1)) with (Num 1).
  change (number_add (number_add (Num 0) (Num 0)) (Num (-1))) with (Num (-1)).
  cbn [for_range bind fst snd app]. unfold copy_tail. cbn [number_ltb].
  replace (-1 <? Z.of_nat (List.length left))%Z with true
    by (symmetry; apply Z.ltb_lt; lia).
  change (number_add (Num (-1)) (Num 1)) with (Num 0).
  cbn [for_range_through bind].
  replace (Z.to_nat (Z.of_nat (List.length left) + 1 - 0)) with (S (List.length left))
    by lia.
  rewrite pushes_from_0. reflexivity.
Qed.

End LineZero.

(** X16.  A header that starts the original side at line 0, as the header
    of a new file does: the patch being that header, with a length of 0, and
    content lines, the new content is the context and added lines of the
    patch, then an empty line for the read of [left[-1]], then every line of
    the original content; for an empty original content, the lines of the
    patch followed by two line feeds. *)
Theorem patch_from_line_0
    (originalContent patch header : string) (body : list string)
    (newStart : number) (newLength : Z) :
  LineReader patch = Return (header :: body) ->
  Forall is_content_line body ->
  header_fields header = Some (Num 0, 0%Z, newStart, newLength) ->
  getModifiedContentFromDiffHunk originalContent patch
  = Return (join nl (map Some (new_texts body)
                     ++ None :: map Some (split_lines "" originalContent))%list) /\
  getModifiedContentFromDiffHunk "" patch
  = Return (join nl (map Some (new_texts body) ++ [None; Some ""])%list).
Proof.
  intros Hscan Hbody Hfields.
  pose proof (header_fields_test _ _ Hfields) as Et.
  destruct (parseDiffHunk_loop_returns (header :: body) locals_init) as (st & Hst).
  destruct (single_hunk_parse header body st Et Hbody Hst) as (h & Hfin & Hf & Hnew).
  rewrite Hfields in Hf. unfold hunk_fields in Hf. injection Hf as Ho Hlen _ _.
  assert (H : forall content,
             getModifiedContentFromDiffHunk content patch
             = Return (join nl (map Some (new_texts body)
                                ++ None :: map Some (split_lines "" content))%list)).
  { intros content. unfold getModifiedContentFromDiffHunk, parseDiffHunk.
    rewrite Hscan. cbn [bind]. rewrite Hst. cbn [bind]. rewrite Hfin.
    rewrite (modified_lines_from_0 _ h) by congruence. cbn [bind].
    now rewrite Hnew. }
  split; [apply H | exact (H "")].
Qed.

Lemma patch_from_line_0_witness :
  getModifiedContentFromDiffHunk ""
    ("@@ -0,0 +1,2 @@" ++ nl ++ "+x" ++ nl ++ "+y")
  = Return ("x" ++ nl ++ "y" ++ nl ++ nl).
Proof.
  destruct (patch_from_line_0 "" ("@@ -0,0 +1,2 @@" ++ nl ++ "+x" ++ nl ++ "+y")
              "@@ -0,0 +1,2 @@" ["+x"; "+y"] (Num 1) 2) as (_ & H).
  - vm_compute. reflexivity.
  - repeat constructor; vm_compute; discriminate.
  - vm_compute. reflexivity.
  - rewrite H. reflexivity.
Defined.
